(** * The constraint solver of the type checker (lib/Sema/CSSolver.cpp)

    A shallow embedding of the search engine of the constraint solver:
    binding checks, supertype enumeration, the classifier, the ranking of
    potential bindings, the binding search, worklist simplification, solver
    scopes and the top-level driver, with the properties of each. *)

From Stdlib Require Import String ZArith Bool Lia Arith List Permutation.
Import ListNotations.

Set Warnings "-register-all".

(** ** Types

    The type representation is an external collaborator of the solver; the
    solver only walks it through a small interface. *)

Definition TypeVariable := nat.
Definition NominalTypeDecl := nat.
Definition ProtocolDecl := nat.
Definition Identifier := string.

(** One element of a tuple type: an optional label (the empty identifier
    when absent), the variadic flag and the element type. *)
Record TupleTypeElt_ (T : Type) : Type := mkTupleTypeElt {
  Name : Identifier;
  Vararg : bool;
  EltType : T
}.
Arguments mkTupleTypeElt {T}.
Arguments Name {T}.
Arguments Vararg {T}.
Arguments EltType {T}.

(** Modelled from the spec: the type expression of the data model, "a tree
    with leaves including type variables (identity-based), nominal types,
    tuples (ordered sequences of optionally-labelled, optionally-variadic
    elements), function types (input -> result, with an auto-closure flag),
    and l-value wrapper types". The declaration of the C++ type hierarchy is
    not part of CSSolver.cpp. *)
Inductive Ty : Type :=
| TypeVariableType (tv : TypeVariable)
| NominalType (decl : NominalTypeDecl)
| TupleType (fields : list (TupleTypeElt_ Ty))
| FunctionType (input result : Ty) (autoClosure : bool)
| LValueType (object : Ty) (implicitQuals : bool).

Definition TupleTypeElt := TupleTypeElt_ Ty.

Fixpoint Ty_eq_dec (a b : Ty) {struct a} : {a = b} + {a <> b}.
Proof.
  decide equality; try apply Bool.bool_dec; try apply Nat.eq_dec.
  apply list_eq_dec. intros x y.
  decide equality; try apply Bool.bool_dec; try apply string_dec.
Defined.

Definition Ty_eqb (a b : Ty) : bool := if Ty_eq_dec a b then true else false.

(** Modelled from the spec: [typeVariablesIn(t)], the walk of the type
    interface that appends the type variables occurring in [t]
    ([TypeBase::getTypeVariables], declared outside CSSolver.cpp). *)
Fixpoint getTypeVariables (t : Ty) : list TypeVariable :=
  match t with
  | TypeVariableType v => [v]
  | NominalType _ => []
  | TupleType fs => flat_map (fun e => getTypeVariables (EltType e)) fs
  | FunctionType i r _ => getTypeVariables i ++ getTypeVariables r
  | LValueType o _ => getTypeVariables o
  end.

(** Modelled from the spec: the predicate [hasTypeVariable] of the type
    interface. *)
Definition hasTypeVariable (t : Ty) : bool :=
  match getTypeVariables t with [] => false | _ :: _ => true end.

(** [type->is<TypeVariableType>()] / [isa<TypeVariableType>]. *)
Definition isTypeVariable (t : Ty) : bool :=
  match t with TypeVariableType _ => true | _ => false end.

(** [type->getAs<TypeVariableType>()]. *)
Definition getAsTypeVariable (t : Ty) : option TypeVariable :=
  match t with TypeVariableType v => Some v | _ => None end.

(** [type->getAs<TupleType>()], giving the fields. *)
Definition getAsTupleType (t : Ty) : option (list TupleTypeElt) :=
  match t with TupleType fs => Some fs | _ => None end.

(** [type->getAs<FunctionType>()], giving the result type and the
    auto-closure flag. *)
Definition getAsFunctionType (t : Ty) : option (Ty * bool) :=
  match t with FunctionType _ r ac => Some (r, ac) | _ => None end.

(** [type->getAs<LValueType>()], giving the object type and whether the
    qualifiers are implicit. *)
Definition getAsLValueType (t : Ty) : option (Ty * bool) :=
  match t with LValueType o q => Some (o, q) | _ => None end.

(** Modelled from the spec: [rvalueOf] of the type interface, which strips
    an l-value wrapper ([TypeBase::getRValueType], declared outside
    CSSolver.cpp). *)
Definition getRValueType (t : Ty) : Ty :=
  match t with LValueType o _ => o | _ => t end.

(** The collaborators the solver core consumes: the substitution store's
    [simplifyType] and [getRepresentative], canonicalisation, the class
    hierarchy, tuple layout queries and the literal-protocol tables. They
    are implemented outside CSSolver.cpp and are taken as an interface. *)
Class SemaEnv : Type := {
  simplifyType : Ty -> Ty;
  getRepresentative : TypeVariable -> TypeVariable;
  canBindToLValue : TypeVariable -> bool;
  getCanonicalType : Ty -> Ty;
  mayHaveSuperclass : Ty -> bool;
  getSuperClassOf : Ty -> option Ty;
  getFieldForScalarInit : list TupleTypeElt -> Z;
  getVarargBaseTy : TupleTypeElt -> Ty;
  getDefaultType : ProtocolDecl -> option Ty;
  isUnspecializedGeneric : Ty -> bool;
  getAnyNominal : Ty -> option NominalTypeDecl;
  getAlternativeLiteralTypes : ProtocolDecl -> list Ty;
  openBindingType : Ty -> Ty
}.

(** ** Binding checks and direct supertypes *)

Section Bindings.
Context {env : SemaEnv}.

(** [checkTypeOfBinding(cs, typeVar, type)]. The argument is a nullable
    [Type]; [None] is the null type. *)
Definition checkTypeOfBinding (typeVar : TypeVariable) (type : option Ty)
  : option Ty :=
  match type with
  | None => None
  | Some type =>
      let type := simplifyType type in
      let referencedTypeVars := getTypeVariables type in
      if negb (count_occ Nat.eq_dec referencedTypeVars typeVar =? 0) then None
      else if isTypeVariable (getRValueType type) then None
      else Some type
  end.

Definition isEmptyIdentifier (n : Identifier) : bool :=
  match n with EmptyString => true | _ => false end.

(** [ConstraintSystem::enumerateDirectSupertypes(type)]. *)
Definition enumerateDirectSupertypes (type : Ty) : list Ty :=
  let result : list Ty := [] in
  let result :=
    match getAsTupleType type with
    | Some fields =>
        let scalarIdx := getFieldForScalarInit fields in
        if (0 <=? scalarIdx)%Z then
          match nth_error fields (Z.to_nat scalarIdx) with
          | Some elt =>
              if Vararg elt then result ++ [getVarargBaseTy elt]
              else if negb (isEmptyIdentifier (Name elt))
                   then result ++ [EltType elt]
                   else result
          | None => result
          end
        else result
    | None => result
    end in
  let result :=
    match getAsFunctionType type with
    | Some (res, autoClosure) =>
        if autoClosure then result ++ [res] else result
    | None => result
    end in
  let result :=
    if mayHaveSuperclass type then
      match getSuperClassOf type with
      | Some superclass => result ++ [superclass]
      | None => result
      end
    else result in
  let result :=
    match getAsLValueType type with
    | Some (object, implicit) =>
        if implicit then result ++ [object] else result
    | None => result
    end in
  result.

(** The four sources of direct supertypes, each written after its
    description. *)
Definition scalarInitSupertype (t : Ty) : list Ty :=
  match t with
  | TupleType fields =>
      let idx := getFieldForScalarInit fields in
      if (idx <? 0)%Z then []
      else match nth_error fields (Z.to_nat idx) with
           | None => []
           | Some elt =>
               match Vararg elt, Name elt with
               | true, _ => [getVarargBaseTy elt]
               | false, EmptyString => []
               | false, _ => [EltType elt]
               end
           end
  | _ => []
  end.

Definition autoClosureSupertype (t : Ty) : list Ty :=
  match t with FunctionType _ r true => [r] | _ => [] end.

Definition superclassSupertype (t : Ty) : list Ty :=
  if mayHaveSuperclass t
  then match getSuperClassOf t with Some s => [s] | None => [] end
  else [].

Definition lvalueSupertype (t : Ty) : list Ty :=
  match t with LValueType o true => [o] | _ => [] end.


(** ** Constraints *)

(** Modelled from the spec: the constraint kinds of the data model. The
    enumeration is declared outside CSSolver.cpp; the kinds named in the
    solver and in the data model are kept, and the unary type predicates
    are one kind. *)
Inductive ConstraintKind : Type :=
| Bind | Equal | TrivialSubtype | Subtype | Conversion | ApplicableFunction
| ConformsTo | SelfObjectOfProtocol
| ValueMember | TypeMember
| UnaryTypeProperty
| Conjunction | Disjunction.

Definition ConstraintKind_eq_dec (a b : ConstraintKind) : {a = b} + {a <> b}.
Proof. decide equality. Defined.

Definition ConstraintKind_eqb (a b : ConstraintKind) : bool :=
  if ConstraintKind_eq_dec a b then true else false.

Inductive ConstraintClassification : Type :=
| Relational | TypeProperty | Member
| ClassConjunction | ClassDisjunction.

(** A constraint object. Identity is by address ([addr]); the second type
    is null for constraints that have none. *)
Inductive Constraint : Type := mkConstraint {
  addr : nat;
  getKind : ConstraintKind;
  getFirstType : Ty;
  getSecondType : option Ty;
  getProtocol : ProtocolDecl;
  getNestedConstraints : list Constraint
}.

(** Modelled from the spec: [Constraint::getClassification], declared
    outside CSSolver.cpp. The conformance kinds are classified as
    relational, as the classifier tests for them inside its relational
    case. *)
Definition getClassification (c : Constraint) : ConstraintClassification :=
  match getKind c with
  | Bind | Equal | TrivialSubtype | Subtype | Conversion
  | ApplicableFunction | ConformsTo | SelfObjectOfProtocol => Relational
  | ValueMember | TypeMember => Member
  | UnaryTypeProperty => TypeProperty
  | Conjunction => ClassConjunction
  | Disjunction => ClassDisjunction
  end.

(** The per-type-variable summary built by the classifier. *)
Record TypeVariableConstraints : Type := mkTVC {
  TypeVar : TypeVariable;
  FullyBound : bool;
  HasNonConcreteConstraints : bool;
  Above : list (Constraint * Ty);
  Below : list (Constraint * Ty);
  ConformsToConstraints : list Constraint
}.

(** [TypeVariableConstraints(tv)]. *)
Definition newTVC (tv : TypeVariable) : TypeVariableConstraints :=
  mkTVC tv false false [] [] [].

Definition setFullyBound (t : TypeVariableConstraints) :=
  mkTVC (TypeVar t) true (HasNonConcreteConstraints t) (Above t) (Below t)
        (ConformsToConstraints t).
Definition setHasNonConcreteConstraints (t : TypeVariableConstraints) :=
  mkTVC (TypeVar t) (FullyBound t) true (Above t) (Below t)
        (ConformsToConstraints t).
Definition pushAbove (x : Constraint * Ty) (t : TypeVariableConstraints) :=
  mkTVC (TypeVar t) (FullyBound t) (HasNonConcreteConstraints t)
        (Above t ++ [x]) (Below t) (ConformsToConstraints t).
Definition pushBelow (x : Constraint * Ty) (t : TypeVariableConstraints) :=
  mkTVC (TypeVar t) (FullyBound t) (HasNonConcreteConstraints t)
        (Above t) (Below t ++ [x]) (ConformsToConstraints t).
Definition pushConformsTo (c : Constraint) (t : TypeVariableConstraints) :=
  mkTVC (TypeVar t) (FullyBound t) (HasNonConcreteConstraints t)
        (Above t) (Below t) (ConformsToConstraints t ++ [c]).

(** Update of one slot of a vector; out of range it does nothing. *)
Fixpoint updateAt {A : Type} (i : nat) (f : A -> A) (l : list A) : list A :=
  match l, i with
  | [], _ => []
  | x :: r, O => f x :: r
  | x :: r, S j => x :: updateAt j f r
  end.

(** ** The classifier *)

(** The state threaded through [collectConstraintsForTypeVariables]: the
    vector of summaries, the map from a representative to its index plus
    one (0 when absent, as [operator[]] default-constructs), the
    disjunctions and the referenced type variables. *)
Record ClassifierState : Type := mkClassifierState {
  typeVarConstraints : list TypeVariableConstraints;
  typeVarConstraintsMap : TypeVariable -> nat;
  disjunctions : list Constraint;
  referencedTypeVars : list TypeVariable
}.

Definition withTVCs (st : ClassifierState) vec map :=
  mkClassifierState vec map (disjunctions st) (referencedTypeVars st).
Definition addReferenced (tvs : list TypeVariable) (st : ClassifierState) :=
  mkClassifierState (typeVarConstraints st) (typeVarConstraintsMap st)
                    (disjunctions st) (referencedTypeVars st ++ tvs).
Definition addDisjunction (c : Constraint) (st : ClassifierState) :=
  mkClassifierState (typeVarConstraints st) (typeVarConstraintsMap st)
                    (disjunctions st ++ [c]) (referencedTypeVars st).

(** The lambda [getTVC], followed by the update [f] of the summary it
    returns a reference to. *)
Definition getTVC (tv : TypeVariable)
  (f : TypeVariableConstraints -> TypeVariableConstraints)
  (st : ClassifierState) : ClassifierState :=
  let tv := getRepresentative tv in
  let constraintsIdx := typeVarConstraintsMap st tv in
  if constraintsIdx =? 0 then
    let vec := typeVarConstraints st ++ [newTVC tv] in
    let idx := length vec in
    withTVCs st (updateAt (idx - 1) f vec)
             (fun k => if k =? tv then idx else typeVarConstraintsMap st k)
  else
    withTVCs st (updateAt (constraintsIdx - 1) f (typeVarConstraints st))
             (typeVarConstraintsMap st).

(** [typeVariablesIntersect(cs, typeVars1, typeVars2)]. *)
Definition typeVariablesIntersect (typeVars1 typeVars2 : list TypeVariable)
  : bool :=
  match typeVars1, typeVars2 with
  | [], _ | _, [] => false
  | _, _ =>
      let typeVars1Set := map getRepresentative typeVars1 in
      existsb (fun tv =>
                 existsb (Nat.eqb (getRepresentative tv)) typeVars1Set)
              typeVars2
  end.

(** The type variables of the operands of the alternatives of a
    disjunction, one level into inner conjunctions. *)
Definition disjunctionReferences (constraint : Constraint)
  : list TypeVariable :=
  flat_map
    (fun dis =>
       let innerConstraints :=
         if ConstraintKind_eqb (getKind dis) Conjunction
         then getNestedConstraints dis else [dis] in
       flat_map
         (fun inner =>
            getTypeVariables (simplifyType (getFirstType inner)) ++
            match getSecondType inner with
            | Some second => getTypeVariables (simplifyType second)
            | None => []
            end)
         innerConstraints)
    (getNestedConstraints constraint).

(** The body of the loop over the active constraints. [None] stands for
    the two places where the code cannot continue: a conjunction at top
    level ([llvm_unreachable]) and a missing second type where one is
    dereferenced. *)
Definition classifyConstraint (constraint : Constraint)
  (st : ClassifierState) : option ClassifierState :=
  let first := simplifyType (getFirstType constraint) in
  match getClassification constraint with
  | Relational =>
      if ConstraintKind_eqb (getKind constraint) ConformsTo ||
         ConstraintKind_eqb (getKind constraint) SelfObjectOfProtocol
      then
        match first with
        | TypeVariableType firstTV =>
            Some (getTVC firstTV (pushConformsTo constraint) st)
        | _ => Some st
        end
      else
        match getSecondType constraint with
        | None => None
        | Some second0 =>
            let second := simplifyType second0 in
            if ConstraintKind_eqb (getKind constraint) ApplicableFunction
            then
              let lhsTypeVars := getTypeVariables first in
              let st := fold_left (fun s typeVar =>
                                     getTVC typeVar setFullyBound s)
                                  lhsTypeVars st in
              Some (addReferenced (getTypeVariables second) st)
            else
              let firstTV := getAsTypeVariable first in
              let st :=
                match firstTV with
                | Some tv => getTVC tv (pushAbove (constraint, second)) st
                | None => addReferenced (getTypeVariables first) st
                end in
              let secondTV := getAsTypeVariable second in
              let st :=
                match secondTV with
                | Some tv => getTVC tv (pushBelow (constraint, first)) st
                | None => addReferenced (getTypeVariables second) st
                end in
              match firstTV, secondTV with
              | Some tv1, Some tv2 => Some (addReferenced [tv1; tv2] st)
              | _, _ => Some st
              end
        end
  | TypeProperty =>
      if negb (isTypeVariable first)
      then Some (addReferenced (getTypeVariables first) st)
      else Some st
  | Member =>
      match getSecondType constraint with
      | None => None
      | Some second0 =>
          let baseTypeVars := getTypeVariables first in
          let memberTypeVars := getTypeVariables (simplifyType second0) in
          if negb (typeVariablesIntersect baseTypeVars memberTypeVars)
          then Some (fold_left (fun s typeVar =>
                                  getTVC typeVar setFullyBound s)
                               memberTypeVars st)
          else Some (addReferenced memberTypeVars st)
      end
  | ClassConjunction => None
  | ClassDisjunction =>
      Some (addReferenced (disjunctionReferences constraint)
                          (addDisjunction constraint st))
  end.

Fixpoint classifyConstraints (constraints : list Constraint)
  (st : ClassifierState) : option ClassifierState :=
  match constraints with
  | [] => Some st
  | c :: rest =>
      match classifyConstraint c st with
      | Some st' => classifyConstraints rest st'
      | None => None
      end
  end.

(** The final loop, which marks the summaries of the referenced type
    variables; [SeenVars] skips a variable that is redundantly in the
    list. *)
Fixpoint markReferenced (referenced : list TypeVariable)
  (SeenVars : list TypeVariable)
  (map : TypeVariable -> nat) (vec : list TypeVariableConstraints)
  : list TypeVariableConstraints :=
  match referenced with
  | [] => vec
  | tv :: rest =>
      if existsb (Nat.eqb tv) SeenVars then markReferenced rest SeenVars map vec
      else
        let SeenVars := tv :: SeenVars in
        let known := map (getRepresentative tv) in
        if known =? 0 then markReferenced rest SeenVars map vec
        else markReferenced rest SeenVars map
               (updateAt (known - 1) setHasNonConcreteConstraints vec)
  end.

(** [ConstraintSystem::collectConstraintsForTypeVariables]: the summaries
    and the disjunctions, the latter appended to the caller's vector. *)
Definition collectConstraintsForTypeVariables
  (Constraints : list Constraint) (disjunctions0 : list Constraint)
  : option (list TypeVariableConstraints * list Constraint) :=
  match classifyConstraints Constraints
          (mkClassifierState [] (fun _ => 0) disjunctions0 []) with
  | None => None
  | Some st =>
      Some (markReferenced (referencedTypeVars st) []
              (typeVarConstraintsMap st) (typeVarConstraints st),
            disjunctions st)
  end.

(** ** Potential bindings and their ranking *)

Record PotentialBindings : Type := mkPotentialBindings {
  Bindings : list (Ty * bool);
  PBFullyBound : bool;
  InvolvesTypeVariables : bool;
  HasLiteralBindings : bool
}.

(** [explicit operator bool]: the set of bindings is non-empty. *)
Definition hasBindings (x : PotentialBindings) : bool :=
  match Bindings x with [] => false | _ :: _ => true end.

(** [size_t] arithmetic: [Bindings.size()] is unsigned, and so is its
    negation, which wraps around modulo 2^64. *)
Definition size_t_modulus : Z := 2 ^ 64.
Definition size {A : Type} (l : list A) : Z :=
  Z.of_nat (length l) mod size_t_modulus.
Definition size_t_neg (n : Z) : Z := (- n) mod size_t_modulus.

(** [operator<] of [bool]: false is before true. *)
Definition bool_lt (a b : bool) : bool := negb a && b.

(** [operator<] of [std::tuple<bool, bool, bool, size_t>]: lexicographic,
    from the first component on. *)
Definition tuple_lt (x y : bool * bool * bool * Z) : bool :=
  let '(x0, x1, x2, x3) := x in
  let '(y0, y1, y2, y3) := y in
  bool_lt x0 y0 ||
  (negb (bool_lt y0 x0) &&
   (bool_lt x1 y1 ||
    (negb (bool_lt y1 x1) &&
     (bool_lt x2 y2 ||
      (negb (bool_lt y2 x2) && (x3 <? y3)%Z))))).

(** [operator<(const PotentialBindings &x, const PotentialBindings &y)]. *)
Definition PotentialBindings_lt (x y : PotentialBindings) : bool :=
  tuple_lt (PBFullyBound x, InvolvesTypeVariables x, HasLiteralBindings x,
            size_t_neg (size (Bindings x)))
           (PBFullyBound y, InvolvesTypeVariables y, HasLiteralBindings y,
            size_t_neg (size (Bindings y))).

(** The ranking as it is described: lexicographic on the tuple
    (FullyBound, InvolvesTypeVariables, HasLiteralBindings, -|Bindings|)
    with the last component a (mathematical) negative integer. *)
Definition rankedBetter (x y : PotentialBindings) : bool :=
  tuple_lt (PBFullyBound x, InvolvesTypeVariables x, HasLiteralBindings x,
            (- Z.of_nat (length (Bindings x)))%Z)
           (PBFullyBound y, InvolvesTypeVariables y, HasLiteralBindings y,
            (- Z.of_nat (length (Bindings y)))%Z).

(** [SmallPtrSet::insert]: whether the element was new, and the set. *)
Definition setInsert (x : Ty) (s : list Ty) : bool * list Ty :=
  if existsb (Ty_eqb x) s then (false, s) else (true, x :: s).

Definition setInvolvesTypeVariables (r : PotentialBindings) :=
  mkPotentialBindings (Bindings r) (PBFullyBound r) true
                      (HasLiteralBindings r).
Definition setHasLiteralBindings (r : PotentialBindings) :=
  mkPotentialBindings (Bindings r) (PBFullyBound r)
                      (InvolvesTypeVariables r) true.
Definition pushBinding (b : Ty * bool) (r : PotentialBindings) :=
  mkPotentialBindings (Bindings r ++ [b]) (PBFullyBound r)
                      (InvolvesTypeVariables r) (HasLiteralBindings r).

(** One iteration of the loop over [tvc.Below]. *)
Definition addBelow (typeVar : TypeVariable) (arg : Constraint * Ty)
  (acc : PotentialBindings * list Ty) : PotentialBindings * list Ty :=
  let '(result, exactTypes) := acc in
  match checkTypeOfBinding typeVar (Some (snd arg)) with
  | Some type =>
      let result :=
        if hasTypeVariable type then setInvolvesTypeVariables result
        else result in
      let '(fresh, exactTypes) :=
        setInsert (getCanonicalType type) exactTypes in
      if fresh then (pushBinding (type, false) result, exactTypes)
      else (result, exactTypes)
  | None => (setInvolvesTypeVariables result, exactTypes)
  end.

(** One iteration of the loop over [tvc.Above]. *)
Definition addAbove (typeVar : TypeVariable) (arg : Constraint * Ty)
  (acc : PotentialBindings * list Ty) : PotentialBindings * list Ty :=
  let '(result, exactTypes) := acc in
  match checkTypeOfBinding typeVar (Some (snd arg)) with
  | Some type =>
      let result :=
        if hasTypeVariable type then setInvolvesTypeVariables result
        else result in
      let type :=
        if ConstraintKind_eqb (getKind (fst arg)) Conversion ||
           ConstraintKind_eqb (getKind (fst arg)) Subtype ||
           ConstraintKind_eqb (getKind (fst arg)) TrivialSubtype
        then
          match getAsTupleType type with
          | Some [elt] => if negb (Vararg elt) then EltType elt else type
          | _ => type
          end
        else type in
      let '(fresh, exactTypes) :=
        setInsert (getCanonicalType type) exactTypes in
      if fresh then (pushBinding (type, false) result, exactTypes)
      else (result, exactTypes)
  | None => (setInvolvesTypeVariables result, exactTypes)
  end.

(** One iteration of the loop over [tvc.ConformsToConstraints]. *)
Definition addLiteralDefault (constraint : Constraint)
  (acc : PotentialBindings * list Ty) : PotentialBindings * list Ty :=
  let '(result, exactTypes) := acc in
  match getDefaultType (getProtocol constraint) with
  | Some type =>
      if negb (isUnspecializedGeneric type) then
        let '(fresh, exactTypes) :=
          setInsert (getCanonicalType type) exactTypes in
        if fresh
        then (pushBinding (type, true) (setHasLiteralBindings result),
              exactTypes)
        else (result, exactTypes)
      else
        let nominal := getAnyNominal type in
        let matched :=
          existsb (fun exactType =>
                     match getAnyNominal exactType with
                     | Some exactNominal =>
                         match nominal with
                         | Some n => n =? exactNominal
                         | None => false
                         end
                     | None => false
                     end) exactTypes in
        if negb matched
        then (pushBinding (type, true) (setHasLiteralBindings result),
              snd (setInsert (getCanonicalType type) exactTypes))
        else (result, exactTypes)
  | None => (result, exactTypes)
  end.

(** [getPotentialBindings(cs, tvc)]. *)
Definition getPotentialBindings (tvc : TypeVariableConstraints)
  : PotentialBindings :=
  let result :=
    mkPotentialBindings [] (FullyBound tvc) (HasNonConcreteConstraints tvc)
                        false in
  let acc := (result, @nil Ty) in
  let acc := fold_left (fun a arg => addBelow (TypeVar tvc) arg a)
                       (Below tvc) acc in
  let acc := fold_left (fun a arg => addAbove (TypeVar tvc) arg a)
                       (Above tvc) acc in
  let acc := fold_left (fun a c => addLiteralDefault c a)
                       (ConformsToConstraints tvc) acc in
  fst acc.

(** The loop of [solveSimplified] that looks for the best type variable
    to bind: [i] is the index of the next summary, the accumulator is
    [bestTypeVarIndex] and [bestBindings]. *)
Fixpoint selectBestFrom (i : nat) (tvcs : list TypeVariableConstraints)
  (best : nat * PotentialBindings) : nat * PotentialBindings :=
  match tvcs with
  | [] => best
  | tvc :: rest =>
      let bindings := getPotentialBindings tvc in
      if negb (hasBindings bindings) then selectBestFrom (S i) rest best
      else if negb (hasBindings (snd best)) ||
              PotentialBindings_lt bindings (snd best)
           then selectBestFrom (S i) rest (i, bindings)
           else selectBestFrom (S i) rest best
  end.

Definition selectBestBindings
  (typeVarConstraints : list TypeVariableConstraints)
  : option (nat * PotentialBindings) :=
  match typeVarConstraints with
  | [] => None
  | tvc0 :: rest => Some (selectBestFrom 1 rest (0, getPotentialBindings tvc0))
  end.

(** The test of [solveSimplified] that sends the chosen variable to
    [tryTypeVariableBindings]. *)
Definition shouldTryBindings (bestBindings : PotentialBindings)
  (disjunctions : list Constraint) : bool :=
  hasBindings bestBindings &&
  (match disjunctions with [] => true | _ => false end ||
   (negb (InvolvesTypeVariables bestBindings) &&
    negb (PBFullyBound bestBindings))).

(** ** The binding search *)

Section BindingSearch.

(** The rest of the solver state, and the attempt made inside one solver
    scope: [cs.addConstraint(ConstraintKind::Bind, typeVar, type)] followed
    by the recursive [cs.solve(solutions, allowFreeTypeVariables)], whose
    result is true when there is no solution. *)
Variable St : Type.
Variable solveWithBinding : TypeVariable -> Ty -> St -> bool * St.

(** The loop over the bindings of one round. *)
Fixpoint tryBindings (typeVar : TypeVariable) (bindings : list (Ty * bool))
  (anySolved sawFirstLiteralConstraint : bool) (st : St) : bool * St :=
  match bindings with
  | [] => (anySolved, st)
  | binding :: rest =>
      let type := fst binding in
      let type :=
        if negb (canBindToLValue typeVar) then getRValueType type else type in
      if snd binding then
        if negb sawFirstLiteralConstraint && anySolved then (anySolved, st)
        else
          let type := openBindingType type in
          let '(failed, st) := solveWithBinding typeVar type st in
          tryBindings typeVar rest (anySolved || negb failed) true st
      else
        let '(failed, st) := solveWithBinding typeVar type st in
        tryBindings typeVar rest (anySolved || negb failed)
                    sawFirstLiteralConstraint st
  end.

(** "Note which bindings we already visited." *)
Definition noteVisited (bindings : list (Ty * bool)) (exploredTypes : list Ty)
  : list Ty :=
  fold_left
    (fun s binding => snd (setInsert (getCanonicalType (fst binding)) s))
    bindings exploredTypes.

(** Insertion of candidate types that are not explored yet, each with the
    given [open] flag. *)
Fixpoint addUnexplored (flag : bool) (types : list Ty)
  (acc : list (Ty * bool) * list Ty) : list (Ty * bool) * list Ty :=
  match types with
  | [] => acc
  | type :: rest =>
      let '(newBindings, exploredTypes) := acc in
      let '(fresh, exploredTypes) :=
        setInsert (getCanonicalType type) exploredTypes in
      addUnexplored flag rest
        (if fresh then newBindings ++ [(type, flag)] else newBindings,
         exploredTypes)
  end.

(** The alternative literal types of the protocols the variable must
    conform to, for those protocols that have a default type. *)
Definition literalAlternatives (tvc : TypeVariableConstraints)
  (acc : list (Ty * bool) * list Ty) : list (Ty * bool) * list Ty :=
  fold_left
    (fun a constraint =>
       let proto := getProtocol constraint in
       match getDefaultType proto with
       | None => a
       | Some _ => addUnexplored true (getAlternativeLiteralTypes proto) a
       end)
    (ConformsToConstraints tvc) acc.

(** The direct supertypes of a list of types, those that
    [checkTypeOfBinding] accepts, simplified. *)
Definition checkedSupertypes (typeVar : TypeVariable)
  (bindings : list (Ty * bool)) : list Ty :=
  flat_map
    (fun binding =>
       flat_map
         (fun supertype =>
            match checkTypeOfBinding typeVar (Some supertype) with
            | Some simpleSuper => [simpleSuper]
            | None => []
            end)
         (enumerateDirectSupertypes (fst binding)))
    bindings.

(** "Enumerate the supertypes of each of the types we tried." *)
Definition supertypeBindings (typeVar : TypeVariable)
  (bindings : list (Ty * bool)) (acc : list (Ty * bool) * list Ty)
  : list (Ty * bool) * list Ty :=
  addUnexplored false (checkedSupertypes typeVar bindings) acc.

(** What follows a round in which no binding had a solution: the new
    bindings and the explored types. *)
Definition nextBindings (tvc : TypeVariableConstraints) (tryCount : nat)
  (bindings : list (Ty * bool)) (exploredTypes : list Ty)
  : list (Ty * bool) * list Ty :=
  let typeVar := TypeVar tvc in
  let acc :=
    if tryCount =? 0
    then literalAlternatives tvc ([], noteVisited bindings exploredTypes)
    else ([], exploredTypes) in
  if (tryCount =? 0) &&
     match fst acc with [] => false | _ :: _ => true end
  then acc
  else supertypeBindings typeVar bindings acc.

(** The loop on [tryCount]. The fuel bounds the number of rounds. The
    rounds that were run are returned with the result, oldest first, each
    with the explored types on its entry. *)
Fixpoint tryRounds (fuel : nat) (tvc : TypeVariableConstraints)
  (tryCount : nat) (bindings : list (Ty * bool)) (exploredTypes : list Ty)
  (rounds : list (list (Ty * bool) * list Ty)) (st : St)
  : option (bool * St * list (list (Ty * bool) * list Ty)) :=
  match fuel with
  | O => None
  | S fuel =>
      match bindings with
      | [] => Some (true, st, rounds)
      | _ :: _ =>
          let rounds := rounds ++ [(bindings, exploredTypes)] in
          let '(anySolved, st) :=
            tryBindings (TypeVar tvc) bindings false false st in
          if anySolved then Some (false, st, rounds)
          else
            let '(newBindings, exploredTypes) :=
              nextBindings tvc tryCount bindings exploredTypes in
            match newBindings with
            | [] => Some (true, st, rounds)
            | _ :: _ =>
                tryRounds fuel tvc (S tryCount) newBindings exploredTypes
                          rounds st
            end
      end
  end.

(** [tryTypeVariableBindings(cs, depth, tvc, bindings, solutions,
    allowFreeTypeVariables)]: true if there are no solutions. *)
Definition tryTypeVariableBindings (fuel : nat)
  (tvc : TypeVariableConstraints) (bindings : list (Ty * bool)) (st : St)
  : option (bool * St * list (list (Ty * bool) * list Ty)) :=
  tryRounds fuel tvc 0 bindings [] [] st.

(** The new candidates of a round as they are described: the direct
    supertypes of every type tried in the earlier rounds, filtered by
    [checkTypeOfBinding] and deduplicated against the explored types. *)
Definition supertypesOfAllTried (typeVar : TypeVariable)
  (earlierRounds : list (list (Ty * bool))) (exploredTypes : list Ty)
  : list (Ty * bool) :=
  fst (supertypeBindings typeVar (concat earlierRounds) ([], exploredTypes)).

End BindingSearch.

End Bindings.

(** ** The solver state *)

(** Constraints in the lists of the constraint system are identified by
    their address. *)
Definition ConstraintRef := nat.
Definition ConversionRestrictionKind := nat.

(** Modelled from the spec: the score, "a lexicographic tuple of
    non-negative counters"; the type is declared outside CSSolver.cpp. *)
Definition Score := list nat.

Fixpoint Score_ltb (a b : Score) : bool :=
  match a, b with
  | x :: a', y :: b' => (x <? y) || ((x =? y) && Score_ltb a' b')
  | _, _ => false
  end.

Fixpoint Score_add (a b : Score) : Score :=
  match a, b with
  | x :: a', y :: b' => (x + y) :: Score_add a' b'
  | [], _ => b
  | _, [] => a
  end.

(** The state of a type variable: the parent in the union-find forest or
    the fixed type. *)
Inductive ParentOrFixed : Type :=
| Parent (tv : TypeVariable)
| Fixed (t : Ty).

(** Modelled from the spec: a record of the saved-bindings journal, "an
    append-only sequence of (variable, prior-state) records"
    ([SavedTypeVariableBinding], declared outside CSSolver.cpp). *)
Record SavedTypeVariableBinding : Type := mkSavedBinding {
  savedTypeVar : TypeVariable;
  savedParentOrFixed : ParentOrFixed
}.

(** One item of the resolved-overloads stack; the link to the previous
    item is the tail of the list that holds it. *)
Record ResolvedOverload : Type := mkResolvedOverload {
  Locator : nat;
  Choice : nat;
  OpenedFullType : Ty;
  ImpliedType : Ty
}.

Record SolverState : Type := mkSolverState {
  depth : nat;
  savedBindings : list SavedTypeVariableBinding;
  retiredConstraints : list ConstraintRef;
  constraintRestrictions : list (Ty * Ty * ConversionRestrictionKind);
  generatedConstraints : option nat;
  BestScore : option Score;
  NumStatesExplored : nat;
  NumSimplifiedConstraints : nat;
  NumUnsimplifiedConstraints : nat;
  NumSimplifyIterations : nat
}.

Record ConstraintSystem : Type := mkConstraintSystem {
  TypeVariables : list TypeVariable;
  typeVarImpl : TypeVariable -> ParentOrFixed;
  Constraints : list ConstraintRef;
  Worklist : list ConstraintRef;
  isActive : ConstraintRef -> bool;
  resolvedOverloadSets : list ResolvedOverload;
  CurrentScore : Score;
  failedConstraint : option ConstraintRef;
  solverState : option SolverState;
  CG : option (list ConstraintRef);
  generatedSets : nat -> list ConstraintRef
}.

Definition set_depth (v : nat) (ss : SolverState) : SolverState :=
  mkSolverState v (savedBindings ss) (retiredConstraints ss)
    (constraintRestrictions ss) (generatedConstraints ss) (BestScore ss)
    (NumStatesExplored ss) (NumSimplifiedConstraints ss)
    (NumUnsimplifiedConstraints ss) (NumSimplifyIterations ss).
Definition set_savedBindings (v : list SavedTypeVariableBinding)
  (ss : SolverState) : SolverState :=
  mkSolverState (depth ss) v (retiredConstraints ss)
    (constraintRestrictions ss) (generatedConstraints ss) (BestScore ss)
    (NumStatesExplored ss) (NumSimplifiedConstraints ss)
    (NumUnsimplifiedConstraints ss) (NumSimplifyIterations ss).
Definition set_retiredConstraints (v : list ConstraintRef)
  (ss : SolverState) : SolverState :=
  mkSolverState (depth ss) (savedBindings ss) v (constraintRestrictions
    ss) (generatedConstraints ss) (BestScore ss) (NumStatesExplored ss)
    (NumSimplifiedConstraints ss) (NumUnsimplifiedConstraints ss)
    (NumSimplifyIterations ss).
Definition set_constraintRestrictions
  (v : list (Ty * Ty * ConversionRestrictionKind))
  (ss : SolverState) : SolverState :=
  mkSolverState (depth ss) (savedBindings ss) (retiredConstraints ss) v
    (generatedConstraints ss) (BestScore ss) (NumStatesExplored ss)
    (NumSimplifiedConstraints ss) (NumUnsimplifiedConstraints ss)
    (NumSimplifyIterations ss).
Definition set_generatedConstraints (v : option nat)
  (ss : SolverState) : SolverState :=
  mkSolverState (depth ss) (savedBindings ss) (retiredConstraints ss)
    (constraintRestrictions ss) v (BestScore ss) (NumStatesExplored ss)
    (NumSimplifiedConstraints ss) (NumUnsimplifiedConstraints ss)
    (NumSimplifyIterations ss).
Definition set_BestScore (v : option Score) (ss : SolverState) : SolverState :=
  mkSolverState (depth ss) (savedBindings ss) (retiredConstraints ss)
    (constraintRestrictions ss) (generatedConstraints ss) v
    (NumStatesExplored ss) (NumSimplifiedConstraints ss)
    (NumUnsimplifiedConstraints ss) (NumSimplifyIterations ss).
Definition set_NumStatesExplored (v : nat) (ss : SolverState) : SolverState :=
  mkSolverState (depth ss) (savedBindings ss) (retiredConstraints ss)
    (constraintRestrictions ss) (generatedConstraints ss) (BestScore ss) v
    (NumSimplifiedConstraints ss) (NumUnsimplifiedConstraints ss)
    (NumSimplifyIterations ss).
Definition set_NumSimplifiedConstraints (v : nat)
  (ss : SolverState) : SolverState :=
  mkSolverState (depth ss) (savedBindings ss) (retiredConstraints ss)
    (constraintRestrictions ss) (generatedConstraints ss) (BestScore ss)
    (NumStatesExplored ss) v (NumUnsimplifiedConstraints ss)
    (NumSimplifyIterations ss).
Definition set_NumUnsimplifiedConstraints (v : nat)
  (ss : SolverState) : SolverState :=
  mkSolverState (depth ss) (savedBindings ss) (retiredConstraints ss)
    (constraintRestrictions ss) (generatedConstraints ss) (BestScore ss)
    (NumStatesExplored ss) (NumSimplifiedConstraints ss) v
    (NumSimplifyIterations ss).
Definition set_NumSimplifyIterations (v : nat)
  (ss : SolverState) : SolverState :=
  mkSolverState (depth ss) (savedBindings ss) (retiredConstraints ss)
    (constraintRestrictions ss) (generatedConstraints ss) (BestScore ss)
    (NumStatesExplored ss) (NumSimplifiedConstraints ss)
    (NumUnsimplifiedConstraints ss) v.

Definition set_TypeVariables (v : list TypeVariable)
  (cs : ConstraintSystem) : ConstraintSystem :=
  mkConstraintSystem v (typeVarImpl cs) (Constraints cs) (Worklist cs)
    (isActive cs) (resolvedOverloadSets cs) (CurrentScore cs)
    (failedConstraint cs) (solverState cs) (CG cs) (generatedSets cs).
Definition set_typeVarImpl (v : TypeVariable -> ParentOrFixed)
  (cs : ConstraintSystem) : ConstraintSystem :=
  mkConstraintSystem (TypeVariables cs) v (Constraints cs) (Worklist cs)
    (isActive cs) (resolvedOverloadSets cs) (CurrentScore cs)
    (failedConstraint cs) (solverState cs) (CG cs) (generatedSets cs).
Definition set_Constraints (v : list ConstraintRef)
  (cs : ConstraintSystem) : ConstraintSystem :=
  mkConstraintSystem (TypeVariables cs) (typeVarImpl cs) v (Worklist cs)
    (isActive cs) (resolvedOverloadSets cs) (CurrentScore cs)
    (failedConstraint cs) (solverState cs) (CG cs) (generatedSets cs).
Definition set_Worklist (v : list ConstraintRef)
  (cs : ConstraintSystem) : ConstraintSystem :=
  mkConstraintSystem (TypeVariables cs) (typeVarImpl cs) (Constraints
    cs) v (isActive cs) (resolvedOverloadSets cs) (CurrentScore cs)
    (failedConstraint cs) (solverState cs) (CG cs) (generatedSets cs).
Definition set_isActive (v : ConstraintRef -> bool)
  (cs : ConstraintSystem) : ConstraintSystem :=
  mkConstraintSystem (TypeVariables cs) (typeVarImpl cs) (Constraints
    cs) (Worklist cs) v (resolvedOverloadSets cs) (CurrentScore cs)
    (failedConstraint cs) (solverState cs) (CG cs) (generatedSets cs).
Definition set_resolvedOverloadSets (v : list ResolvedOverload)
  (cs : ConstraintSystem) : ConstraintSystem :=
  mkConstraintSystem (TypeVariables cs) (typeVarImpl cs) (Constraints
    cs) (Worklist cs) (isActive cs) v (CurrentScore cs) (failedConstraint
    cs) (solverState cs) (CG cs) (generatedSets cs).
Definition set_CurrentScore (v : Score)
  (cs : ConstraintSystem) : ConstraintSystem :=
  mkConstraintSystem (TypeVariables cs) (typeVarImpl cs) (Constraints
    cs) (Worklist cs) (isActive cs) (resolvedOverloadSets cs) v
    (failedConstraint cs) (solverState cs) (CG cs) (generatedSets cs).
Definition set_failedConstraint (v : option ConstraintRef)
  (cs : ConstraintSystem) : ConstraintSystem :=
  mkConstraintSystem (TypeVariables cs) (typeVarImpl cs) (Constraints
    cs) (Worklist cs) (isActive cs) (resolvedOverloadSets cs)
    (CurrentScore cs) v (solverState cs) (CG cs) (generatedSets cs).
Definition set_solverState (v : option SolverState)
  (cs : ConstraintSystem) : ConstraintSystem :=
  mkConstraintSystem (TypeVariables cs) (typeVarImpl cs) (Constraints
    cs) (Worklist cs) (isActive cs) (resolvedOverloadSets cs)
    (CurrentScore cs) (failedConstraint cs) v (CG cs) (generatedSets cs).
Definition set_CG (v : option (list ConstraintRef))
  (cs : ConstraintSystem) : ConstraintSystem :=
  mkConstraintSystem (TypeVariables cs) (typeVarImpl cs) (Constraints
    cs) (Worklist cs) (isActive cs) (resolvedOverloadSets cs)
    (CurrentScore cs) (failedConstraint cs) (solverState cs) v
    (generatedSets cs).
Definition set_generatedSets (v : nat -> list ConstraintRef)
  (cs : ConstraintSystem) : ConstraintSystem :=
  mkConstraintSystem (TypeVariables cs) (typeVarImpl cs) (Constraints
    cs) (Worklist cs) (isActive cs) (resolvedOverloadSets cs)
    (CurrentScore cs) (failedConstraint cs) (solverState cs) (CG cs) v.

(** ** Solver scopes *)

(** Update of a field of the solver state; [None] when there is no solver
    state, where the code dereferences a null pointer. *)
Definition updSolverState (f : SolverState -> SolverState)
  (cs : ConstraintSystem) : option ConstraintSystem :=
  match solverState cs with
  | Some ss => Some (set_solverState (Some (f ss)) cs)
  | None => None
  end.

Definition memRef (c : ConstraintRef) (s : list ConstraintRef) : bool :=
  existsb (Nat.eqb c) s.

(** The members of [ConstraintSystem::SolverScope]. The iterator
    [firstRetired] into the retired list is kept as the number of elements
    from it to the end of the list: constraints are only ever spliced in
    at the beginning of that list. The member set [generatedConstraints]
    lives in the scope object; [scopeGeneratedConstraints] is its
    address, the nesting depth of the scope. *)
Record SolverScope : Type := mkSolverScope {
  scopeResolvedOverloadSets : list ResolvedOverload;
  numTypeVariables : nat;
  numSavedBindings : nat;
  firstRetired : nat;
  numConstraintRestrictions : nat;
  oldGeneratedConstraints : option nat;
  scopeGeneratedConstraints : nat;
  PreviousScore : Score
}.

(** [SolverScope::SolverScope(ConstraintSystem &cs)]. The scope of the
    constraint graph ([CGScope]) is not part of this model. *)
Definition SolverScope_enter (cs : ConstraintSystem)
  : option (SolverScope * ConstraintSystem) :=
  match solverState cs with
  | None => None
  | Some ss =>
      let ss := set_depth (S (depth ss)) ss in
      let this := depth ss in
      let scope :=
        mkSolverScope (resolvedOverloadSets cs)
                      (length (TypeVariables cs))
                      (length (savedBindings ss))
                      (length (retiredConstraints ss))
                      (length (constraintRestrictions ss))
                      (generatedConstraints ss)
                      this
                      (CurrentScore cs) in
      let ss := set_generatedConstraints (Some this) ss in
      let ss := set_NumStatesExplored (S (NumStatesExplored ss)) ss in
      Some (scope,
            set_generatedSets
              (fun a => if a =? this then [] else generatedSets cs a)
              (set_solverState (Some ss) cs))
  end.

(** [truncate(vec, newSize)]; erasing past the end is undefined. *)
Definition truncate {A : Type} (vec : list A) (newSize : nat)
  : option (list A) :=
  if newSize <=? length vec then Some (firstn newSize vec) else None.

(** Modelled from the spec: [SavedTypeVariableBinding::restore], which
    puts the recorded prior state back on the variable (declared outside
    CSSolver.cpp). *)
Definition restore (saved : SavedTypeVariableBinding)
  (impl : TypeVariable -> ParentOrFixed) : TypeVariable -> ParentOrFixed :=
  fun tv => if tv =? savedTypeVar saved then savedParentOrFixed saved
            else impl tv.

(** [ConstraintSystem::restoreTypeVariableBindings(numBindings)]: the last
    [numBindings] records are replayed from the newest to the oldest and
    erased. *)
Definition restoreTypeVariableBindings (numBindings : nat)
  (impl : TypeVariable -> ParentOrFixed)
  (savedBindings : list SavedTypeVariableBinding)
  : (TypeVariable -> ParentOrFixed) * list SavedTypeVariableBinding :=
  let kept := length savedBindings - numBindings in
  (fold_left (fun i saved => restore saved i)
             (firstn numBindings (rev savedBindings)) impl,
   firstn kept savedBindings).

(** [SolverScope::~SolverScope()]. *)
Definition SolverScope_exit (scope : SolverScope) (cs : ConstraintSystem)
  : option ConstraintSystem :=
  match solverState cs with
  | None => None
  | Some ss =>
      let ss := set_depth (pred (depth ss)) ss in
      let cs := set_resolvedOverloadSets (scopeResolvedOverloadSets scope) cs in
      match truncate (TypeVariables cs) (numTypeVariables scope) with
      | None => None
      | Some tvs =>
          let cs := set_TypeVariables tvs cs in
          if negb (numSavedBindings scope <=? length (savedBindings ss))
          then None
          else
            let '(impl, saved) :=
              restoreTypeVariableBindings
                (length (savedBindings ss) - numSavedBindings scope)
                (typeVarImpl cs) (savedBindings ss) in
            let cs := set_typeVarImpl impl cs in
            let ss := set_savedBindings saved ss in
            if negb (firstRetired scope <=? length (retiredConstraints ss))
            then None
            else
              let n := length (retiredConstraints ss) - firstRetired scope in
              let cs :=
                set_Constraints
                  (Constraints cs ++ firstn n (retiredConstraints ss)) cs in
              let ss :=
                set_retiredConstraints (skipn n (retiredConstraints ss)) ss in
              let generated :=
                generatedSets cs (scopeGeneratedConstraints scope) in
              let cs :=
                set_Constraints
                  (filter (fun c => negb (memRef c generated))
                          (Constraints cs)) cs in
              match truncate (constraintRestrictions ss)
                             (numConstraintRestrictions scope) with
              | None => None
              | Some restrictions =>
                  let ss := set_constraintRestrictions restrictions ss in
                  let ss :=
                    set_generatedConstraints
                      (oldGeneratedConstraints scope) ss in
                  let cs := set_CurrentScore (PreviousScore scope) cs in
                  let cs := set_failedConstraint None cs in
                  Some (set_solverState (Some ss) cs)
              end
      end
  end.

(** The mutations the solver performs between the entry and the exit of
    a scope, each after the statement of the solver it stands for. *)
Inductive ScopeOp : Type :=
| OpResolveOverload (item : ResolvedOverload)
| OpAddTypeVariable (tv : TypeVariable)
| OpAssign (tv : TypeVariable) (b : ParentOrFixed)
| OpAddScore (s : Score)
| OpAddRestriction (r : Ty * Ty * ConversionRestrictionKind)
| OpRetire (c : ConstraintRef)
| OpRetireAll
| OpAddConstraint (c : ConstraintRef)
| OpGenerated (c : ConstraintRef)
| OpFail (c : ConstraintRef)
| OpRecordBestScore
| OpScope (body : list ScopeOp).

(** [solverState->generatedConstraints->insert(constraint)]: the insertion
    goes through the pointer to the set that is accumulating. *)
Definition insertGenerated (c : ConstraintRef) (cs : ConstraintSystem)
  : option ConstraintSystem :=
  match solverState cs with
  | Some ss =>
      match generatedConstraints ss with
      | Some a =>
          Some (set_generatedSets
                  (fun k => if k =? a
                            then if memRef c (generatedSets cs a)
                                 then generatedSets cs a
                                 else generatedSets cs a ++ [c]
                            else generatedSets cs k) cs)
      | None => None
      end
  | None => None
  end.

(** Removal of one constraint from an intrusive list. *)
Fixpoint removeRef (c : ConstraintRef) (l : list ConstraintRef)
  : list ConstraintRef :=
  match l with
  | [] => []
  | x :: r => if x =? c then r else x :: removeRef c r
  end.

(** One mutation.
    - [OpResolveOverload]: a new item is pushed on [resolvedOverloadSets]
      (as in [applySolution]);
    - [OpAddTypeVariable]: [TypeVariables.push_back];
    - [OpAssign]: modelled from the spec, "each mutation of a variable's
      fixed state appends to the saved-bindings journal";
    - [OpAddScore]: [CurrentScore += ...];
    - [OpAddRestriction]: [constraintRestrictions.push_back];
    - [OpRetire], [OpRetireAll]: a splice to the beginning of
      [retiredConstraints], of one constraint or of the active list (as in
      [simplify]);
    - [OpAddConstraint]: [Constraints.push_back(constraint)] together with
      the record of the constraint as generated (as for an unsolved
      alternative in [solveSimplified]);
    - [OpGenerated]: [solverState->generatedConstraints->insert] alone (as
      for a solved or failed alternative);
    - [OpFail]: [if (!failedConstraint) failedConstraint = constraint];
    - [OpRecordBestScore]: [solverState->BestScore = CurrentScore] (as in
      [finalize]);
    - [OpScope]: a nested scope around further mutations. *)
Fixpoint runOp (op : ScopeOp) (cs : ConstraintSystem)
  : option ConstraintSystem :=
  match op with
  | OpResolveOverload item =>
      Some (set_resolvedOverloadSets (item :: resolvedOverloadSets cs) cs)
  | OpAddTypeVariable tv =>
      Some (set_TypeVariables (TypeVariables cs ++ [tv]) cs)
  | OpAssign tv b =>
      match updSolverState
              (fun ss => set_savedBindings
                           (savedBindings ss ++
                            [mkSavedBinding tv (typeVarImpl cs tv)]) ss) cs with
      | Some cs =>
          Some (set_typeVarImpl
                  (fun v => if v =? tv then b else typeVarImpl cs v) cs)
      | None => None
      end
  | OpAddScore s => Some (set_CurrentScore (Score_add (CurrentScore cs) s) cs)
  | OpAddRestriction r =>
      updSolverState
        (fun ss => set_constraintRestrictions
                     (constraintRestrictions ss ++ [r]) ss) cs
  | OpRetire c =>
      if memRef c (Constraints cs) then
        match updSolverState
                (fun ss => set_retiredConstraints
                             (c :: retiredConstraints ss) ss) cs with
        | Some cs' => Some (set_Constraints (removeRef c (Constraints cs)) cs')
        | None => None
        end
      else Some cs
  | OpRetireAll =>
      match updSolverState
              (fun ss => set_retiredConstraints
                           (Constraints cs ++ retiredConstraints ss) ss) cs with
      | Some cs' => Some (set_Constraints [] cs')
      | None => None
      end
  | OpAddConstraint c =>
      match insertGenerated c cs with
      | Some cs => Some (set_Constraints (Constraints cs ++ [c]) cs)
      | None => None
      end
  | OpGenerated c => insertGenerated c cs
  | OpFail c =>
      match failedConstraint cs with
      | Some _ => Some cs
      | None => Some (set_failedConstraint (Some c) cs)
      end
  | OpRecordBestScore =>
      updSolverState (set_BestScore (Some (CurrentScore cs))) cs
  | OpScope body =>
      match SolverScope_enter cs with
      | None => None
      | Some (scope, cs) =>
          match (fix runOps (ops : list ScopeOp) (cs : ConstraintSystem)
                   : option ConstraintSystem :=
                   match ops with
                   | [] => Some cs
                   | op :: rest =>
                       match runOp op cs with
                       | Some cs => runOps rest cs
                       | None => None
                       end
                   end) body cs with
          | Some cs => SolverScope_exit scope cs
          | None => None
          end
      end
  end.

Fixpoint runOps (ops : list ScopeOp) (cs : ConstraintSystem)
  : option ConstraintSystem :=
  match ops with
  | [] => Some cs
  | op :: rest =>
      match runOp op cs with
      | Some cs => runOps rest cs
      | None => None
      end
  end.

(** The constraints recorded as generated, at any depth. *)
Fixpoint generatedBy (op : ScopeOp) : list ConstraintRef :=
  match op with
  | OpGenerated c | OpAddConstraint c => [c]
  | OpScope body => flat_map generatedBy body
  | _ => []
  end.

(** The constraints recorded as generated by the scope itself, not by a
    nested one. *)
Definition generatedHere (op : ScopeOp) : list ConstraintRef :=
  match op with
  | OpGenerated c | OpAddConstraint c => [c]
  | _ => []
  end.

(** ** Simplification *)

Inductive SolutionKind : Type := Error | Solved | Unsolved.

(** How a run of the code ends: with a result, without one within the
    given number of loop iterations, or at a dereference of the null
    solver state. *)
Inductive Outcome (A : Type) : Type :=
| Returned (a : A)
| OutOfFuel
| NullDereference.
Arguments Returned {A}.
Arguments OutOfFuel {A}.
Arguments NullDereference {A}.

(** The place where [simplify] returns in graph mode. *)
Inductive SimplifyExit : Type :=
| ExitFailed      (* a constraint failed *)
| ExitPruned      (* the score is worse than the best solution *)
| ExitDrained.    (* the worklist is empty *)

(** Modelled from the spec: [worseThanBestSolution()], "true iff a best
    score exists and currentScore is >= it under the tuple order" (declared
    outside CSSolver.cpp). *)
Definition worseThanBestSolution (cs : ConstraintSystem) : bool :=
  match solverState cs with
  | Some ss =>
      match BestScore ss with
      | Some best => negb (Score_ltb (CurrentScore cs) best)
      | None => false
      end
  | None => false
  end.

(** [constraint->setActive(false)]. *)
Definition setInactive (c : ConstraintRef) (cs : ConstraintSystem)
  : ConstraintSystem :=
  set_isActive (fun k => if k =? c then false else isActive cs k) cs.

(** "Mark all of the remaining constraints in the worklist inactive." *)
Fixpoint drainWorklist (worklist : list ConstraintRef)
  (cs : ConstraintSystem) : ConstraintSystem :=
  match worklist with
  | [] => set_Worklist [] cs
  | c :: rest => drainWorklist rest (setInactive c cs)
  end.

(** "Retire all of the constraints." *)
Definition retireAll (cs : ConstraintSystem) : ConstraintSystem :=
  match solverState cs with
  | Some ss =>
      set_Constraints []
        (set_solverState
           (Some (set_retiredConstraints
                    (Constraints cs ++ retiredConstraints ss) ss)) cs)
  | None => set_Constraints [] cs
  end.

(** Modelled from the spec: the constraint graph is kept as the list of
    the constraints it holds; [CG->removeConstraint(constraint)] takes one
    out (the graph is declared outside CSSolver.cpp). *)
Definition removeFromGraph (c : ConstraintRef) (cs : ConstraintSystem)
  : ConstraintSystem :=
  match CG cs with
  | Some g => set_CG (Some (filter (fun k => negb (k =? c)) g)) cs
  | None => cs
  end.

Definition inGraph (c : ConstraintRef) (cs : ConstraintSystem) : bool :=
  match CG cs with
  | Some g => memRef c g
  | None => false
  end.

(** [llvm::SetVector::insert]. *)
Definition setVectorInsert (c : ConstraintRef) (s : list ConstraintRef)
  : list ConstraintRef :=
  if memRef c s then s else s ++ [c].

(** "Transfer any retired constraints to the retired list." *)
Fixpoint transferRetired (active : list ConstraintRef)
  (retiredSet : list ConstraintRef) (retired : list ConstraintRef)
  : list ConstraintRef * list ConstraintRef :=
  match active with
  | [] => ([], retired)
  | c :: rest =>
      if memRef c retiredSet then transferRetired rest retiredSet (c :: retired)
      else let '(kept, retired) := transferRetired rest retiredSet retired in
           (c :: kept, retired)
  end.

Section Simplify.

(** The per-constraint simplifier and, for the mode without a constraint
    graph, [addConstraint(constraint, false, true)]; both are implemented
    outside CSSolver.cpp. *)
Variable simplifyConstraint :
  ConstraintRef -> ConstraintSystem -> SolutionKind * ConstraintSystem.
Variable addConstraint :
  ConstraintRef -> ConstraintSystem -> bool * ConstraintSystem.

(** The switch on the result of the simplifier, in graph mode. *)
Definition recordResult (constraint : ConstraintRef) (kind : SolutionKind)
  (retiredSet : list ConstraintRef) (cs : ConstraintSystem)
  : option (list ConstraintRef * ConstraintSystem) :=
  match kind with
  | Error =>
      match failedConstraint cs with
      | None => Some (retiredSet, set_failedConstraint (Some constraint) cs)
      | Some _ => Some (retiredSet, cs)
      end
  | Solved =>
      match updSolverState
              (fun ss => set_NumSimplifiedConstraints
                           (S (NumSimplifiedConstraints ss)) ss) cs with
      | Some cs =>
          Some (setVectorInsert constraint retiredSet,
                removeFromGraph constraint cs)
      | None => None
      end
  | Unsolved =>
      match updSolverState
              (fun ss => set_NumUnsimplifiedConstraints
                           (S (NumUnsimplifiedConstraints ss)) ss) cs with
      | Some cs => Some (retiredSet, cs)
      | None => None
      end
  end.

(** The worklist loop. [retiredSet] is the local set of the constraints
    retired by this call. *)
Fixpoint simplifyWorklist (fuel : nat) (retiredSet : list ConstraintRef)
  (cs : ConstraintSystem)
  : Outcome (SimplifyExit * list ConstraintRef * ConstraintSystem) :=
  match fuel with
  | O => OutOfFuel
  | S fuel =>
      match Worklist cs with
      | [] => Returned (ExitDrained, retiredSet, cs)
      | constraint :: rest =>
          let cs := set_Worklist rest cs in
          let '(kind, cs) := simplifyConstraint constraint cs in
          match recordResult constraint kind retiredSet cs with
          | None => NullDereference
          | Some (retiredSet, cs) =>
              let cs := setInactive constraint cs in
              match failedConstraint cs with
              | Some _ =>
                  let cs := drainWorklist (Worklist cs) cs in
                  Returned (ExitFailed, retiredSet, retireAll cs)
              | None =>
                  if worseThanBestSolution cs
                  then Returned (ExitPruned, retiredSet, cs)
                  else simplifyWorklist fuel retiredSet cs
              end
          end
      end
  end.

(** The local retired set and the system after [n] iterations of the
    worklist loop, none of which left it: each took a constraint from the
    worklist, simplified it without a failure being recorded and without
    the score becoming worse than the best one. *)
Fixpoint worklistIterations (n : nat) (retiredSet : list ConstraintRef)
  (cs : ConstraintSystem) : option (list ConstraintRef * ConstraintSystem) :=
  match n with
  | O => Some (retiredSet, cs)
  | S n =>
      match Worklist cs with
      | [] => None
      | constraint :: rest =>
          let cs := set_Worklist rest cs in
          let '(kind, cs) := simplifyConstraint constraint cs in
          match recordResult constraint kind retiredSet cs with
          | None => None
          | Some (retiredSet, cs) =>
              let cs := setInactive constraint cs in
              match failedConstraint cs with
              | Some _ => None
              | None =>
                  if worseThanBestSolution cs then None
                  else worklistIterations n retiredSet cs
              end
          end
      end
  end.

(** The graph mode of [simplify]: the loop, then the transfer of the
    retired constraints when the loop ran to its end. *)
Definition simplifyGraph (fuel : nat) (cs : ConstraintSystem)
  : Outcome (SimplifyExit * list ConstraintRef * ConstraintSystem) :=
  match simplifyWorklist fuel [] cs with
  | Returned (ExitDrained, retiredSet, cs) =>
      match solverState cs with
      | None =>
          Returned (ExitDrained, retiredSet,
                    set_Constraints
                      (filter (fun c => negb (memRef c retiredSet))
                              (Constraints cs)) cs)
      | Some ss =>
          let '(kept, retired) :=
            transferRetired (Constraints cs) retiredSet
                            (retiredConstraints ss) in
          Returned (ExitDrained, retiredSet,
                    set_Constraints kept
                      (set_solverState
                         (Some (set_retiredConstraints retired ss)) cs))
      end
  | other => other
  end.

(** The inner loop of the mode without a graph, over the local list
    [existingConstraints]; the result is [inl] of the state at
    [return true], or [inr] of [solvedAny] and the state. *)
Fixpoint simplifyExisting (existingConstraints : list ConstraintRef)
  (solvedAny : bool) (cs : ConstraintSystem)
  : option (ConstraintSystem + bool * ConstraintSystem) :=
  match existingConstraints with
  | [] => Some (inr (solvedAny, cs))
  | constraint :: rest =>
      let '(solved, cs) := addConstraint constraint cs in
      let counted :=
        if solved
        then option_map (fun cs => (true, cs))
               (updSolverState
                  (fun ss => set_NumSimplifiedConstraints
                               (S (NumSimplifiedConstraints ss)) ss) cs)
        else
          match failedConstraint cs with
          | None =>
              option_map (fun cs => (solvedAny, cs))
                (updSolverState
                   (fun ss => set_NumUnsimplifiedConstraints
                                (S (NumUnsimplifiedConstraints ss)) ss) cs)
          | Some _ => Some (solvedAny, cs)
          end in
      match counted with
      | None => None
      | Some (solvedAny, cs) =>
          match failedConstraint cs with
          | Some _ =>
              match solverState cs with
              | Some ss =>
                  Some (inl (set_solverState
                               (Some (set_retiredConstraints
                                        (rest ++ retiredConstraints ss) ss))
                               cs))
              | None => Some (inl cs)
              end
          | None => simplifyExisting rest solvedAny cs
          end
      end
  end.

(** The do-while loop of the mode without a graph. *)
Fixpoint simplifyFixpoint (fuel : nat) (cs : ConstraintSystem)
  : Outcome (bool * ConstraintSystem) :=
  match fuel with
  | O => OutOfFuel
  | S fuel =>
      let existingConstraints := Constraints cs in
      let cs := set_Constraints [] cs in
      match simplifyExisting existingConstraints false cs with
      | None => NullDereference
      | Some (inl cs) => Returned (true, cs)
      | Some (inr (solvedAny, cs)) =>
          match updSolverState
                  (fun ss => set_NumSimplifyIterations
                               (S (NumSimplifyIterations ss)) ss) cs with
          | None => NullDereference
          | Some cs =>
              if solvedAny then simplifyFixpoint fuel cs
              else Returned (false, cs)
          end
      end
  end.

(** The result of [simplify] at each exit of the graph mode. *)
Definition exitResult (e : SimplifyExit) : bool :=
  match e with
  | ExitFailed | ExitPruned => true
  | ExitDrained => false
  end.

(** [ConstraintSystem::simplify()]: true on failure. *)
Definition simplify (fuel : nat) (cs : ConstraintSystem)
  : Outcome (bool * ConstraintSystem) :=
  match CG cs with
  | Some _ =>
      match simplifyGraph fuel cs with
      | Returned (e, _, cs) => Returned (exitResult e, cs)
      | OutOfFuel => OutOfFuel
      | NullDereference => NullDereference
      end
  | None => simplifyFixpoint fuel cs
  end.

End Simplify.

(** ** The top-level driver *)

Section Solve.

Variable Solution : Type.

(** The recursive call of [solve], made once the solver state exists, and
    the ranking oracle [findBestSolution(solutions, minimize)]. *)
Variable solveStep :
  ConstraintSystem -> list Solution -> bool * ConstraintSystem * list Solution.
Variable findBestSolution : list Solution -> bool -> option nat.

(** [SolverState::SolverState(cs)], without the debugging switches. *)
Definition newSolverState : SolverState :=
  mkSolverState 0 [] [] [] None None 0 0 0 0.

(** "If there is more than one viable system, attempt to pick the best
    solution." An index past the end is outside the contract of the
    oracle. *)
Definition keepBest (solutions : list Solution) : option (list Solution) :=
  if 1 <? length solutions then
    match findBestSolution solutions false with
    | Some best =>
        match nth_error solutions best with
        | Some s => Some [s]
        | None => None
        end
    | None => Some solutions
    end
  else Some solutions.

(** [ConstraintSystem::solve(solutions, allowFreeTypeVariables)]: true on
    failure. *)
Definition solve (cs : ConstraintSystem) (solutions : list Solution)
  : option (bool * ConstraintSystem * list Solution) :=
  match solverState cs with
  | None =>
      let cs := set_solverState (Some newSolverState) cs in
      let '(_, cs, solutions) := solveStep cs solutions in
      match keepBest solutions with
      | Some solutions =>
          let cs := set_solverState None cs in
          Some (negb (length solutions =? 1), cs, solutions)
      | None => None
      end
  | Some _ => Some (solveStep cs solutions)
  end.

End Solve.

(** ** Invariants and instances used by the statements *)

(** The map of the classifier sends the variable of every summary to the
    index of that summary plus one. *)
Definition ClassifierWF (vec : list TypeVariableConstraints)
  (map : TypeVariable -> nat) : Prop :=
  forall i t, nth_error vec i = Some t -> map (TypeVar t) = S i.

(** A small environment: nothing is bound, every type is canonical, the
    class [NominalType 1] has the superclass [NominalType 0], a tuple of one
    field is initializable from a scalar, and protocol 0 is a literal
    protocol with the default type [NominalType 100] and the alternative
    literal type [NominalType 200]. *)
Definition exampleEnv : SemaEnv := {|
  simplifyType := fun t => t;
  getRepresentative := fun v => v;
  canBindToLValue := fun _ => false;
  getCanonicalType := fun t => t;
  mayHaveSuperclass :=
    fun t => match t with NominalType _ => true | _ => false end;
  getSuperClassOf :=
    fun t => match t with
             | NominalType 1 => Some (NominalType 0)
             | _ => None
             end;
  getFieldForScalarInit :=
    fun fields => match fields with [_] => 0%Z | _ => (-1)%Z end;
  getVarargBaseTy := fun elt => EltType elt;
  getDefaultType :=
    fun p => match p with 0 => Some (NominalType 100) | _ => None end;
  isUnspecializedGeneric := fun _ => false;
  getAnyNominal :=
    fun t => match t with NominalType d => Some d | _ => None end;
  getAlternativeLiteralTypes :=
    fun p => match p with 0 => [NominalType 200] | _ => [] end;
  openBindingType := fun t => t
|}.

(** [Int <: $0], which gives the variable 0 a summary, and a unary type
    property of the bare variable 0. *)
Definition exampleSubtype : Constraint :=
  mkConstraint 1 Subtype (NominalType 7) (Some (TypeVariableType 0)) 0 [].
Definition exampleTypeProperty : Constraint :=
  mkConstraint 2 UnaryTypeProperty (TypeVariableType 0) None 0 [].

(** A unary type property of [($0) -> Int], in which the variable 0
    occurs below a function type. *)
Definition exampleTypePropertyOfFunction : Constraint :=
  mkConstraint 3 UnaryTypeProperty
    (FunctionType (TypeVariableType 0) (NominalType 7) false) None 0 [].

(** A summary of the variable 0 whose only lower bound is the variable
    itself, which [checkTypeOfBinding] rejects. *)
Definition exampleRecursiveTVC : TypeVariableConstraints :=
  mkTVC 0 false false [] [(exampleSubtype, TypeVariableType 0)] [].

(** Two sets of bindings with the same flags: none, and one binding. *)
Definition noBindings : PotentialBindings :=
  mkPotentialBindings [] false false false.
Definition oneBinding : PotentialBindings :=
  mkPotentialBindings [(NominalType 7, false)] false false false.
Definition twoBindings : PotentialBindings :=
  mkPotentialBindings [(NominalType 7, false); (NominalType 8, false)]
                      false false false.

(** No candidate with bindings is better than [best]. *)
Definition minimalAmong (candidates : list PotentialBindings)
  (best : PotentialBindings) : Prop :=
  forall b, In b candidates -> hasBindings b = true ->
            hasBindings best = true /\ PotentialBindings_lt b best = false.

(** The variable 0 with the lower bound [NominalType 1], a class, and a
    conformance to the literal protocol 0. *)
Definition exampleConformsTo : Constraint :=
  mkConstraint 4 ConformsTo (TypeVariableType 0) None 0 [].
Definition exampleLiteralTVC : TypeVariableConstraints :=
  mkTVC 0 false false [] [(exampleSubtype, NominalType 1)]
        [exampleConformsTo].

(** A solver in which no binding has a solution, and which logs the types
    it was asked to bind. *)
Definition failingSolve (typeVar : TypeVariable) (type : Ty) (log : list Ty)
  : bool * list Ty :=
  (true, log ++ [type]).

(** A constraint system without solver state, and one about to be solved:
    type variables 0 and 1, active constraints 1, 2 and 3. *)
Definition initialSystem : ConstraintSystem :=
  mkConstraintSystem [0; 1] (fun v => Parent v) [1; 2; 3] [] (fun _ => false)
                     [] [0; 0] None None None (fun _ => []).

(** A recursive solver that finds the two solutions 3 and 5, and a ranking
    oracle that prefers the second of several solutions. *)
Definition twoSolutions (cs : ConstraintSystem) (solutions : list nat)
  : bool * ConstraintSystem * list nat :=
  (false, cs, solutions ++ [3; 5]).
Definition preferSecond (solutions : list nat) (minimize : bool)
  : option nat :=
  match solutions with
  | _ :: _ :: _ => Some 1
  | _ => None
  end.

(** The retired constraints of a system; none without solver state. *)
Definition retiredOf (cs : ConstraintSystem) : list ConstraintRef :=
  match solverState cs with
  | Some ss => retiredConstraints ss
  | None => []
  end.

(** A system in graph mode during a search: the constraints 1, 2 and 3 are
    active, in the graph and on the worklist, the current score is 0 and
    the best score 1. *)
Definition graphSystem : ConstraintSystem :=
  mkConstraintSystem [0; 1] (fun v => Parent v) [1; 2; 3] [1; 2; 3]
                     (fun _ => true) [] [0] None
                     (Some (mkSolverState 1 [] [] [] None (Some [1]) 0 0 0 0))
                     (Some [1; 2; 3]) (fun _ => []).

(** A simplifier that rejects the constraint 2 and solves the others. *)
Definition rejectSecond (c : ConstraintRef) (cs : ConstraintSystem)
  : SolutionKind * ConstraintSystem :=
  (if c =? 2 then Error else Solved, cs).

(** A simplifier that solves every constraint at the cost of one point of
    score. *)
Definition solveAtCost (c : ConstraintRef) (cs : ConstraintSystem)
  : SolutionKind * ConstraintSystem :=
  (Solved, set_CurrentScore (Score_add (CurrentScore cs) [1]) cs).

Definition neverAdd (c : ConstraintRef) (cs : ConstraintSystem)
  : bool * ConstraintSystem := (false, cs).

(** Fields of the solver state read through the system. *)
Definition depthOf (cs : ConstraintSystem) : nat :=
  match solverState cs with Some ss => depth ss | None => 0 end.
Definition savedOf (cs : ConstraintSystem) : list SavedTypeVariableBinding :=
  match solverState cs with Some ss => savedBindings ss | None => [] end.
Definition restrictionsOf (cs : ConstraintSystem)
  : list (Ty * Ty * ConversionRestrictionKind) :=
  match solverState cs with
  | Some ss => constraintRestrictions ss
  | None => []
  end.
Definition generatedPointerOf (cs : ConstraintSystem) : option nat :=
  match solverState cs with
  | Some ss => generatedConstraints ss
  | None => None
  end.

(** The replay of a suffix of the journal, newest record first. *)
Definition undo (journal : list SavedTypeVariableBinding)
  (impl : TypeVariable -> ParentOrFixed) : TypeVariable -> ParentOrFixed :=
  fold_left (fun i saved => restore saved i) (rev journal) impl.

Definition notIn (F : list ConstraintRef) (c : ConstraintRef) : bool :=
  negb (memRef c F).

(** A system inside the scope of depth [d]: the solver state exists, and
    the accumulating set of generated constraints is that of the scope. *)
Definition InScope (d : nat) (cs : ConstraintSystem) : Prop :=
  solverState cs <> None /\ depthOf cs = d /\
  generatedPointerOf cs = Some d.

(** The system [cs] was reached from [cs0] inside the scope of depth [d]
    by mutations that record as generated only constraints of [F]: the
    journaled lists have grown at their end (the retired list at its
    front), the journal undoes the bindings, the active and the newly
    retired constraints are those of [cs0] up to the constraints of [F],
    and the sets of the enclosing scopes are untouched. *)
Record Within (F : list ConstraintRef) (d : nat)
  (cs0 cs : ConstraintSystem) : Prop := mkWithin {
  within_scope : InScope d cs;
  within_typeVariables :
    exists extra, TypeVariables cs = TypeVariables cs0 ++ extra;
  within_saved :
    exists journal,
      savedOf cs = savedOf cs0 ++ journal /\
      forall v, undo journal (typeVarImpl cs) v = typeVarImpl cs0 v;
  within_retired :
    exists newlyRetired,
      retiredOf cs = newlyRetired ++ retiredOf cs0 /\
      Permutation (filter (notIn F) (Constraints cs ++ newlyRetired))
                  (filter (notIn F) (Constraints cs0)) /\
      forall c, In c (Constraints cs ++ newlyRetired) -> In c F ->
                In c (generatedSets cs d) \/ In c (Constraints cs0);
  within_restrictions :
    exists added, restrictionsOf cs = restrictionsOf cs0 ++ added;
  within_outer_sets :
    forall a, a < d -> generatedSets cs a = generatedSets cs0 a;
  within_set_grows : incl (generatedSets cs0 d) (generatedSets cs d);
  within_set_from :
    forall c, In c (generatedSets cs d) ->
              In c (generatedSets cs0 d) \/ In c F
}.

(** The size of a mutation, for inductions through nested scopes. *)
Fixpoint opSize (op : ScopeOp) : nat :=
  match op with
  | OpScope body => S (fold_right (fun o n => opSize o + n) 0 body)
  | _ => 1
  end.

(** The mutations of a failing branch: a binding, a fresh type variable,
    a retired constraint, a generated constraint, a restriction, an
    overload choice, a nested scope that retires everything, a higher
    score and a failure. *)
Definition exampleBranch : list ScopeOp :=
  [OpAssign 0 (Fixed (NominalType 7));
   OpAddTypeVariable 2;
   OpRetire 1;
   OpAddConstraint 9;
   OpAddRestriction (NominalType 7, NominalType 8, 0);
   OpResolveOverload (mkResolvedOverload 0 0 (NominalType 7) (NominalType 7));
   OpScope [OpAddConstraint 10; OpRetireAll; OpFail 10];
   OpAddScore [1];
   OpFail 2].

(** ** The component split and the combinations of [solve] *)

Section Components.

(** The constraints that mention a type variable in the constraint
    graph, [getConstraints()] of the node of the variable; the graph is
    implemented outside CSSolver.cpp. *)
Variable constraintsOf : TypeVariable -> list ConstraintRef.

(** "Construct a mapping from type variables and constraints to their
    owning component": [typeVars] and [components] are the vectors filled
    by [computeConnectedComponents], of the same size. A later assignment
    to a key replaces an earlier one. *)
Definition recordComponents (typeVars : list TypeVariable)
  (components : list nat)
  : (TypeVariable -> option nat) * (ConstraintRef -> option nat) :=
  fold_left
    (fun maps entry =>
       let '(typeVarComponent, constraintComponent) := maps in
       let '(typeVar, component) := entry in
       (fun k => if k =? typeVar then Some component else typeVarComponent k,
        fold_left
          (fun m constraint =>
             fun k => if k =? constraint then Some component else m k)
          (constraintsOf typeVar) constraintComponent))
    (combine typeVars components)
    (fun _ => None, fun _ => None).

End Components.

(** [constraintComponent[constraint]]: [operator[]] gives 0 for a
    constraint that has no entry. *)
Definition componentOf (constraintComponent : ConstraintRef -> option nat)
  (constraint : ConstraintRef) : nat :=
  match constraintComponent constraint with
  | Some component => component
  | None => 0
  end.

(** "Sort the constraints into buckets based on component number": the
    active list is emptied from its front into the array
    [constraintBuckets]; an index past the end of the array is
    undefined. *)
Fixpoint sortIntoBuckets (Constraints : list ConstraintRef)
  (constraintComponent : ConstraintRef -> option nat)
  (constraintBuckets : list (list ConstraintRef))
  : option (list (list ConstraintRef)) :=
  match Constraints with
  | [] => Some constraintBuckets
  | constraint :: rest =>
      let component := componentOf constraintComponent constraint in
      if component <? length constraintBuckets then
        sortIntoBuckets rest constraintComponent
          (updateAt component (fun bucket => bucket ++ [constraint])
                    constraintBuckets)
      else None
  end.

(** The lambda [returnAllConstraints], on an empty active list: the
    buckets are spliced back in the order of the components. *)
Definition returnAllConstraints (constraintBuckets : list (list ConstraintRef))
  : list ConstraintRef :=
  concat constraintBuckets.

(** The type variables kept for one component: those "that are not part
    of a different component". *)
Definition componentTypeVariables (allTypeVariables : list TypeVariable)
  (typeVarComponent : TypeVariable -> option nat) (component : nat)
  : list TypeVariable :=
  filter (fun typeVar =>
            match typeVarComponent typeVar with
            | Some known => known =? component
            | None => true
            end)
         allTypeVariables.

(** "Zero out the indices from here to the end." *)
Fixpoint zeroFrom (i : nat) (indices : list nat) : list nat :=
  match indices, i with
  | [], _ => []
  | _ :: rest, O => 0 :: zeroFrom 0 rest
  | x :: rest, S j => x :: zeroFrom j rest
  end.

(** "Find the next combination": the loop on [n], from [numComponents]
    down; [sizes] holds [partialSolutions[i].size()]. The result is the
    flag [done] and the indices. *)
Fixpoint nextCombination (n : nat) (sizes indices : list nat)
  : bool * list nat :=
  match n with
  | O => (false, indices)
  | S m =>
      let indices := updateAt m S indices in
      if nth m indices 0 <? nth m sizes 0 then (false, indices)
      else if n =? 1 then (true, indices)
      else nextCombination m sizes (zeroFrom m indices)
  end.

(** The do-while loop that produces the combinations of partial
    solutions: the index vectors at which a combination is applied, in
    the order of the loop. The fuel bounds the number of iterations. *)
Fixpoint combinations (fuel : nat) (sizes indices : list nat)
  : option (list (list nat)) :=
  match fuel with
  | O => None
  | S fuel =>
      let '(done, next) := nextCombination (length sizes) sizes indices in
      if done then Some [indices]
      else option_map (cons indices) (combinations fuel sizes next)
  end.

(** The value of an index vector in the mixed radix of the sizes, the
    last index being the least significant. *)
Fixpoint combinationNumber (sizes indices : list nat) : nat :=
  match sizes, indices with
  | s :: sizes', i :: indices' =>
      i * fold_right Nat.mul 1 sizes' + combinationNumber sizes' indices'
  | _, _ => 0
  end.

(** ** The choice of a disjunction in [solveSimplified] *)

(** The loop over the contenders, from the second disjunction on. *)
Fixpoint pickSmaller (contenders : list Constraint) (disjunction : Constraint)
  (bestSize : nat) : Constraint :=
  match contenders with
  | [] => disjunction
  | contender :: rest =>
      let newSize := length (getNestedConstraints contender) in
      if newSize <? bestSize then
        if newSize =? 2 then contender
        else pickSmaller rest contender newSize
      else pickSmaller rest disjunction bestSize
  end.

(** "Pick the smallest disjunction." There is a first disjunction where
    the code gets here. *)
Definition pickDisjunction (disjunctions : list Constraint)
  : option Constraint :=
  match disjunctions with
  | [] => None
  | disjunction :: rest =>
      let bestSize := length (getNestedConstraints disjunction) in
      if 2 <? bestSize then Some (pickSmaller rest disjunction bestSize)
      else Some disjunction
  end.

(** The successor of an index vector among the vectors below the sizes,
    in lexicographic order; [None] after the last one. *)
Fixpoint successor (sizes indices : list nat) : option (list nat) :=
  match sizes, indices with
  | s :: sizes', i :: indices' =>
      match successor sizes' indices' with
      | Some next => Some (i :: next)
      | None =>
          if S i <? s then Some (S i :: repeat 0 (length indices'))
          else None
      end
  | _, _ => None
  end.

(** Every index is below the size of its component. *)
Definition validIndices (sizes indices : list nat) : Prop :=
  Forall2 (fun i s => i < s) indices sizes.

(** The tuple that [operator<] compares. *)
Definition rankOf (x : PotentialBindings) : bool * bool * bool * Z :=
  (PBFullyBound x, InvolvesTypeVariables x, HasLiteralBindings x,
   size_t_neg (size (Bindings x))).

(** The updates that the classifier makes to a summary. *)
Inductive SummaryUpdate
  : (TypeVariableConstraints -> TypeVariableConstraints) -> Prop :=
| UpdateFullyBound : SummaryUpdate setFullyBound
| UpdateAbove (x : Constraint * Ty) : SummaryUpdate (pushAbove x)
| UpdateBelow (x : Constraint * Ty) : SummaryUpdate (pushBelow x)
| UpdateConformsTo (c : Constraint) : SummaryUpdate (pushConformsTo c)
| UpdateNonConcrete : SummaryUpdate setHasNonConcreteConstraints.

(** A property of a summary that no update of the classifier undoes. *)
Definition Persistent (Q : TypeVariableConstraints -> Prop) : Prop :=
  forall f t, SummaryUpdate f -> Q t -> Q (f t).

(** Some summary of the vector is that of the variable [r] and has the
    property [Q]. *)
Definition hasSummary (Q : TypeVariableConstraints -> Prop) (r : TypeVariable)
  (vec : list TypeVariableConstraints) : Prop :=
  exists t, In t vec /\ TypeVar t = r /\ Q t.

(** The entries of the map of the classifier point at summaries of their
    variables. *)
Definition ClassifierMapOK (vec : list TypeVariableConstraints)
  (map : TypeVariable -> nat) : Prop :=
  forall tv k, map tv = S k ->
               exists t, nth_error vec k = Some t /\ TypeVar t = tv.

(** ** Bounds of a summary, and further instances *)

(** The relational kinds for which the classifier records bounds. *)
Definition isBoundKind (k : ConstraintKind) : bool :=
  match k with
  | Bind | Equal | TrivialSubtype | Subtype | Conversion => true
  | _ => false
  end.

Section BoundFlags.
Context {env : SemaEnv}.

(** What a bound contributes to [InvolvesTypeVariables]: it is rejected
    by [checkTypeOfBinding], or the type that comes back has a type
    variable. *)
Definition boundInvolvesTypeVariables (typeVar : TypeVariable)
  (arg : Constraint * Ty) : bool :=
  match checkTypeOfBinding typeVar (Some (snd arg)) with
  | Some type => hasTypeVariable type
  | None => true
  end.

(** The candidate that a bound stands for: the checked type, or for an
    upper bound of a subtype or conversion constraint the element of a
    checked tuple type of one element that is not variadic. *)
Definition candidateOfBound (typeVar : TypeVariable)
  (arg : Constraint * Ty) (ty : Ty) : Prop :=
  exists type,
    checkTypeOfBinding typeVar (Some (snd arg)) = Some type /\
    (ty = type \/
     exists elt, getAsTupleType type = Some [elt] /\ Vararg elt = false /\
                 ty = EltType elt).

End BoundFlags.

(** A simplifier that solves the constraint 1 and leaves the others
    unsolved. *)
Definition solveFirst (c : ConstraintRef) (cs : ConstraintSystem)
  : SolutionKind * ConstraintSystem :=
  (if c =? 1 then Solved else Unsolved, cs).

(** The variable 1 with the single lower bound [NominalType 7]. *)
Definition examplePlainTVC : TypeVariableConstraints :=
  mkTVC 1 false false [] [(exampleSubtype, NominalType 7)] [].

(** [($0) -> Int] applied to give [$1], and a value member of [Int] of
    type [$1]. *)
Definition exampleApplicable : Constraint :=
  mkConstraint 5 ApplicableFunction
    (FunctionType (TypeVariableType 0) (NominalType 7) false)
    (Some (TypeVariableType 1)) 0 [].
Definition exampleMember : Constraint :=
  mkConstraint 6 ValueMember (NominalType 7) (Some (TypeVariableType 1)) 0 [].

(** A solver in which every binding has a solution, and which logs the
    types it was asked to bind. *)
Definition succeedingSolve (typeVar : TypeVariable) (type : Ty)
  (log : list Ty) : bool * list Ty :=
  (false, log ++ [type]).

(** The place of the disjunction that the search ends on, in a list
    [pre ++ chosen :: post] of disjunctions: [chosen] has fewer
    alternatives than every disjunction before it; the search did not end
    before it (the first disjunction has more than two alternatives, and
    no disjunction before [chosen] with fewer alternatives than all the
    ones before itself has exactly two); and it ends there, because
    [chosen] is the first disjunction and has at most two alternatives, or
    has exactly two, or no later disjunction has fewer alternatives. *)
Definition pickedAt (pre : list Constraint) (chosen : Constraint)
  (post : list Constraint) : Prop :=
  (forall e, In e pre ->
     length (getNestedConstraints chosen)
       < length (getNestedConstraints e)) /\
  (forall first rest, pre = first :: rest ->
     2 < length (getNestedConstraints first)) /\
  (forall p1 d p2, pre = p1 ++ d :: p2 ->
     (forall e, In e p1 ->
        length (getNestedConstraints d) < length (getNestedConstraints e)) ->
     length (getNestedConstraints d) <> 2) /\
  ((pre = [] /\ length (getNestedConstraints chosen) <= 2) \/
   length (getNestedConstraints chosen) = 2 \/
   (forall e, In e post ->
      length (getNestedConstraints chosen)
        <= length (getNestedConstraints e))).

(** * Properties *)

Lemma Ty_eqb_eq (a b : Ty) : Ty_eqb a b = true <-> a = b.
Proof. unfold Ty_eqb. destruct (Ty_eq_dec a b); split; congruence. Qed.

Lemma Ty_eqb_refl (a : Ty) : Ty_eqb a a = true.
Proof. now apply Ty_eqb_eq. Qed.

Lemma memRef_In (c : ConstraintRef) (s : list ConstraintRef) :
  memRef c s = true <-> In c s.
Proof.
  unfold memRef. rewrite existsb_exists. split.
  - intros (x & Hx & E). apply Nat.eqb_eq in E. now subst.
  - intros H. exists c. split; [assumption | apply Nat.eqb_refl].
Qed.

Lemma memRef_false (c : ConstraintRef) (s : list ConstraintRef) :
  memRef c s = false <-> ~ In c s.
Proof.
  rewrite <- memRef_In. destruct (memRef c s); split; congruence.
Qed.

(** ** Binding checks and direct supertypes *)

Section BindingProperties.
Context {env : SemaEnv}.

Lemma checkTypeOfBinding_null (v : TypeVariable) :
  checkTypeOfBinding v None = None.
Proof. reflexivity. Qed.

(** C4. For a type variable [v] and a candidate type [t],
    [checkTypeOfBinding] returns [None] exactly when the simplified [t]
    references [v] among its type variables or the rvalue of the simplified
    [t] is a bare type variable; in every other case it returns the
    simplified [t]. *)
Theorem checkTypeOfBinding_spec (v : TypeVariable) (t : Ty) :
  (checkTypeOfBinding v (Some t) = None <->
   In v (getTypeVariables (simplifyType t)) \/
   isTypeVariable (getRValueType (simplifyType t)) = true) /\
  (checkTypeOfBinding v (Some t) = None \/
   checkTypeOfBinding v (Some t) = Some (simplifyType t)).
Proof.
  unfold checkTypeOfBinding.
  destruct (count_occ Nat.eq_dec (getTypeVariables (simplifyType t)) v =? 0)
    eqn:Hc; cbn [negb].
  - apply Nat.eqb_eq in Hc. apply count_occ_not_In in Hc.
    destruct (isTypeVariable (getRValueType (simplifyType t))) eqn:Hv.
    + split; [split; auto | auto].
    + split; [|auto]. split; [discriminate|].
      intros [H|H]; [contradiction | discriminate].
  - apply Nat.eqb_neq in Hc.
    split; [|auto]. split; [|reflexivity]. intros _. left.
    destruct (in_dec Nat.eq_dec v (getTypeVariables (simplifyType t)))
      as [Hin|Hn]; [assumption|].
    apply (count_occ_not_In Nat.eq_dec) in Hn. contradiction.
Qed.

Lemma isEmptyIdentifier_spec (n : Identifier) :
  isEmptyIdentifier n = true <-> n = EmptyString.
Proof. destruct n; cbn; split; congruence. Qed.

Lemma enumerateDirectSupertypes_parts (t : Ty) :
  enumerateDirectSupertypes t =
  scalarInitSupertype t ++ autoClosureSupertype t ++
  superclassSupertype t ++ lvalueSupertype t.
Proof.
  unfold enumerateDirectSupertypes, superclassSupertype, scalarInitSupertype,
    autoClosureSupertype, lvalueSupertype.
  destruct t as [v|d|fields|i r ac|o q]; cbn; unfold TupleTypeElt in *;
    try (destruct (Z.leb_spec 0 (getFieldForScalarInit fields));
         destruct (Z.ltb_spec (getFieldForScalarInit fields) 0);
         try lia);
    repeat match goal with
           | |- context [Name ?e] => destruct (Name e); cbn
           | |- context [match ?x with _ => _ end] => destruct x; cbn
           end;
    rewrite ?app_nil_r; reflexivity.
Qed.

Lemma scalarInitSupertype_In (t s : Ty) :
  In s (scalarInitSupertype t) <->
  exists fields elt,
    t = TupleType fields /\
    (0 <= getFieldForScalarInit fields)%Z /\
    nth_error fields (Z.to_nat (getFieldForScalarInit fields)) = Some elt /\
    ((Vararg elt = true /\ s = getVarargBaseTy elt) \/
     (Vararg elt = false /\ Name elt <> EmptyString /\ s = EltType elt)).
Proof.
  split.
  - destruct t as [v|d|fields|i r ac|o q]; cbn; try contradiction.
    destruct (Z.ltb_spec (getFieldForScalarInit fields) 0);
      [contradiction|].
    destruct (nth_error fields _) as [elt|] eqn:Hn; [|contradiction].
    intros Hin. exists fields, elt.
    repeat split; try assumption.
    destruct (Vararg elt) eqn:Hv.
    + destruct Hin as [<-|[]]. left; auto.
    + destruct (Name elt) eqn:Hname; [contradiction|].
      destruct Hin as [<-|[]]. right. repeat split. congruence.
  - intros (fields & elt & -> & Hidx & Hn & Hcase). cbn.
    destruct (Z.ltb_spec (getFieldForScalarInit fields) 0); [lia|].
    rewrite Hn.
    destruct Hcase as [[Hv ->]|(Hv & Hname & ->)]; rewrite Hv.
    + now left.
    + destruct (Name elt); [congruence | now left].
Qed.

(** C8. [enumerateDirectSupertypes] yields exactly, in this order: for a
    tuple with a field initializable from a scalar, the vararg base type of
    a vararg field, the element type of a labelled field and nothing for an
    unlabelled one; the result type of an auto-closure function type; the
    superclass when the type may have one and one exists; the object type
    of an l-value with implicit qualifiers. *)
Theorem enumerateDirectSupertypes_exact (t : Ty) :
  enumerateDirectSupertypes t =
    scalarInitSupertype t ++ autoClosureSupertype t ++
    superclassSupertype t ++ lvalueSupertype t /\
  forall s : Ty,
    In s (enumerateDirectSupertypes t) <->
    (exists fields elt,
        t = TupleType fields /\
        (0 <= getFieldForScalarInit fields)%Z /\
        nth_error fields (Z.to_nat (getFieldForScalarInit fields))
          = Some elt /\
        ((Vararg elt = true /\ s = getVarargBaseTy elt) \/
         (Vararg elt = false /\ Name elt <> EmptyString /\
          s = EltType elt))) \/
    (exists input, t = FunctionType input s true) \/
    (mayHaveSuperclass t = true /\ getSuperClassOf t = Some s) \/
    t = LValueType s true.
Proof.
  split; [apply enumerateDirectSupertypes_parts|].
  intros s. rewrite enumerateDirectSupertypes_parts.
  rewrite !in_app_iff, scalarInitSupertype_In.
  assert (Hf : In s (autoClosureSupertype t) <->
               exists input, t = FunctionType input s true).
  { destruct t as [v|d|fields|i r [|]|o q]; cbn;
      (split; [try contradiction | intros (x & Hx); try discriminate]).
    - intros [<-|[]]. now exists i.
    - inversion Hx. now left. }
  assert (Hs : In s (superclassSupertype t) <->
               mayHaveSuperclass t = true /\ getSuperClassOf t = Some s).
  { unfold superclassSupertype.
    destruct (mayHaveSuperclass t); [destruct (getSuperClassOf t)|]; cbn.
    - split; [intros [<-|[]]; auto | intros [_ E]; left; congruence].
    - split; [contradiction | intros [_ E]; discriminate].
    - split; [contradiction | intros [E _]; discriminate]. }
  assert (Hl : In s (lvalueSupertype t) <-> t = LValueType s true).
  { destruct t as [v|d|fields|i r ac|o [|]]; cbn;
      (split; [try contradiction | try discriminate]).
    - intros [<-|[]]. reflexivity.
    - intros Hx. inversion Hx. now left. }
  rewrite Hf, Hs, Hl. reflexivity.
Qed.

End BindingProperties.

(** ** Potential bindings *)

Section FoldLemmas.
Variables (A B : Type) (f : A -> B -> A) (P : A -> Prop).
Hypothesis P_stable : forall a x, P a -> P (f a x).

Lemma fold_left_stable (l : list B) (a : A) :
  P a -> P (fold_left f l a).
Proof.
  revert a. induction l as [|x l IH]; intros a Ha; cbn; auto.
Qed.

Lemma fold_left_reaches (l : list B) (a : A) (x : B) :
  In x l -> (forall a', P (f a' x)) -> P (fold_left f l a).
Proof.
  revert a. induction l as [|y l IH]; intros a Hin Hx; [contradiction|].
  cbn. destruct Hin as [->|Hin].
  - apply fold_left_stable, Hx.
  - now apply IH.
Qed.
End FoldLemmas.

Section PotentialBindingsProperties.
Context {env : SemaEnv}.


Lemma addBelow_involves v arg acc :
  InvolvesTypeVariables (fst acc) = true ->
  InvolvesTypeVariables (fst (addBelow v arg acc)) = true.
Proof.
  unfold addBelow. destruct acc as [r ex]. cbn [fst]. intros H.
  destruct (checkTypeOfBinding v (Some (snd arg))) as [ty|]; [|reflexivity].
  destruct (hasTypeVariable ty); destruct (setInsert _ ex) as [[|] ex'];
    cbn; auto.
Qed.

Lemma addAbove_involves v arg acc :
  InvolvesTypeVariables (fst acc) = true ->
  InvolvesTypeVariables (fst (addAbove v arg acc)) = true.
Proof.
  unfold addAbove. destruct acc as [r ex]. cbn [fst]. intros H.
  destruct (checkTypeOfBinding v (Some (snd arg))) as [ty|]; [|reflexivity].
  destruct (hasTypeVariable ty); destruct (setInsert _ ex) as [[|] ex'];
    cbn; auto.
Qed.

Lemma addLiteralDefault_involves c acc :
  InvolvesTypeVariables (fst acc) = true ->
  InvolvesTypeVariables (fst (addLiteralDefault c acc)) = true.
Proof.
  unfold addLiteralDefault. destruct acc as [r ex]. cbn [fst]. intros H.
  destruct (getDefaultType (getProtocol c)) as [ty|]; [|assumption].
  destruct (isUnspecializedGeneric ty); cbn.
  - destruct (existsb _ ex); cbn; assumption.
  - destruct (setInsert _ ex) as [[|] ex']; cbn; assumption.
Qed.

Lemma addBelow_rejected v arg acc :
  checkTypeOfBinding v (Some (snd arg)) = None ->
  InvolvesTypeVariables (fst (addBelow v arg acc)) = true.
Proof.
  unfold addBelow. destruct acc as [r ex]. now intros ->.
Qed.

Lemma addAbove_rejected v arg acc :
  checkTypeOfBinding v (Some (snd arg)) = None ->
  InvolvesTypeVariables (fst (addAbove v arg acc)) = true.
Proof.
  unfold addAbove. destruct acc as [r ex]. now intros ->.
Qed.

(** C10. Whenever a lower-bound or an upper-bound candidate type of the
    summary is rejected by [checkTypeOfBinding], the result of
    [getPotentialBindings] has [InvolvesTypeVariables] set. *)
Theorem getPotentialBindings_rejected_involves
  (tvc : TypeVariableConstraints) (arg : Constraint * Ty) :
  In arg (Below tvc ++ Above tvc) ->
  checkTypeOfBinding (TypeVar tvc) (Some (snd arg)) = None ->
  InvolvesTypeVariables (getPotentialBindings tvc) = true.
Proof.
  intros Hin Hrej. unfold getPotentialBindings.
  set (P := fun acc : PotentialBindings * list Ty =>
              InvolvesTypeVariables (fst acc) = true).
  apply (fold_left_stable _ _ _ P).
  { intros a x. apply addLiteralDefault_involves. }
  apply in_app_or in Hin. destruct Hin as [Hin|Hin].
  - apply (fold_left_stable _ _ _ P).
    { intros a x. apply addAbove_involves. }
    apply (fold_left_reaches _ _ _ P) with (x := arg); auto.
    + intros a x. apply addBelow_involves.
    + intros a. now apply addBelow_rejected.
  - apply (fold_left_reaches _ _ _ P) with (x := arg); auto.
    + intros a x. apply addAbove_involves.
    + intros a. now apply addAbove_rejected.
Qed.

End PotentialBindingsProperties.

(** ** The classifier *)

Lemma nth_error_updateAt {A : Type} (f : A -> A) (l : list A) (i j : nat) :
  nth_error (updateAt i f l) j =
  if j =? i then option_map f (nth_error l j) else nth_error l j.
Proof.
  revert i j. induction l as [|x l IH]; intros i j.
  - destruct i, j; cbn; try reflexivity; destruct (j =? i); reflexivity.
  - destruct i, j; cbn; try reflexivity. apply IH.
Qed.

Section ClassifierProperties.
Context {env : SemaEnv}.

Lemma getTVC_referenced tv f st :
  referencedTypeVars (getTVC tv f st) = referencedTypeVars st.
Proof. unfold getTVC. destruct (_ =? 0); reflexivity. Qed.

Lemma getTVC_WF tv f st :
  (forall t, TypeVar (f t) = TypeVar t) ->
  ClassifierWF (typeVarConstraints st) (typeVarConstraintsMap st) ->
  ClassifierWF (typeVarConstraints (getTVC tv f st))
               (typeVarConstraintsMap (getTVC tv f st)).
Proof.
  intros Hf WF. unfold getTVC.
  destruct (typeVarConstraintsMap st (getRepresentative tv) =? 0) eqn:E;
    cbn; intros i t; rewrite nth_error_updateAt.
  - apply Nat.eqb_eq in E. rewrite length_app. cbn [length].
    replace (length (typeVarConstraints st) + 1 - 1)
      with (length (typeVarConstraints st)) by lia.
    destruct (Nat.eqb_spec i (length (typeVarConstraints st))) as [->|Hne].
    + rewrite nth_error_app2, Nat.sub_diag by lia. cbn.
      intros [= <-]. rewrite Hf. cbn. rewrite Nat.eqb_refl. lia.
    + intros Hn.
      assert (Hlt : i < length (typeVarConstraints st)).
      { assert (Hs : nth_error (typeVarConstraints st ++
                                [newTVC (getRepresentative tv)]) i <> None)
          by congruence.
        apply nth_error_Some in Hs. rewrite length_app in Hs.
        cbn in Hs. lia. }
      rewrite nth_error_app1 in Hn by assumption.
      pose proof (WF _ _ Hn) as Hm.
      destruct (Nat.eqb_spec (TypeVar t) (getRepresentative tv)) as [Eq|_];
        [rewrite Eq in Hm; lia | assumption].
  - destruct (i =? _).
    + destruct (nth_error (typeVarConstraints st) i) as [t0|] eqn:Hn;
        [|discriminate].
      cbn. intros [= <-]. rewrite Hf. now apply WF.
    + apply WF.
Qed.

Lemma fold_getTVC_WF f tvs st :
  (forall t, TypeVar (f t) = TypeVar t) ->
  ClassifierWF (typeVarConstraints st) (typeVarConstraintsMap st) ->
  let st' := fold_left (fun s tv => getTVC tv f s) tvs st in
  ClassifierWF (typeVarConstraints st') (typeVarConstraintsMap st') /\
  referencedTypeVars st' = referencedTypeVars st.
Proof.
  intros Hf. revert st. induction tvs as [|tv tvs IH]; intros st WF; cbn.
  - auto.
  - destruct (IH (getTVC tv f st) (getTVC_WF tv f st Hf WF)) as [H1 H2].
    split; [exact H1|]. cbn in H2. rewrite H2. apply getTVC_referenced.
Qed.

(** One constraint keeps the invariant of the map and only adds to the
    referenced type variables. *)
Lemma classifyConstraint_inv c st st' :
  classifyConstraint c st = Some st' ->
  ClassifierWF (typeVarConstraints st) (typeVarConstraintsMap st) ->
  ClassifierWF (typeVarConstraints st') (typeVarConstraintsMap st') /\
  incl (referencedTypeVars st) (referencedTypeVars st').
Proof.
  intros H WF. unfold classifyConstraint in H.
  destruct (getClassification c).
  - destruct (_ || _).
    + destruct (simplifyType (getFirstType c)); inversion H; subst;
        try (split; [assumption | apply incl_refl]).
      split; [now apply getTVC_WF|]. rewrite getTVC_referenced.
      apply incl_refl.
    + destruct (getSecondType c) as [second0|]; [|discriminate].
      destruct (ConstraintKind_eqb (getKind c) ApplicableFunction).
      * inversion H; subst; clear H. cbn.
        destruct (fold_getTVC_WF setFullyBound
                    (getTypeVariables (simplifyType (getFirstType c))) st)
          as [W R]; auto.
        cbn in W, R. split; [exact W|]. rewrite R. now apply incl_appl.
      * remember (match getAsTypeVariable (simplifyType (getFirstType c))
                  with
                  | Some tv =>
                      getTVC tv (pushAbove (c, simplifyType second0)) st
                  | None => addReferenced
                              (getTypeVariables
                                 (simplifyType (getFirstType c))) st
                  end) as st1 eqn:E1.
        assert (H1 : ClassifierWF (typeVarConstraints st1)
                                  (typeVarConstraintsMap st1) /\
                     incl (referencedTypeVars st) (referencedTypeVars st1)).
        { rewrite E1. destruct (getAsTypeVariable _).
          - split; [now apply getTVC_WF|]. rewrite getTVC_referenced.
            apply incl_refl.
          - split; [assumption|]. cbn. now apply incl_appl. }
        clear E1. destruct H1 as [W1 R1].
        remember (match getAsTypeVariable (simplifyType second0) with
                  | Some tv =>
                      getTVC tv
                        (pushBelow (c, simplifyType (getFirstType c))) st1
                  | None => addReferenced
                              (getTypeVariables (simplifyType second0)) st1
                  end) as st2 eqn:E2.
        assert (H2 : ClassifierWF (typeVarConstraints st2)
                                  (typeVarConstraintsMap st2) /\
                     incl (referencedTypeVars st1) (referencedTypeVars st2)).
        { rewrite E2. destruct (getAsTypeVariable (simplifyType second0)).
          - split; [now apply getTVC_WF|]. rewrite getTVC_referenced.
            apply incl_refl.
          - split; [assumption|]. cbn. now apply incl_appl. }
        clear E2. destruct H2 as [W2 R2].
        assert (Hst : st' = st2 \/ exists l, st' = addReferenced l st2).
        { destruct (getAsTypeVariable (simplifyType (getFirstType c)));
            destruct (getAsTypeVariable (simplifyType second0));
            inversion H; eauto. }
        destruct Hst as [->|[l ->]]; cbn; (split; [assumption|]).
        -- eapply incl_tran; eassumption.
        -- apply incl_appl. eapply incl_tran; eassumption.
  - destruct (negb _); inversion H; subst; cbn;
      (split; [assumption|]); [now apply incl_appl | apply incl_refl].
  - destruct (getSecondType c) as [second0|]; [|discriminate].
    destruct (negb _); inversion H; subst; clear H.
    + destruct (fold_getTVC_WF setFullyBound
                  (getTypeVariables (simplifyType second0)) st) as [W R];
        auto.
      cbn in W, R. split; [exact W|]. rewrite R. apply incl_refl.
    + cbn. split; [assumption | now apply incl_appl].
  - discriminate.
  - inversion H; subst; cbn. split; [assumption|]. now apply incl_appl.
Qed.

Lemma classifyConstraints_inv cs st st' :
  classifyConstraints cs st = Some st' ->
  ClassifierWF (typeVarConstraints st) (typeVarConstraintsMap st) ->
  ClassifierWF (typeVarConstraints st') (typeVarConstraintsMap st') /\
  incl (referencedTypeVars st) (referencedTypeVars st') /\
  forall c, In c cs ->
    getClassification c = TypeProperty ->
    isTypeVariable (simplifyType (getFirstType c)) = false ->
    incl (getTypeVariables (simplifyType (getFirstType c)))
         (referencedTypeVars st').
Proof.
  revert st. induction cs as [|c0 cs IH]; intros st H WF; cbn in H.
  - inversion H; subst. repeat split; auto using incl_refl.
    intros c [].
  - destruct (classifyConstraint c0 st) as [st1|] eqn:E; [|discriminate].
    destruct (classifyConstraint_inv _ _ _ E WF) as [W1 R1].
    destruct (IH _ H W1) as (W2 & R2 & T2).
    split; [assumption|]. split; [eapply incl_tran; eassumption|].
    intros c [->|Hin] Hcl Hv; [|now apply T2].
    unfold classifyConstraint in E. rewrite Hcl, Hv in E. cbn in E.
    inversion E; subst. cbn in R2.
    eapply incl_tran; [|exact R2]. now apply incl_appr.
Qed.

Lemma markReferenced_nth referenced seen map vec i s :
  nth_error (markReferenced referenced seen map vec) i = Some s ->
  exists s0, nth_error vec i = Some s0 /\ TypeVar s = TypeVar s0 /\
             (HasNonConcreteConstraints s0 = true ->
              HasNonConcreteConstraints s = true).
Proof.
  revert seen vec. induction referenced as [|tv rest IH]; intros seen vec H;
    cbn in H.
  - eauto.
  - destruct (existsb (Nat.eqb tv) seen); [now apply (IH seen)|].
    destruct (map (getRepresentative tv) =? 0); [now apply (IH (tv :: seen))|].
    apply IH in H. destruct H as (s1 & Hn & Htv & Hfl).
    rewrite nth_error_updateAt in Hn.
    destruct (i =? _).
    + destruct (nth_error vec i) as [s0|]; [|discriminate].
      cbn in Hn. inversion Hn; subst. exists s0. repeat split; auto.
    + exists s1. auto.
Qed.

Lemma markReferenced_marks referenced seen map vec tv i s :
  (forall x j s0, In x seen -> map (getRepresentative x) = S j ->
                  nth_error vec j = Some s0 ->
                  HasNonConcreteConstraints s0 = true) ->
  In tv (referenced ++ seen) ->
  map (getRepresentative tv) = S i ->
  nth_error (markReferenced referenced seen map vec) i = Some s ->
  HasNonConcreteConstraints s = true.
Proof.
  revert seen vec. induction referenced as [|x rest IH];
    intros seen vec Hseen Hin Hmap Hn; cbn in *.
  - eapply Hseen; eauto.
  - assert (Hin' : forall seen', incl (x :: seen) seen' ->
                                 In tv (rest ++ seen')).
    { intros seen' Hincl. apply in_or_app.
      destruct Hin as [->|Hin]; [right; apply Hincl; now left|].
      apply in_app_or in Hin. destruct Hin; [now left|].
      right. apply Hincl. now right. }
    destruct (existsb (Nat.eqb x) seen) eqn:Ex.
    + apply (IH seen vec); auto.
      apply Hin'. intros y [<-|Hy]; [|assumption].
      apply existsb_exists in Ex. destruct Ex as (z & Hz & E).
      apply Nat.eqb_eq in E. now subst.
    + destruct (map (getRepresentative x) =? 0) eqn:E0.
      * apply (IH (x :: seen) vec); auto using incl_refl.
        intros y j s0 [<-|Hy] Hm; [|now eapply Hseen; eauto].
        apply Nat.eqb_eq in E0. congruence.
      * apply (IH (x :: seen)
                  (updateAt (map (getRepresentative x) - 1)
                            setHasNonConcreteConstraints vec));
          auto using incl_refl.
        intros y j s0 Hy Hm. rewrite nth_error_updateAt.
        destruct (Nat.eqb_spec j (map (getRepresentative x) - 1)) as [->|Hne].
        -- destruct (nth_error vec _); [|discriminate].
           cbn. now intros [= <-].
        -- destruct Hy as [<-|Hy]; [lia|]. now eapply Hseen; eauto.
Qed.

(** C7, as the code has it. A [TypeProperty] constraint whose simplified
    type is a bare type variable leaves the classifier state as it is;
    otherwise every type variable occurring in the simplified type is
    referenced, and its summary, if there is one, ends with
    [HasNonConcreteConstraints] set. *)
Theorem typeProperty_referenced_unless_bare
  (constraints disjunctions0 : list Constraint)
  (tvcs : list TypeVariableConstraints) (disj : list Constraint)
  (c : Constraint) :
  collectConstraintsForTypeVariables constraints disjunctions0
    = Some (tvcs, disj) ->
  In c constraints ->
  getClassification c = TypeProperty ->
  (isTypeVariable (simplifyType (getFirstType c)) = true ->
   forall st, classifyConstraint c st = Some st) /\
  (isTypeVariable (simplifyType (getFirstType c)) = false ->
   forall tv summary,
     In tv (getTypeVariables (simplifyType (getFirstType c))) ->
     In summary tvcs ->
     TypeVar summary = getRepresentative tv ->
     HasNonConcreteConstraints summary = true).
Proof.
  intros Hrun Hin Hcl. split.
  - intros Hv st. unfold classifyConstraint. now rewrite Hcl, Hv.
  - intros Hv tv summary Htv Hsum Hrep.
    unfold collectConstraintsForTypeVariables in Hrun.
    destruct (classifyConstraints constraints _) as [st|] eqn:E;
      [|discriminate].
    inversion Hrun; subst; clear Hrun.
    destruct (classifyConstraints_inv _ _ _ E) as (WF & _ & Href).
    { intros i t Hn. destruct i; discriminate. }
    apply In_nth_error in Hsum. destruct Hsum as [i Hi].
    destruct (markReferenced_nth _ _ _ _ _ _ Hi) as (s0 & Hn0 & Htv0 & _).
    eapply markReferenced_marks; [| | |exact Hi].
    + intros x j s1 [].
    + apply in_or_app. left. eapply Href; eauto.
    + rewrite <- Hrep, Htv0. now apply WF.
Qed.

End ClassifierProperties.

(** The variable 0 occurs in the type of [exampleTypePropertyOfFunction],
    which is not a bare variable, and its summary is marked. *)
Lemma typeProperty_referenced_witness :
  HasNonConcreteConstraints
    (mkTVC 0 false true [] [(exampleSubtype, NominalType 7)] []) = true.
Proof.
  refine (proj2 (typeProperty_referenced_unless_bare (env := exampleEnv)
            [exampleSubtype; exampleTypePropertyOfFunction] []
            [mkTVC 0 false true [] [(exampleSubtype, NominalType 7)] []] []
            exampleTypePropertyOfFunction _ _ _) _ 0 _ _ _ _).
  - reflexivity.
  - right. left. reflexivity.
  - reflexivity.
  - reflexivity.
  - left. reflexivity.
  - left. reflexivity.
  - reflexivity.
Defined.

(** C7 as stated fails on a bare type variable: the variable 0 is the
    simplified type of [exampleTypeProperty] and has a summary, which is
    left unmarked. *)
Lemma typeProperty_bare_variable_unmarked :
  ~ (forall (env : SemaEnv) (constraints : list Constraint)
            (tvcs : list TypeVariableConstraints) (disj : list Constraint)
            (c : Constraint) (tv : TypeVariable)
            (summary : TypeVariableConstraints),
        collectConstraintsForTypeVariables constraints [] = Some (tvcs, disj) ->
        In c constraints ->
        getClassification c = TypeProperty ->
        In tv (getTypeVariables (simplifyType (getFirstType c))) ->
        In summary tvcs ->
        TypeVar summary = getRepresentative tv ->
        HasNonConcreteConstraints summary = true).
Proof.
  intros H.
  specialize (H exampleEnv [exampleSubtype; exampleTypeProperty]
                [mkTVC 0 false false [] [(exampleSubtype, NominalType 7)] []]
                [] exampleTypeProperty 0
                (mkTVC 0 false false [] [(exampleSubtype, NominalType 7)] [])).
  cbn in H.
  assert (E : false = true); [|discriminate].
  apply H; auto.
Qed.

(** The only lower bound of [exampleRecursiveTVC] is rejected, and the
    flag is set. *)
Lemma getPotentialBindings_rejected_witness :
  InvolvesTypeVariables
    (getPotentialBindings (env := exampleEnv) exampleRecursiveTVC) = true.
Proof.
  apply (getPotentialBindings_rejected_involves (env := exampleEnv)
           exampleRecursiveTVC (exampleSubtype, TypeVariableType 0)).
  - left. reflexivity.
  - reflexivity.
Defined.

(** ** The ranking of potential bindings *)

Lemma size_small {A : Type} (l : list A) :
  (Z.of_nat (length l) < size_t_modulus)%Z -> size l = Z.of_nat (length l).
Proof. intros H. unfold size. apply Z.mod_small. lia. Qed.

Lemma size_t_neg_pos (n : Z) :
  (0 < n < size_t_modulus)%Z -> size_t_neg n = (size_t_modulus - n)%Z.
Proof.
  intros H. unfold size_t_neg. symmetry.
  apply Z.mod_unique with (q := (-1)%Z); lia.
Qed.

Lemma size_t_neg_zero : size_t_neg 0 = 0%Z.
Proof. reflexivity. Qed.

Lemma hasBindings_length (x : PotentialBindings) :
  hasBindings x = true <-> 0 < length (Bindings x).
Proof.
  unfold hasBindings. destruct (Bindings x); cbn; split;
    intros; try lia; congruence.
Qed.

Lemma tuple_lt_last a b c (m n : Z) :
  tuple_lt (a, b, c, m) (a, b, c, n) = (m <? n)%Z.
Proof. destruct a, b, c; reflexivity. Qed.

Lemma tuple_lt_congr a b c a' b' c' (m n m' n' : Z) :
  (m <? n)%Z = (m' <? n')%Z ->
  tuple_lt (a, b, c, m) (a', b', c', n) =
  tuple_lt (a, b, c, m') (a', b', c', n').
Proof. intros H. destruct a, b, c, a', b', c'; cbn; auto. Qed.

Lemma tuple_lt_irrefl (t : bool * bool * bool * Z) : tuple_lt t t = false.
Proof.
  destruct t as [[[a b] c] m]. rewrite tuple_lt_last. apply Z.ltb_irrefl.
Qed.

Lemma tuple_lt_trans (t u v : bool * bool * bool * Z) :
  tuple_lt t u = true -> tuple_lt u v = true -> tuple_lt t v = true.
Proof.
  destruct t as [[[a b] c] m], u as [[[a' b'] c'] m'],
           v as [[[a'' b''] c''] m''].
  destruct a, b, c, a', b', c', a'', b'', c''; cbn;
    try discriminate; try reflexivity;
    rewrite !Z.ltb_lt; lia.
Qed.

Lemma PotentialBindings_lt_irrefl x : PotentialBindings_lt x x = false.
Proof. apply tuple_lt_irrefl. Qed.

Lemma PotentialBindings_lt_trans x y z :
  PotentialBindings_lt x y = true -> PotentialBindings_lt y z = true ->
  PotentialBindings_lt x z = true.
Proof. apply tuple_lt_trans. Qed.

(** On sets that have bindings the comparison is the described one. *)
Lemma PotentialBindings_lt_ranked (x y : PotentialBindings) :
  hasBindings x = true -> hasBindings y = true ->
  (Z.of_nat (length (Bindings x)) < size_t_modulus)%Z ->
  (Z.of_nat (length (Bindings y)) < size_t_modulus)%Z ->
  PotentialBindings_lt x y = rankedBetter x y.
Proof.
  intros Hx Hy Bx By.
  apply hasBindings_length in Hx. apply hasBindings_length in Hy.
  unfold PotentialBindings_lt, rankedBetter.
  apply tuple_lt_congr.
  rewrite !size_small by assumption.
  rewrite !size_t_neg_pos by lia.
  destruct (Z.ltb_spec (size_t_modulus - Z.of_nat (length (Bindings x)))
                       (size_t_modulus - Z.of_nat (length (Bindings y))));
    destruct (Z.ltb_spec (- Z.of_nat (length (Bindings x)))
                         (- Z.of_nat (length (Bindings y))));
    try reflexivity; lia.
Qed.

Section SelectionProperties.
Context {env : SemaEnv}.

Lemma selectBestFrom_minimal (rest : list TypeVariableConstraints)
  (i : nat) (best0 : nat * PotentialBindings)
  (seen : list PotentialBindings) :
  minimalAmong seen (snd best0) ->
  minimalAmong (seen ++ map getPotentialBindings rest)
               (snd (selectBestFrom i rest best0)).
Proof.
  revert i best0 seen. induction rest as [|tvc rest IH];
    intros i best0 seen Hmin; cbn [selectBestFrom map].
  - now rewrite app_nil_r.
  - replace (seen ++ getPotentialBindings tvc :: map getPotentialBindings rest)
      with ((seen ++ [getPotentialBindings tvc]) ++
            map getPotentialBindings rest)
      by (now rewrite <- app_assoc).
    remember (getPotentialBindings tvc) as b eqn:Eb. clear Eb.
    destruct (hasBindings b) eqn:Hb; cbn [negb].
    + destruct (hasBindings (snd best0)) eqn:H0; cbn [negb orb].
      * destruct (PotentialBindings_lt b (snd best0)) eqn:Hlt.
        -- apply IH. cbn [snd]. intros x Hx Hhas. split; [assumption|].
           apply in_app_or in Hx. destruct Hx as [Hx|[<-|[]]].
           ++ destruct (Hmin x Hx Hhas) as [_ Hxb].
              destruct (PotentialBindings_lt x b) eqn:Hxlt; [|reflexivity].
              rewrite (PotentialBindings_lt_trans _ _ _ Hxlt Hlt) in Hxb.
              discriminate.
           ++ apply PotentialBindings_lt_irrefl.
        -- apply IH. intros x Hx Hhas. split; [assumption|].
           apply in_app_or in Hx. destruct Hx as [Hx|[<-|[]]].
           ++ now apply Hmin.
           ++ assumption.
      * apply IH. cbn [snd]. intros x Hx Hhas. split; [assumption|].
        apply in_app_or in Hx. destruct Hx as [Hx|[<-|[]]].
        -- destruct (Hmin x Hx Hhas) as [Hc _]. congruence.
        -- apply PotentialBindings_lt_irrefl.
    + apply IH. intros x Hx Hhas.
      apply in_app_or in Hx. destruct Hx as [Hx|[<-|[]]].
      * now apply Hmin.
      * congruence.
Qed.

Lemma selectBestFrom_index (rest : list TypeVariableConstraints)
  (i : nat) (best0 : nat * PotentialBindings)
  (all : list TypeVariableConstraints) :
  (forall k tvc, nth_error rest k = Some tvc ->
                 nth_error all (i + k) = Some tvc) ->
  (exists tvc, nth_error all (fst best0) = Some tvc /\
               snd best0 = getPotentialBindings tvc) ->
  exists tvc,
    nth_error all (fst (selectBestFrom i rest best0)) = Some tvc /\
    snd (selectBestFrom i rest best0) = getPotentialBindings tvc.
Proof.
  revert i best0. induction rest as [|tvc rest IH]; intros i best0 Hall H0;
    cbn [selectBestFrom]; [assumption|].
  assert (Hrest : forall k t, nth_error rest k = Some t ->
                              nth_error all (S i + k) = Some t).
  { intros k t Hk. specialize (Hall (S k) t Hk).
    now replace (S i + k) with (i + S k) by lia. }
  destruct (negb (hasBindings (getPotentialBindings tvc))).
  - now apply IH.
  - destruct (_ || _).
    + apply IH; [assumption|]. cbn [fst snd]. exists tvc.
      split; [|reflexivity].
      specialize (Hall 0 tvc eq_refl). now rewrite Nat.add_0_r in Hall.
    + now apply IH.
Qed.

(** C5, as the code has it. For two sets that both have bindings (the
    only ones the driver compares), [x < y] is the lexicographic order on
    (FullyBound, InvolvesTypeVariables, HasLiteralBindings, -|Bindings|),
    false before true and more candidates better; and the set the driver
    picks is that of one of the summaries, has bindings whenever some
    summary has, and no summary with bindings is ranked better than it. *)
Theorem ranking_of_potential_bindings
  (x y : PotentialBindings) (tvcs : list TypeVariableConstraints)
  (idx : nat) (best : PotentialBindings) :
  hasBindings x = true -> hasBindings y = true ->
  (Z.of_nat (length (Bindings x)) < size_t_modulus)%Z ->
  (Z.of_nat (length (Bindings y)) < size_t_modulus)%Z ->
  selectBestBindings tvcs = Some (idx, best) ->
  PotentialBindings_lt x y = rankedBetter x y /\
  (PBFullyBound x = PBFullyBound y ->
   InvolvesTypeVariables x = InvolvesTypeVariables y ->
   HasLiteralBindings x = HasLiteralBindings y ->
   PotentialBindings_lt x y = (length (Bindings y) <? length (Bindings x))) /\
  (exists tvc, nth_error tvcs idx = Some tvc /\
               best = getPotentialBindings tvc) /\
  (forall tvc, In tvc tvcs ->
     hasBindings (getPotentialBindings tvc) = true ->
     hasBindings best = true /\
     PotentialBindings_lt (getPotentialBindings tvc) best = false).
Proof.
  intros Hx Hy Bx By Hsel.
  pose proof (PotentialBindings_lt_ranked x y Hx Hy Bx By) as Hr.
  split; [assumption|]. split.
  { intros E1 E2 E3. rewrite Hr. unfold rankedBetter.
    rewrite E1, E2, E3, tuple_lt_last.
    destruct (Z.ltb_spec (- Z.of_nat (length (Bindings x)))
                         (- Z.of_nat (length (Bindings y))));
      destruct (Nat.ltb_spec (length (Bindings y)) (length (Bindings x)));
      try reflexivity; lia. }
  destruct tvcs as [|tvc0 rest]; [discriminate|].
  cbn in Hsel. inversion Hsel as [Hsel']; clear Hsel.
  split.
  - pose proof (selectBestFrom_index rest 1 (0, getPotentialBindings tvc0)
                  (tvc0 :: rest)) as Hi.
    rewrite Hsel' in Hi. cbn [fst snd] in Hi. apply Hi.
    + intros k t Hk. exact Hk.
    + exists tvc0. split; reflexivity.
  - pose proof (selectBestFrom_minimal rest 1 (0, getPotentialBindings tvc0)
                  [getPotentialBindings tvc0]) as Hm.
    rewrite Hsel' in Hm. cbn [fst snd] in Hm.
    intros tvc Hin Hhas. apply Hm.
    + intros b [<-|[]] Hb. split; [assumption|].
      apply PotentialBindings_lt_irrefl.
    + change (In (getPotentialBindings tvc)
                 (map getPotentialBindings (tvc0 :: rest))).
      now apply in_map.
    + assumption.
Qed.

End SelectionProperties.

(** Two bindings against one, and the choice among the summaries of one
    variable. *)
Lemma ranking_of_potential_bindings_witness :
  PotentialBindings_lt twoBindings oneBinding = true /\
  PotentialBindings_lt oneBinding twoBindings = false.
Proof.
  pose proof (ranking_of_potential_bindings (env := exampleEnv)
                twoBindings oneBinding [exampleRecursiveTVC] 0
                (getPotentialBindings (env := exampleEnv) exampleRecursiveTVC)
                eq_refl eq_refl eq_refl eq_refl eq_refl) as [H _].
  pose proof (ranking_of_potential_bindings (env := exampleEnv)
                oneBinding twoBindings [exampleRecursiveTVC] 0
                (getPotentialBindings (env := exampleEnv) exampleRecursiveTVC)
                eq_refl eq_refl eq_refl eq_refl eq_refl) as [H' _].
  rewrite H, H'. split; reflexivity.
Defined.

(** C5 as stated fails when a set has no binding: its negated size is 0,
    the least unsigned value, so the empty set is ranked better than a set
    with one binding and the same flags, where the described order ranks
    the set with one binding better. *)
Lemma ranking_fails_on_empty :
  PotentialBindings_lt noBindings oneBinding = true /\
  rankedBetter noBindings oneBinding = false /\
  ~ (forall x y : PotentialBindings,
        PotentialBindings_lt x y = true <-> rankedBetter x y = true).
Proof.
  split; [reflexivity|]. split; [reflexivity|].
  intros H. specialize (H noBindings oneBinding).
  destruct H as [H _]. specialize (H eq_refl). discriminate H.
Qed.

(** ** The binding search *)

Section BindingSearchProperties.
Context {env : SemaEnv}.

Lemma existsb_Ty_eqb (x : Ty) (s : list Ty) :
  existsb (Ty_eqb x) s = true <-> In x s.
Proof.
  rewrite existsb_exists. split.
  - intros (y & Hy & E). apply Ty_eqb_eq in E. now subst.
  - intros H. exists x. split; [assumption | apply Ty_eqb_refl].
Qed.

Lemma setInsert_spec (x : Ty) (s : list Ty) :
  (In x s /\ setInsert x s = (false, s)) \/
  (~ In x s /\ setInsert x s = (true, x :: s)).
Proof.
  unfold setInsert. destruct (existsb (Ty_eqb x) s) eqn:E.
  - left. split; [now apply existsb_Ty_eqb | reflexivity].
  - right. split; [|reflexivity]. intros H.
    apply existsb_Ty_eqb in H. congruence.
Qed.

Lemma addUnexplored_spec (flag : bool) (types : list Ty)
  (newBindings : list (Ty * bool)) (explored : list Ty) :
  exists added,
    fst (addUnexplored flag types (newBindings, explored))
      = newBindings ++ added /\
    (forall b, In b added ->
       snd b = flag /\ In (fst b) types /\
       ~ In (getCanonicalType (fst b)) explored) /\
    NoDup (map (fun b => getCanonicalType (fst b)) added) /\
    (forall t, In t types -> ~ In (getCanonicalType t) explored ->
       In (getCanonicalType t)
          (map (fun b => getCanonicalType (fst b)) added)) /\
    (forall c, In c (snd (addUnexplored flag types (newBindings, explored)))
       <-> In c explored \/
           In c (map (fun b => getCanonicalType (fst b)) added)).
Proof.
  revert newBindings explored.
  induction types as [|type rest IH]; intros newBindings explored.
  - exists []. cbn. rewrite app_nil_r.
    split; [reflexivity|]. split; [intros b []|].
    split; [constructor|]. split; [intros t []|]. intros c. tauto.
  - cbn [addUnexplored].
    destruct (setInsert_spec (getCanonicalType type) explored)
      as [[Hin ->]|[Hnin ->]].
    + destruct (IH newBindings explored) as (added & E & Hb & Hnd & Hc & Hex).
      exists added. split; [exact E|]. split; [|split; [exact Hnd|split]].
      * intros b Hbin. destruct (Hb b Hbin) as (H1 & H2 & H3).
        repeat split; auto. now right.
      * intros t [<-|Ht] Hn; [contradiction | now apply Hc].
      * exact Hex.
    + destruct (IH (newBindings ++ [(type, flag)])
                   (getCanonicalType type :: explored))
        as (added & E & Hb & Hnd & Hc & Hex).
      exists ((type, flag) :: added).
      split; [rewrite E, <- app_assoc; reflexivity|].
      split; [|split; [|split]].
      * intros b [<-|Hbin]; cbn.
        -- repeat split; auto.
        -- destruct (Hb b Hbin) as (H1 & H2 & H3).
           repeat split; auto. intros H. apply H3. now right.
      * cbn. constructor; [|exact Hnd].
        intros H. apply in_map_iff in H. destruct H as (b' & Eb & Hbin).
        destruct (Hb b' Hbin) as (_ & _ & H3). apply H3. left. now symmetry.
      * intros t Ht Hn. cbn.
        destruct (Ty_eq_dec (getCanonicalType type) (getCanonicalType t))
          as [Eq|Ne]; [now left|].
        right. destruct Ht as [<-|Ht]; [congruence|].
        apply Hc; [assumption|]. intros [H|H]; [congruence | contradiction].
      * intros c. rewrite Hex. cbn. tauto.
Qed.

Lemma checkedSupertypes_In (typeVar : TypeVariable)
  (bindings : list (Ty * bool)) (t : Ty) :
  In t (checkedSupertypes typeVar bindings) <->
  exists binding supertype,
    In binding bindings /\
    In supertype (enumerateDirectSupertypes (fst binding)) /\
    checkTypeOfBinding typeVar (Some supertype) = Some t.
Proof.
  unfold checkedSupertypes. rewrite in_flat_map. split.
  - intros (b & Hb & H). apply in_flat_map in H.
    destruct H as (s & Hs & H). exists b, s. repeat split; auto.
    destruct (checkTypeOfBinding typeVar (Some s)); [|contradiction].
    destruct H as [->|[]]. reflexivity.
  - intros (b & s & Hb & Hs & E). exists b. split; [assumption|].
    apply in_flat_map. exists s. split; [assumption|]. rewrite E. now left.
Qed.

(** C6, as the code has it. After a round other than the first, the new
    candidates are the direct supertypes of the types tried in the round
    that has just failed (the current bindings, not those of the rounds
    before it), each accepted and simplified by [checkTypeOfBinding] and
    deduplicated by canonical type against all the explored types, to
    which their canonical types are added. *)
Theorem nextBindings_supertypes_of_last_round
  (tvc : TypeVariableConstraints) (tryCount : nat)
  (bindings : list (Ty * bool)) (exploredTypes : list Ty) :
  1 <= tryCount ->
  let newBindings := fst (nextBindings tvc tryCount bindings exploredTypes) in
  let explored' := snd (nextBindings tvc tryCount bindings exploredTypes) in
  let canonical := fun b : Ty * bool => getCanonicalType (fst b) in
  (forall b, In b newBindings ->
     snd b = false /\
     ~ In (canonical b) exploredTypes /\
     exists binding supertype,
       In binding bindings /\
       In supertype (enumerateDirectSupertypes (fst binding)) /\
       checkTypeOfBinding (TypeVar tvc) (Some supertype) = Some (fst b)) /\
  NoDup (map canonical newBindings) /\
  (forall binding supertype t,
     In binding bindings ->
     In supertype (enumerateDirectSupertypes (fst binding)) ->
     checkTypeOfBinding (TypeVar tvc) (Some supertype) = Some t ->
     ~ In (getCanonicalType t) exploredTypes ->
     In (getCanonicalType t) (map canonical newBindings)) /\
  (forall c, In c explored' <->
             In c exploredTypes \/ In c (map canonical newBindings)).
Proof.
  intros Hcount. unfold nextBindings.
  destruct (Nat.eqb_spec tryCount 0) as [E|_]; [lia|].
  cbn [andb fst snd]. unfold supertypeBindings.
  destruct (addUnexplored_spec false
              (checkedSupertypes (TypeVar tvc) bindings) [] exploredTypes)
    as (added & E & Hb & Hnd & Hc & Hex).
  cbn [app] in E. cbn zeta. rewrite E.
  split; [|split; [exact Hnd|split]].
  - intros b Hbin. destruct (Hb b Hbin) as (H1 & H2 & H3).
    repeat split; auto. now apply checkedSupertypes_In.
  - intros binding supertype t H1 H2 H3 H4. apply Hc; [|assumption].
    apply checkedSupertypes_In. eauto.
  - exact Hex.
Qed.

End BindingSearchProperties.

(** After a second round that tried [NominalType 1], the candidate is its
    superclass. *)
Lemma nextBindings_supertypes_witness :
  fst (nextBindings (env := exampleEnv) exampleLiteralTVC 1
         [(NominalType 1, false)] [NominalType 1])
  = [(NominalType 0, false)] /\
  NoDup (map (fun b : Ty * bool => fst b)
           (fst (nextBindings (env := exampleEnv) exampleLiteralTVC 1
                   [(NominalType 1, false)] [NominalType 1]))).
Proof.
  split; [reflexivity|].
  exact (proj1 (proj2 (nextBindings_supertypes_of_last_round
                         (env := exampleEnv) exampleLiteralTVC 1
                         [(NominalType 1, false)] [NominalType 1]
                         (le_n 1)))).
Defined.

(** C6 as stated fails: the first round tries the class [NominalType 1]
    and the default literal type, the second round tries the alternative
    literal type, and the search then stops; the superclass
    [NominalType 0] of the type tried in the first round, which
    [checkTypeOfBinding] accepts and which is not explored, is never a
    candidate. *)
Lemma supertypes_of_earlier_rounds_not_enumerated :
  tryTypeVariableBindings (env := exampleEnv) (list Ty) failingSolve 5
    exampleLiteralTVC
    (Bindings (getPotentialBindings (env := exampleEnv) exampleLiteralTVC))
    []
  = Some (true,
          [NominalType 1; NominalType 100; NominalType 200],
          [([(NominalType 1, false); (NominalType 100, true)], []);
           ([(NominalType 200, true)],
            [NominalType 200; NominalType 100; NominalType 1])]) /\
  fst (nextBindings (env := exampleEnv) exampleLiteralTVC 1
         [(NominalType 200, true)]
         [NominalType 200; NominalType 100; NominalType 1]) = [] /\
  supertypesOfAllTried (env := exampleEnv) 0
    [[(NominalType 1, false); (NominalType 100, true)];
     [(NominalType 200, true)]]
    [NominalType 200; NominalType 100; NominalType 1]
  = [(NominalType 0, false)] /\
  ~ (forall (env : SemaEnv) (tvc : TypeVariableConstraints)
            (tryCount : nat) (earlier : list (list (Ty * bool)))
            (bindings : list (Ty * bool)) (exploredTypes : list Ty),
        1 <= tryCount ->
        fst (nextBindings tvc tryCount bindings exploredTypes) =
        supertypesOfAllTried (TypeVar tvc) (earlier ++ [bindings])
                             exploredTypes).
Proof.
  split; [reflexivity|]. split; [reflexivity|]. split; [reflexivity|].
  intros H.
  specialize (H exampleEnv exampleLiteralTVC 1
                [[(NominalType 1, false); (NominalType 100, true)]]
                [(NominalType 200, true)]
                [NominalType 200; NominalType 100; NominalType 1] (le_n 1)).
  discriminate H.
Qed.

(** ** The top-level driver *)

Section SolveProperties.
Variable Solution : Type.
Variable solveStep :
  ConstraintSystem -> list Solution -> bool * ConstraintSystem * list Solution.
Variable findBestSolution : list Solution -> bool -> option nat.

(** C2. Without solver state, [solve] sets the state up and recurses; when
    more than one solution was accumulated it asks [findBestSolution] with
    [minimize = false] and keeps the best one alone when there is one; the
    state is removed, and the result is false (success) exactly when one
    solution remains: no solution, or several of which none is the best,
    give true. *)
Theorem solve_top_level (cs : ConstraintSystem) (solutions : list Solution) :
  solverState cs = None ->
  let accumulated :=
    snd (solveStep (set_solverState (Some newSolverState) cs) solutions) in
  (forall best, findBestSolution accumulated false = Some best ->
                best < length accumulated) ->
  exists result cs' final,
    solve Solution solveStep findBestSolution cs solutions
      = Some (result, cs', final) /\
    solverState cs' = None /\
    (length accumulated <= 1 -> final = accumulated) /\
    (1 < length accumulated ->
     match findBestSolution accumulated false with
     | Some best => exists s, nth_error accumulated best = Some s /\
                              final = [s]
     | None => final = accumulated
     end) /\
    (result = false <-> length final = 1) /\
    (result = true <->
     accumulated = [] \/
     (1 < length accumulated /\ findBestSolution accumulated false = None)).
Proof.
  intros Hnone accumulated Hbest. unfold solve. rewrite Hnone.
  subst accumulated.
  destruct (solveStep (set_solverState (Some newSolverState) cs) solutions)
    as [[failed cs1] sols] eqn:Estep.
  cbn [snd] in *. unfold keepBest.
  destruct (Nat.ltb_spec 1 (length sols)) as [Hlt|Hle].
  - destruct (findBestSolution sols false) as [best|] eqn:Ebest.
    + specialize (Hbest best eq_refl).
      destruct (nth_error sols best) as [s|] eqn:En.
      * exists false, (set_solverState None cs1), [s].
        repeat split; try reflexivity; try (cbn; lia); try discriminate.
        -- intros _. exists s. auto.
        -- intros [->|[_ E]]; [cbn in Hlt; lia | discriminate].
      * apply nth_error_None in En. lia.
    + exists (negb (length sols =? 1)), (set_solverState None cs1), sols.
      assert (E1 : (length sols =? 1) = false) by (apply Nat.eqb_neq; lia).
      rewrite E1. repeat split; try reflexivity; try discriminate; auto;
        try lia.
  - exists (negb (length sols =? 1)), (set_solverState None cs1), sols.
    repeat split; try reflexivity; try lia.
    + intros H. apply negb_false_iff in H. now apply Nat.eqb_eq.
    + intros H. apply negb_false_iff. now apply Nat.eqb_eq.
    + intros H. apply negb_true_iff in H. apply Nat.eqb_neq in H.
      left. destruct sols as [|s [|s' r]]; [reflexivity| |]; cbn in *; lia.
    + intros [->|[H _]]; [reflexivity | lia].
Qed.

End SolveProperties.

(** Two solutions are found and the second, the best, is kept alone. *)
Lemma solve_top_level_witness :
  solve nat twoSolutions preferSecond initialSystem []
  = Some (false, initialSystem, [5]).
Proof.
  destruct (solve_top_level nat twoSolutions preferSecond initialSystem []
              eq_refl)
    as (result & cs' & final & E & _).
  - intros best H. cbn in *. inversion H. lia.
  - reflexivity.
Defined.

(** ** Simplification *)

Lemma drainWorklist_fields (w : list ConstraintRef) (cs : ConstraintSystem) :
  Worklist (drainWorklist w cs) = [] /\
  Constraints (drainWorklist w cs) = Constraints cs /\
  solverState (drainWorklist w cs) = solverState cs /\
  failedConstraint (drainWorklist w cs) = failedConstraint cs /\
  CG (drainWorklist w cs) = CG cs /\
  forall c, In c w \/ isActive cs c = false ->
            isActive (drainWorklist w cs) c = false.
Proof.
  revert cs. induction w as [|x w IH]; intros cs; cbn.
  - repeat split; auto. intros c [[]|H]. exact H.
  - destruct (IH (setInactive x cs)) as (H1 & H2 & H3 & H4 & H5 & H6).
    repeat split; auto. intros c Hc. apply H6.
    destruct (Nat.eq_dec c x) as [->|Hne].
    + right. cbn. now rewrite Nat.eqb_refl.
    + destruct Hc as [[->|Hc]|Hc]; [congruence | now left |].
      right. cbn. apply Nat.eqb_neq in Hne. now rewrite Hne.
Qed.

Section SimplifyProperties.
Variable simplifyConstraint :
  ConstraintRef -> ConstraintSystem -> SolutionKind * ConstraintSystem.
Variable addConstraint :
  ConstraintRef -> ConstraintSystem -> bool * ConstraintSystem.

Lemma simplify_of_worklist (fuel : nat) (cs final : ConstraintSystem)
  (e : SimplifyExit) (retiredSet : list ConstraintRef) :
  CG cs <> None -> e <> ExitDrained ->
  simplifyWorklist simplifyConstraint fuel [] cs
    = Returned (e, retiredSet, final) ->
  simplify simplifyConstraint addConstraint fuel cs = Returned (true, final).
Proof.
  intros Hg He H. unfold simplify, simplifyGraph.
  destruct (CG cs); [|congruence]. rewrite H.
  destruct e; try congruence; reflexivity.
Qed.

(** The loop resumes from the state that its first iterations reach. *)
Lemma simplifyWorklist_resume (n fuel : nat) :
  forall (retiredSet0 retiredSet : list ConstraintRef)
         (cs0 cs : ConstraintSystem),
    worklistIterations simplifyConstraint n retiredSet0 cs0
      = Some (retiredSet, cs) ->
    simplifyWorklist simplifyConstraint (n + fuel) retiredSet0 cs0 =
    simplifyWorklist simplifyConstraint fuel retiredSet cs.
Proof.
  induction n as [|n IH]; intros retiredSet0 retiredSet cs0 cs H.
  - cbn in H. inversion H; subst. reflexivity.
  - cbn [worklistIterations] in H. cbn [Nat.add simplifyWorklist].
    destruct (Worklist cs0) as [|c rest]; [discriminate|].
    destruct (simplifyConstraint c (set_Worklist rest cs0)) as [kind cs1].
    destruct (recordResult c kind retiredSet0 cs1) as [[rs1 cs2]|];
      [|discriminate].
    destruct (failedConstraint (setInactive c cs2)); [discriminate|].
    destruct (worseThanBestSolution (setInactive c cs2)); [discriminate|].
    now apply IH.
Qed.

(** C3. In graph mode, when the simplifier returns [Error] for the
    constraint taken from the worklist, at the first iteration of the
    worklist loop or after any number [n] of iterations that did not leave
    it, [simplify] returns true, and in the system it leaves the failed
    constraint is recorded unless one was recorded before, the rest of the
    worklist is popped and made inactive, and the active constraints have
    gone wholesale to the front of the retired list (they are erased
    without solver state). *)
Theorem simplify_error_retires_all (n fuel : nat)
  (retiredSet : list ConstraintRef) (cs0 cs cs1 : ConstraintSystem)
  (constraint : ConstraintRef) (rest : list ConstraintRef) :
  CG cs0 <> None ->
  worklistIterations simplifyConstraint n [] cs0 = Some (retiredSet, cs) ->
  Worklist cs = constraint :: rest ->
  simplifyConstraint constraint (set_Worklist rest cs) = (Error, cs1) ->
  exists final,
    simplify simplifyConstraint addConstraint (n + S fuel) cs0
      = Returned (true, final) /\
    simplifyWorklist simplifyConstraint (S fuel) retiredSet cs
      = Returned (ExitFailed, retiredSet, final) /\
    failedConstraint final =
      Some (match failedConstraint cs1 with
            | Some earlier => earlier
            | None => constraint
            end) /\
    Worklist final = [] /\
    isActive final constraint = false /\
    (forall c, In c (Worklist cs1) -> isActive final c = false) /\
    Constraints final = [] /\
    match solverState cs1 with
    | Some ss =>
        exists ss', solverState final = Some ss' /\
                    retiredConstraints ss' =
                      Constraints cs1 ++ retiredConstraints ss
    | None => solverState final = None
    end.
Proof.
  intros Hg Hn Hw Hs.
  assert (Hloop : exists final,
    simplifyWorklist simplifyConstraint (S fuel) retiredSet cs
      = Returned (ExitFailed, retiredSet, final) /\
    failedConstraint final =
      Some (match failedConstraint cs1 with
            | Some earlier => earlier
            | None => constraint
            end) /\
    Worklist final = [] /\
    isActive final constraint = false /\
    (forall c, In c (Worklist cs1) -> isActive final c = false) /\
    Constraints final = [] /\
    match solverState cs1 with
    | Some ss =>
        exists ss', solverState final = Some ss' /\
                    retiredConstraints ss' =
                      Constraints cs1 ++ retiredConstraints ss
    | None => solverState final = None
    end).
  { cbn [simplifyWorklist]. rewrite Hw, Hs.
    set (cs2 := match failedConstraint cs1 with
                | None => set_failedConstraint (Some constraint) cs1
                | Some _ => cs1
                end).
    assert (Hrec : recordResult constraint Error retiredSet cs1
                   = Some (retiredSet, cs2)).
    { unfold recordResult, cs2. destruct (failedConstraint cs1); reflexivity. }
    rewrite Hrec.
    assert (Hf : failedConstraint (setInactive constraint cs2) =
                 Some (match failedConstraint cs1 with
                       | Some earlier => earlier
                       | None => constraint
                       end)).
    { unfold cs2. destruct (failedConstraint cs1) eqn:E; cbn; auto. }
    rewrite Hf.
    assert (Hsame : Worklist cs2 = Worklist cs1 /\
                    Constraints cs2 = Constraints cs1 /\
                    solverState cs2 = solverState cs1).
    { unfold cs2. destruct (failedConstraint cs1); auto. }
    destruct Hsame as (Hw2 & Hc2 & Hss2).
    pose proof (drainWorklist_fields (Worklist (setInactive constraint cs2))
                  (setInactive constraint cs2)) as D.
    remember (drainWorklist (Worklist (setInactive constraint cs2))
                            (setInactive constraint cs2)) as cs3 eqn:E3.
    clear E3. destruct D as (D1 & D2 & D3 & D4 & D5 & D6).
    rewrite Hf in D4. cbn in D2, D3.
    assert (Es : solverState cs3 = solverState cs1) by congruence.
    assert (Ec : Constraints cs3 = Constraints cs1) by congruence.
    assert (A1 : isActive cs3 constraint = false).
    { apply D6. right. cbn. now rewrite Nat.eqb_refl. }
    assert (A2 : forall c, In c (Worklist cs1) -> isActive cs3 c = false).
    { intros c Hc. apply D6. left. cbn. now rewrite Hw2. }
    exists (retireAll cs3). split; [reflexivity|].
    unfold retireAll. rewrite Es.
    destruct (solverState cs1) as [ss|]; cbn.
    - repeat split; auto; try congruence.
      exists (set_retiredConstraints
                (Constraints cs3 ++ retiredConstraints ss) ss).
      split; [reflexivity|]. cbn. now rewrite Ec.
    - repeat split; auto; congruence. }
  destruct Hloop as (final & Hrun & Hrest).
  exists final. split; [|split; [exact Hrun | exact Hrest]].
  unfold simplify, simplifyGraph.
  destruct (CG cs0); [|congruence].
  rewrite (simplifyWorklist_resume n (S fuel) [] retiredSet cs0 cs Hn).
  rewrite Hrun. reflexivity.
Qed.

End SimplifyProperties.

(** On the exit where the worklist is empty the transfer is made: the
    retired constraints leave the active list for the front of the retired
    list. *)
Lemma transferRetired_spec (active retiredSet retired : list ConstraintRef) :
  transferRetired active retiredSet retired =
  (filter (fun c => negb (memRef c retiredSet)) active,
   rev (filter (fun c => memRef c retiredSet) active) ++ retired).
Proof.
  revert retired. induction active as [|c rest IH]; intros retired; cbn;
    [reflexivity|].
  destruct (memRef c retiredSet); cbn.
  - rewrite IH, <- app_assoc. reflexivity.
  - now rewrite IH.
Qed.

(** The constraint 1 is solved, then the constraint 2 is rejected: it is
    recorded, [simplify] returns true, and the three active constraints
    are retired. *)
Lemma simplify_error_witness :
  exists final,
    simplify rejectSecond neverAdd 2 graphSystem = Returned (true, final) /\
    failedConstraint final = Some 2 /\
    Worklist final = [] /\
    Constraints final = [] /\
    retiredOf final = [1; 2; 3].
Proof.
  assert (E : exists cs,
             worklistIterations rejectSecond 1 [] graphSystem
               = Some ([1], cs) /\
             Worklist cs = [2; 3] /\
             failedConstraint cs = None /\
             Constraints cs = [1; 2; 3] /\
             exists ss, solverState cs = Some ss /\
                        retiredConstraints ss = []).
  { eexists. split; [cbv; reflexivity|]. repeat split.
    eexists. split; reflexivity. }
  destruct E as (cs & E & Hw & Hf & Hc & ss & Hs & Hr).
  destruct (simplify_error_retires_all rejectSecond neverAdd 1 0 [1]
              graphSystem cs (set_Worklist [3] cs) 2 [3])
    as (final & H1 & _ & H2 & H3 & _ & _ & H4 & H5).
  - discriminate.
  - exact E.
  - exact Hw.
  - reflexivity.
  - exists final. cbn [failedConstraint set_Worklist] in H2.
    rewrite Hf in H2.
    cbn [solverState set_Worklist Constraints] in H5. rewrite Hs in H5.
    destruct H5 as (ss' & H5 & H6). rewrite Hc, Hr in H6.
    repeat split; try assumption.
    unfold retiredOf. rewrite H5. exact H6.
Defined.

Section PrunedProperties.
Variable simplifyConstraint :
  ConstraintRef -> ConstraintSystem -> SolutionKind * ConstraintSystem.
Variable addConstraint :
  ConstraintRef -> ConstraintSystem -> bool * ConstraintSystem.

(** The simplifier takes no constraint out of the active list, leaves the
    retired list alone, and does not put back in the graph an active
    constraint that is not in it. *)
Hypothesis simplifier_keeps_active :
  forall c cs x, In x (Constraints cs) ->
                 In x (Constraints (snd (simplifyConstraint c cs))).
Hypothesis simplifier_keeps_retired :
  forall c cs, retiredOf (snd (simplifyConstraint c cs)) = retiredOf cs.
Hypothesis simplifier_keeps_out_of_graph :
  forall c cs x, In x (Constraints cs) -> inGraph x cs = false ->
                 inGraph x (snd (simplifyConstraint c cs)) = false.

Lemma inGraph_removeFromGraph (c x : ConstraintRef) (cs : ConstraintSystem) :
  inGraph c (removeFromGraph c cs) = false /\
  (inGraph x cs = false -> inGraph x (removeFromGraph c cs) = false).
Proof.
  unfold inGraph, removeFromGraph. destruct (CG cs) as [g|] eqn:E; cbn.
  - split.
    + apply memRef_false. intros H. apply filter_In in H.
      destruct H as [_ H]. now rewrite Nat.eqb_refl in H.
    + intros H. apply memRef_false. apply memRef_false in H.
      intros H'. apply filter_In in H'. tauto.
  - rewrite E. auto.
Qed.

Lemma setVectorInsert_In (c x : ConstraintRef) (s : list ConstraintRef) :
  In x (setVectorInsert c s) <-> x = c \/ In x s.
Proof.
  unfold setVectorInsert. destruct (memRef c s) eqn:E.
  - apply memRef_In in E. split; [auto|]. intros [->|H]; assumption.
  - rewrite in_app_iff. cbn. split; intros; [|]; intuition auto.
Qed.

Lemma updSolverState_counter f cs cs' :
  (forall ss, retiredConstraints (f ss) = retiredConstraints ss) ->
  updSolverState f cs = Some cs' ->
  Constraints cs' = Constraints cs /\ retiredOf cs' = retiredOf cs /\
  CG cs' = CG cs /\ Worklist cs' = Worklist cs /\
  failedConstraint cs' = failedConstraint cs.
Proof.
  intros Hf H. unfold updSolverState in H.
  destruct (solverState cs) as [ss|] eqn:E; [|discriminate].
  inversion H; subst. unfold retiredOf. cbn. rewrite E, Hf. auto.
Qed.

(** The invariant of the worklist loop on its way to the pruning exit:
    the constraints of [active] stay in the active list, the retired list
    is [retired], and those of them in the local retired set are out of the
    graph. *)
Lemma simplifyWorklist_pruned_inv (active retired : list ConstraintRef)
  (fuel : nat) (retiredSet retiredSet' : list ConstraintRef)
  (cs final : ConstraintSystem) :
  simplifyWorklist simplifyConstraint fuel retiredSet cs
    = Returned (ExitPruned, retiredSet', final) ->
  (forall x, In x active -> In x (Constraints cs)) ->
  retiredOf cs = retired ->
  (forall x, In x retiredSet -> In x active -> inGraph x cs = false) ->
  (forall x, In x active -> In x (Constraints final)) /\
  retiredOf final = retired /\
  (forall x, In x retiredSet' -> In x active -> inGraph x final = false) /\
  worseThanBestSolution final = true.
Proof.
  revert retiredSet cs.
  induction fuel as [|fuel IH]; intros retiredSet cs H Ha Hr Hg;
    [discriminate|].
  cbn [simplifyWorklist] in H.
  destruct (Worklist cs) as [|constraint rest] eqn:Hw; [discriminate|].
  pose proof (simplifier_keeps_active constraint (set_Worklist rest cs)) as Ka.
  pose proof (simplifier_keeps_retired constraint (set_Worklist rest cs)) as Kr.
  pose proof (simplifier_keeps_out_of_graph constraint (set_Worklist rest cs))
    as Kg.
  destruct (simplifyConstraint constraint (set_Worklist rest cs))
    as [kind cs1].
  cbn [snd] in Ka, Kr, Kg.
  assert (Ha1 : forall x, In x active -> In x (Constraints cs1)).
  { intros x Hx. apply Ka. cbn. now apply Ha. }
  assert (Hr1 : retiredOf cs1 = retired).
  { rewrite Kr. exact Hr. }
  assert (Hg1 : forall x, In x retiredSet -> In x active ->
                          inGraph x cs1 = false).
  { intros x Hx Hxa. apply Kg; [cbn; now apply Ha|]. now apply Hg. }
  clear Ka Kr Kg.
  destruct (recordResult constraint kind retiredSet cs1)
    as [[retiredSet1 cs2]|] eqn:Hrec; [|discriminate].
  assert (J : (forall x, In x active -> In x (Constraints cs2)) /\
              retiredOf cs2 = retired /\
              (forall x, In x retiredSet1 -> In x active ->
                         inGraph x cs2 = false) /\
              (kind = Error -> failedConstraint cs2 <> None)).
  { unfold recordResult in Hrec. destruct kind.
    - destruct (failedConstraint cs1) eqn:Ef; inversion Hrec; subst;
        repeat split; auto; cbn; congruence.
    - destruct (updSolverState _ cs1) as [cs1'|] eqn:Eu; [|discriminate].
      inversion Hrec; subst; clear Hrec.
      apply updSolverState_counter in Eu; [|reflexivity].
      destruct Eu as (E1 & E2 & E3 & _).
      assert (G : forall x, inGraph x cs1' = inGraph x cs1).
      { intros x. unfold inGraph. now rewrite E3. }
      repeat split; try discriminate.
      + intros x Hx. unfold removeFromGraph.
        destruct (CG cs1'); cbn; rewrite E1; now apply Ha1.
      + unfold removeFromGraph, retiredOf in *.
        destruct (CG cs1'); cbn; exact (eq_trans E2 Hr1).
      + intros x Hx Hxa. apply setVectorInsert_In in Hx.
        destruct Hx as [->|Hx].
        * apply (proj1 (inGraph_removeFromGraph constraint constraint cs1')).
        * apply (proj2 (inGraph_removeFromGraph constraint x cs1')).
          rewrite G. now apply Hg1.
    - destruct (updSolverState _ cs1) as [cs1'|] eqn:Eu; [|discriminate].
      inversion Hrec; subst; clear Hrec.
      apply updSolverState_counter in Eu; [|reflexivity].
      destruct Eu as (E1 & E2 & E3 & _).
      repeat split; try discriminate.
      + intros x Hx. rewrite E1. now apply Ha1.
      + congruence.
      + intros x Hx Hxa. unfold inGraph. rewrite E3. now apply Hg1. }
  destruct J as (Ha2 & Hr2 & Hg2 & _).
  destruct (failedConstraint (setInactive constraint cs2)); [discriminate|].
  destruct (worseThanBestSolution (setInactive constraint cs2)) eqn:Hworse.
  - inversion H; subst. repeat split; auto.
  - eapply IH; eauto.
Qed.

(** C9. In graph mode, when the loop ends because the current score is
    not better than the best score, [simplify] returns true and leaves
    every constraint that was reported solved in this pass where it was in
    the active list, although it is out of the constraint graph: the
    transfer to the retired list is not made, and the retired list is as
    it was. *)
Theorem simplify_pruned_skips_transfer (fuel : nat)
  (cs final : ConstraintSystem) (retiredSet : list ConstraintRef) :
  CG cs <> None ->
  simplifyWorklist simplifyConstraint fuel [] cs
    = Returned (ExitPruned, retiredSet, final) ->
  simplify simplifyConstraint addConstraint fuel cs = Returned (true, final) /\
  worseThanBestSolution final = true /\
  retiredOf final = retiredOf cs /\
  forall x, In x retiredSet -> In x (Constraints cs) ->
            In x (Constraints final) /\ inGraph x final = false.
Proof.
  intros Hcg H.
  destruct (simplifyWorklist_pruned_inv (Constraints cs) (retiredOf cs)
              fuel [] retiredSet cs final H)
    as (Ha & Hr & Hg & Hw); auto.
  { intros x []. }
  split.
  { eapply simplify_of_worklist; eauto. discriminate. }
  repeat split; auto.
Qed.

End PrunedProperties.

(** The first constraint is solved at a cost that reaches the best score:
    the pass is pruned, and the solved constraint 1 stays active, out of
    the graph. *)
Lemma simplify_pruned_witness :
  exists final,
    simplify solveAtCost neverAdd 3 graphSystem = Returned (true, final) /\
    Constraints final = [1; 2; 3] /\
    CG final = Some [2; 3] /\
    retiredOf final = [].
Proof.
  assert (E : exists final,
             simplifyWorklist solveAtCost 3 [] graphSystem
               = Returned (ExitPruned, [1], final) /\
             Constraints final = [1; 2; 3] /\
             CG final = Some [2; 3] /\
             retiredOf final = []).
  { eexists. split; [cbv; reflexivity|]. repeat split. }
  destruct E as (final & E & H1 & H2 & H3).
  exists final. split; [|auto].
  refine (proj1 (simplify_pruned_skips_transfer solveAtCost neverAdd
                   _ _ _ 3 graphSystem final [1] _ E)).
  - intros c cs x H. exact H.
  - intros c cs. reflexivity.
  - intros c cs x _ H. exact H.
  - discriminate.
Defined.

(** ** Solver scopes *)

Lemma Permutation_filter_compat {A : Type} (f : A -> bool) (l l' : list A) :
  Permutation l l' -> Permutation (filter f l) (filter f l').
Proof.
  induction 1 as [|x l l' _ IH|x y l|l l' l'' _ IH1 _ IH2]; cbn.
  - constructor.
  - destruct (f x); [now constructor | assumption].
  - destruct (f x), (f y); try apply Permutation_refl.
    apply perm_swap.
  - eapply Permutation_trans; eassumption.
Qed.

Lemma removeRef_Permutation (c : ConstraintRef) (l : list ConstraintRef) :
  In c l -> Permutation (c :: removeRef c l) l.
Proof.
  induction l as [|x l IH]; [contradiction|]. intros Hin. cbn.
  destruct (Nat.eqb_spec x c) as [->|Hne]; [apply Permutation_refl|].
  destruct Hin as [->|Hin]; [congruence|].
  eapply Permutation_trans; [apply perm_swap|].
  constructor. now apply IH.
Qed.

Lemma undo_ext (journal : list SavedTypeVariableBinding)
  (i1 i2 : TypeVariable -> ParentOrFixed) :
  (forall v, i1 v = i2 v) ->
  forall v, undo journal i1 v = undo journal i2 v.
Proof.
  unfold undo. revert i1 i2.
  induction (rev journal) as [|s l IH]; intros i1 i2 H v; cbn; [apply H|].
  apply IH. intros w. unfold restore. destruct (w =? savedTypeVar s); auto.
Qed.

Lemma undo_app (j1 j2 : list SavedTypeVariableBinding)
  (impl : TypeVariable -> ParentOrFixed) :
  undo (j1 ++ j2) impl = undo j1 (undo j2 impl).
Proof. unfold undo. now rewrite rev_app_distr, fold_left_app. Qed.

Lemma undo_nil (impl : TypeVariable -> ParentOrFixed) : undo [] impl = impl.
Proof. reflexivity. Qed.

Lemma notIn_true (F : list ConstraintRef) (c : ConstraintRef) :
  notIn F c = true <-> ~ In c F.
Proof.
  unfold notIn. rewrite negb_true_iff. apply memRef_false.
Qed.

Lemma filter_notIn_id (F l : list ConstraintRef) :
  (forall c, In c l -> ~ In c F) -> filter (notIn F) l = l.
Proof.
  induction l as [|x l IH]; intros H; cbn; [reflexivity|].
  assert (E : notIn F x = true) by (apply notIn_true, H; now left).
  rewrite E. f_equal. apply IH. intros c Hc. apply H. now right.
Qed.

Lemma filter_notIn_sub (F G l : list ConstraintRef) :
  incl G F -> filter (notIn F) (filter (notIn G) l) = filter (notIn F) l.
Proof.
  intros Hincl. induction l as [|x l IH]; cbn; [reflexivity|].
  destruct (notIn G x) eqn:EG; cbn.
  - destruct (notIn F x); [f_equal|]; exact IH.
  - assert (EF : notIn F x = false).
    { unfold notIn in *. apply negb_false_iff in EG. apply memRef_In in EG.
      apply negb_false_iff, memRef_In. now apply Hincl. }
    now rewrite EF.
Qed.

Lemma within_refl (F : list ConstraintRef) (d : nat) (cs : ConstraintSystem) :
  InScope d cs -> Within F d cs cs.
Proof.
  intros H. constructor.
  - exact H.
  - exists []. now rewrite app_nil_r.
  - exists []. rewrite app_nil_r. split; reflexivity.
  - exists []. rewrite app_nil_r. split; [reflexivity|].
    split; [apply Permutation_refl|]. intros c Hc _. now right.
  - exists []. now rewrite app_nil_r.
  - reflexivity.
  - apply incl_refl.
  - intros c Hc. now left.
Qed.

Lemma within_trans (F : list ConstraintRef) (d : nat)
  (cs0 cs1 cs2 : ConstraintSystem) :
  Within F d cs0 cs1 -> Within F d cs1 cs2 -> Within F d cs0 cs2.
Proof.
  intros [S1 [e1 T1] [j1 [J1 U1]] [p1 (R1 & P1 & Q1)] [r1 C1] O1 G1 M1]
         [S2 [e2 T2] [j2 [J2 U2]] [p2 (R2 & P2 & Q2)] [r2 C2] O2 G2 M2].
  constructor.
  - exact S2.
  - exists (e1 ++ e2). now rewrite T2, T1, app_assoc.
  - exists (j1 ++ j2). split; [now rewrite J2, J1, app_assoc|].
    intros v. rewrite undo_app, <- U1. now apply undo_ext.
  - exists (p2 ++ p1). split; [now rewrite R2, R1, app_assoc|]. split.
    + rewrite app_assoc, filter_app.
      eapply Permutation_trans;
        [apply Permutation_app_tail, P2|].
      now rewrite <- filter_app.
    + intros c Hc HF. rewrite app_assoc in Hc. apply in_app_or in Hc.
      destruct Hc as [Hc|Hc].
      * destruct (Q2 c Hc HF) as [H|H]; [now left|].
        destruct (Q1 c (in_or_app _ _ _ (or_introl H)) HF) as [H'|H'];
          [left; now apply G2 | now right].
      * destruct (Q1 c (in_or_app _ _ _ (or_intror Hc)) HF) as [H'|H'];
          [left; now apply G2 | now right].
  - exists (r1 ++ r2). now rewrite C2, C1, app_assoc.
  - intros a Ha. now rewrite O2, O1.
  - eapply incl_tran; eassumption.
  - intros c Hc. destruct (M2 c Hc) as [H|H]; [now apply M1 | now right].
Qed.

Ltac within_fields Ess :=
  constructor;
  unfold InScope, depthOf, savedOf, retiredOf, restrictionsOf,
    generatedPointerOf in *;
  cbn; rewrite ?Ess in *; cbn;
  [ repeat split; first [assumption | discriminate] | .. ].

Ltac grown :=
  first [ exists []; rewrite ?app_nil_r; reflexivity
        | eexists; reflexivity ].

Lemma insertGenerated_within F d c cs cs' :
  InScope d cs -> insertGenerated c cs = Some cs' -> In c F ->
  Within F d cs cs' /\ In c (generatedSets cs' d) /\
  Constraints cs' = Constraints cs.
Proof.
  intros (Hs & Hd & Hp) Hrun HF.
  unfold insertGenerated in Hrun.
  destruct (solverState cs) as [ss|] eqn:Ess; [|congruence].
  unfold depthOf, generatedPointerOf in *. rewrite Ess in *.
  rewrite Hp in Hrun. inversion Hrun; subst cs'; clear Hrun.
  split; [|split; [|reflexivity]].
  - within_fields Ess.
    + grown.
    + exists []. split; [now rewrite app_nil_r|]. intros v. reflexivity.
    + exists []. rewrite !app_nil_r. split; [reflexivity|].
      split; [apply Permutation_refl|]. intros x Hx _. now right.
    + grown.
    + intros a Ha. destruct (Nat.eqb_spec a d); [lia|reflexivity].
    + rewrite Nat.eqb_refl. destruct (memRef c _); [apply incl_refl|].
      now apply incl_appl.
    + rewrite Nat.eqb_refl. intros x Hx.
      destruct (memRef c _); [now left|].
      apply in_app_or in Hx. destruct Hx as [Hx|[<-|[]]]; auto.
  - cbn. rewrite Nat.eqb_refl. destruct (memRef c _) eqn:E.
    + now apply memRef_In.
    + apply in_or_app. right. now left.
Qed.

Lemma removeRef_incl c l x : In x (removeRef c l) -> In x l.
Proof.
  induction l as [|y l IH]; cbn; [auto|].
  destruct (y =? c); [now right|]. intros [->|H]; [now left|right; auto].
Qed.

Lemma runOp_primitive_within F d op cs cs' :
  (forall body, op <> OpScope body) ->
  InScope d cs -> runOp op cs = Some cs' -> incl (generatedBy op) F ->
  Within F d cs cs'.
Proof.
  intros Hprim Hin Hrun HF.
  pose proof Hin as (Hs & Hd & Hp).
  destruct (solverState cs) as [ss|] eqn:Ess; [|congruence].
  destruct op; cbn [runOp] in Hrun;
    try (unfold updSolverState in Hrun; rewrite Ess in Hrun);
    try (inversion Hrun; subst cs'; clear Hrun).
  - (* OpResolveOverload *)
    within_fields Ess; try grown; auto using incl_refl.
    + exists []. split; [now rewrite app_nil_r|]. reflexivity.
    + exists []. rewrite !app_nil_r. split; [reflexivity|].
      split; [apply Permutation_refl|]. intros x Hx _. now right.
  - (* OpAddTypeVariable *)
    within_fields Ess; try grown; auto using incl_refl.
    + exists []. split; [now rewrite app_nil_r|]. reflexivity.
    + exists []. rewrite !app_nil_r. split; [reflexivity|].
      split; [apply Permutation_refl|]. intros x Hx _. now right.
  - (* OpAssign *)
    within_fields Ess; try grown; auto using incl_refl.
    + exists [mkSavedBinding tv (typeVarImpl cs tv)].
      split; [reflexivity|]. intros v. unfold undo, restore. cbn.
      destruct (Nat.eqb_spec v tv) as [->|]; reflexivity.
    + exists []. rewrite !app_nil_r. split; [reflexivity|].
      split; [apply Permutation_refl|]. intros x Hx _. now right.
  - (* OpAddScore *)
    within_fields Ess; try grown; auto using incl_refl.
    + exists []. split; [now rewrite app_nil_r|]. reflexivity.
    + exists []. rewrite !app_nil_r. split; [reflexivity|].
      split; [apply Permutation_refl|]. intros x Hx _. now right.
  - (* OpAddRestriction *)
    within_fields Ess; try grown; auto using incl_refl.
    + exists []. split; [now rewrite app_nil_r|]. reflexivity.
    + exists []. rewrite !app_nil_r. split; [reflexivity|].
      split; [apply Permutation_refl|]. intros x Hx _. now right.
  - (* OpRetire *)
    destruct (memRef c (Constraints cs)) eqn:Em.
    + cbn in Hrun.
      inversion Hrun; subst cs'; clear Hrun. apply memRef_In in Em.
      within_fields Ess; try grown; auto using incl_refl.
      * exists []. split; [now rewrite app_nil_r|]. reflexivity.
      * exists [c]. split; [reflexivity|]. split.
        -- apply Permutation_filter_compat.
           eapply Permutation_trans; [|apply removeRef_Permutation, Em].
           apply Permutation_sym, Permutation_cons_append.
        -- intros x Hx _. right. apply in_app_or in Hx.
           destruct Hx as [Hx|[<-|[]]]; [|assumption].
           eapply removeRef_incl; eassumption.
    + inversion Hrun; subst cs'. now apply within_refl.
  - (* OpRetireAll *)
    within_fields Ess; try grown; auto using incl_refl.
    + exists []. split; [now rewrite app_nil_r|]. reflexivity.
    + exists (Constraints cs). split; [reflexivity|].
      split; [apply Permutation_refl|]. intros x Hx _. now right.
  - (* OpAddConstraint *)
    destruct (insertGenerated c cs) as [cs1|] eqn:Ei; [|discriminate].
    inversion Hrun; subst cs'; clear Hrun.
    assert (HcF : In c F) by (apply HF; now left).
    destruct (insertGenerated_within F d c cs cs1 Hin Ei HcF)
      as (W & Hgen & Hc).
    destruct W as [S1 [e1 T1] [j1 [J1 U1]] [p1 (R1 & P1 & Q1)] [r1 C1]
                      O1 G1 M1].
    constructor; auto.
    + exists e1. exact T1.
    + exists j1. split; assumption.
    + exists p1. split; [exact R1|]. cbn. split.
      * rewrite <- app_assoc, filter_app. cbn.
        assert (E : notIn F c = false).
        { unfold notIn. apply negb_false_iff. now apply memRef_In. }
        rewrite E. cbn. now rewrite <- filter_app.
      * intros x Hx HxF. rewrite <- app_assoc in Hx.
        apply in_app_or in Hx. destruct Hx as [Hx|Hx].
        -- apply Q1; [apply in_or_app; now left | assumption].
        -- cbn in Hx. destruct Hx as [<-|Hx]; [now left|].
           apply Q1; [apply in_or_app; now right | assumption].
    + exists r1. exact C1.
  - (* OpGenerated *)
    apply (insertGenerated_within F d c cs cs'); auto.
    apply HF. now left.
  - (* OpFail *)
    destruct (failedConstraint cs); inversion Hrun; subst cs';
      [now apply within_refl|].
    within_fields Ess; try grown; auto using incl_refl.
    + exists []. split; [now rewrite app_nil_r|]. reflexivity.
    + exists []. rewrite !app_nil_r. split; [reflexivity|].
      split; [apply Permutation_refl|]. intros x Hx _. now right.
  - (* OpRecordBestScore *)
    within_fields Ess; try grown; auto using incl_refl.
    + exists []. split; [now rewrite app_nil_r|]. reflexivity.
    + exists []. rewrite !app_nil_r. split; [reflexivity|].
      split; [apply Permutation_refl|]. intros x Hx _. now right.
  - (* OpScope *)
    exfalso. now apply (Hprim body).
Qed.

Lemma firstn_length_app {A : Type} (a b : list A) :
  firstn (length a) (a ++ b) = a.
Proof. induction a; cbn; [now destruct b | now f_equal]. Qed.

Lemma skipn_length_app {A : Type} (a b : list A) :
  skipn (length a) (a ++ b) = b.
Proof. induction a; cbn; auto. Qed.

Lemma truncate_app {A : Type} (a b : list A) :
  truncate (a ++ b) (length a) = Some a.
Proof.
  unfold truncate. rewrite length_app.
  destruct (Nat.leb_spec (length a) (length a + length b)); [|lia].
  now rewrite firstn_length_app.
Qed.

Lemma SolverScope_enter_facts cs0 sc cs1 :
  SolverScope_enter cs0 = Some (sc, cs1) ->
  InScope (S (depthOf cs0)) cs1 /\
  sc = mkSolverScope (resolvedOverloadSets cs0) (length (TypeVariables cs0))
         (length (savedOf cs0)) (length (retiredOf cs0))
         (length (restrictionsOf cs0)) (generatedPointerOf cs0)
         (S (depthOf cs0)) (CurrentScore cs0) /\
  TypeVariables cs1 = TypeVariables cs0 /\
  typeVarImpl cs1 = typeVarImpl cs0 /\
  Constraints cs1 = Constraints cs0 /\
  savedOf cs1 = savedOf cs0 /\
  retiredOf cs1 = retiredOf cs0 /\
  restrictionsOf cs1 = restrictionsOf cs0 /\
  generatedSets cs1 (S (depthOf cs0)) = [] /\
  (forall a, a <> S (depthOf cs0) ->
             generatedSets cs1 a = generatedSets cs0 a).
Proof.
  unfold SolverScope_enter, InScope, depthOf, savedOf, retiredOf,
    restrictionsOf, generatedPointerOf.
  destruct (solverState cs0) as [ss0|]; [|discriminate].
  intros H. inversion H; subst; clear H. cbn.
  rewrite Nat.eqb_refl.
  repeat split; try discriminate.
  intros a Ha. apply Nat.eqb_neq in Ha. now rewrite Ha.
Qed.

Lemma leb_length_app_l {A : Type} (a b : list A) :
  (length a <=? length (a ++ b)) = true.
Proof. apply Nat.leb_le. rewrite length_app. lia. Qed.

Lemma leb_length_app_r {A : Type} (a b : list A) :
  (length b <=? length (a ++ b)) = true.
Proof. apply Nat.leb_le. rewrite length_app. lia. Qed.

Lemma restoreTypeVariableBindings_app impl s0 j :
  restoreTypeVariableBindings (length (s0 ++ j) - length s0) impl (s0 ++ j)
  = (undo j impl, s0).
Proof.
  unfold restoreTypeVariableBindings, undo.
  replace (length (s0 ++ j) - length s0) with (length j)
    by (rewrite length_app; lia).
  replace (length (s0 ++ j) - length j) with (length s0)
    by (rewrite length_app; lia).
  rewrite firstn_length_app, rev_app_distr.
  rewrite <- (length_rev j) at 1. now rewrite firstn_length_app.
Qed.

Lemma firstn_newly_retired {A : Type} (pre r0 : list A) :
  firstn (length (pre ++ r0) - length r0) (pre ++ r0) = pre /\
  skipn (length (pre ++ r0) - length r0) (pre ++ r0) = r0.
Proof.
  replace (length (pre ++ r0) - length r0) with (length pre)
    by (rewrite length_app; lia).
  split; [apply firstn_length_app | apply skipn_length_app].
Qed.

Lemma scope_roundtrip F cs0 sc cs1 cs2 :
  SolverScope_enter cs0 = Some (sc, cs1) ->
  Within F (S (depthOf cs0)) cs1 cs2 ->
  exists cs3,
    SolverScope_exit sc cs2 = Some cs3 /\
    solverState cs3 <> None /\
    depthOf cs3 = depthOf cs0 /\
    generatedPointerOf cs3 = generatedPointerOf cs0 /\
    resolvedOverloadSets cs3 = resolvedOverloadSets cs0 /\
    TypeVariables cs3 = TypeVariables cs0 /\
    savedOf cs3 = savedOf cs0 /\
    (forall v, typeVarImpl cs3 v = typeVarImpl cs0 v) /\
    retiredOf cs3 = retiredOf cs0 /\
    restrictionsOf cs3 = restrictionsOf cs0 /\
    CurrentScore cs3 = CurrentScore cs0 /\
    failedConstraint cs3 = None /\
    (exists newlyRetired,
        retiredOf cs2 = newlyRetired ++ retiredOf cs0 /\
        Constraints cs3 =
          filter (notIn (generatedSets cs2 (S (depthOf cs0))))
                 (Constraints cs2 ++ newlyRetired)) /\
    (forall c, In c (generatedSets cs2 (S (depthOf cs0))) ->
               ~ In c (Constraints cs3)) /\
    Permutation (filter (notIn F) (Constraints cs3))
                (filter (notIn F) (Constraints cs0)) /\
    (forall c, In c (Constraints cs3) -> In c F -> In c (Constraints cs0)) /\
    (forall a, a <= depthOf cs0 -> generatedSets cs3 a = generatedSets cs0 a).
Proof.
  intros Henter W.
  destruct (SolverScope_enter_facts _ _ _ Henter)
    as (_ & Esc & E1 & E2 & E3 & E4 & E5 & E6 & E7 & E8).
  destruct W as [(S2 & D2 & P2) [extra T2] [j [J2 U2]] [pre (R2 & Pm & Q2)]
                   [r C2] O2 G2 M2].
  rewrite E1 in T2. rewrite E4 in J2. rewrite E5 in R2. rewrite E6 in C2.
  rewrite E3 in Pm, Q2. rewrite E7 in M2. rewrite E2 in U2.
  unfold SolverScope_enter in Henter.
  destruct (solverState cs0) as [ss0|] eqn:Ess0; [|discriminate].
  clear Henter.
  unfold depthOf, savedOf, retiredOf, restrictionsOf, generatedPointerOf in *.
  rewrite ?Ess0 in *.
  destruct (solverState cs2) as [ss2|] eqn:Ess2; [|congruence].
  assert (HgenF : incl (generatedSets cs2 (S (depth ss0))) F).
  { intros c Hc. destruct (M2 c Hc) as [[]|H]. exact H. }
  assert (Hexit : SolverScope_exit sc cs2 =
    Some (set_solverState
            (Some (set_generatedConstraints (generatedConstraints ss0)
                     (set_constraintRestrictions (constraintRestrictions ss0)
                        (set_retiredConstraints (retiredConstraints ss0)
                           (set_savedBindings (savedBindings ss0)
                              (set_depth (depth ss0) ss2))))))
            (set_failedConstraint None
               (set_CurrentScore (CurrentScore cs0)
                  (set_Constraints
                     (filter (notIn (generatedSets cs2 (S (depth ss0))))
                             (Constraints cs2 ++ pre))
                     (set_typeVarImpl (undo j (typeVarImpl cs2))
                        (set_TypeVariables (TypeVariables cs0)
                           (set_resolvedOverloadSets
                              (resolvedOverloadSets cs0) cs2)))))))).
  { unfold SolverScope_exit. rewrite Ess2, Esc.
    cbn [scopeResolvedOverloadSets numTypeVariables numSavedBindings
         firstRetired numConstraintRestrictions oldGeneratedConstraints
         scopeGeneratedConstraints PreviousScore].
    cbn [TypeVariables set_resolvedOverloadSets].
    rewrite T2, truncate_app.
    cbn [savedBindings set_depth].
    rewrite J2, leb_length_app_l. cbn [negb].
    cbn [typeVarImpl set_TypeVariables set_resolvedOverloadSets].
    rewrite restoreTypeVariableBindings_app.
    cbn [retiredConstraints set_savedBindings set_depth].
    rewrite R2, leb_length_app_r. cbn [negb].
    destruct (firstn_newly_retired pre (retiredConstraints ss0)) as [F1 F2].
    rewrite F1, F2.
    cbn [constraintRestrictions set_retiredConstraints set_savedBindings
         set_depth].
    rewrite C2, truncate_app. rewrite D2. reflexivity. }
  eexists. split; [exact Hexit|]. cbn.
  split; [discriminate|].
  repeat split; auto.
  - exists pre. split; [exact R2 | reflexivity].
  - intros c Hc Hin. apply filter_In in Hin. destruct Hin as [_ Hn].
    apply notIn_true in Hn. contradiction.
  - rewrite filter_notIn_sub by assumption. exact Pm.
  - intros c Hc HcF. apply filter_In in Hc. destruct Hc as [Hc Hn].
    apply notIn_true in Hn.
    destruct (Q2 c Hc HcF) as [H|H]; [contradiction | assumption].
  - intros a Ha. rewrite O2 by lia. apply E8. lia.
Qed.

Lemma runOp_scope_unfold body cs :
  runOp (OpScope body) cs =
  match SolverScope_enter cs with
  | None => None
  | Some (scope, cs1) =>
      match runOps body cs1 with
      | Some cs2 => SolverScope_exit scope cs2
      | None => None
      end
  end.
Proof. reflexivity. Qed.

Lemma opSize_pos op : 1 <= opSize op.
Proof. destruct op; cbn; lia. Qed.

Lemma runOp_within_sized (n : nat) :
  forall op F d cs cs',
    opSize op <= n ->
    InScope d cs -> runOp op cs = Some cs' -> incl (generatedBy op) F ->
    Within F d cs cs'.
Proof.
  induction n as [|n IH]; intros op F d cs cs' Hsize Hin Hrun HF.
  { pose proof (opSize_pos op). lia. }
  destruct op;
    try (eapply runOp_primitive_within; [ | eassumption..];
         intros; discriminate).
  assert (L : forall ops,
             fold_right (fun o k => opSize o + k) 0 ops <= n ->
             forall F d cs cs',
               InScope d cs -> runOps ops cs = Some cs' ->
               incl (flat_map generatedBy ops) F -> Within F d cs cs').
  { clear - IH. induction ops as [|op ops IHops];
      intros Hs F d cs cs' Hin Hrun HF; cbn in *.
    - inversion Hrun; subst. now apply within_refl.
    - destruct (runOp op cs) as [cs1|] eqn:E; [|discriminate].
      assert (W1 : Within F d cs cs1).
      { apply (IH op); auto; [lia|].
        intros c Hc. apply HF. apply in_or_app. now left. }
      eapply within_trans; [exact W1|].
      apply IHops; auto; [lia | apply W1 |].
      intros c Hc. apply HF. apply in_or_app. now right. }
  cbn in Hsize. rewrite runOp_scope_unfold in Hrun.
  destruct (SolverScope_enter cs) as [[sc cs1]|] eqn:Eenter; [|discriminate].
  destruct (runOps body cs1) as [cs2|] eqn:Ebody; [|discriminate].
  destruct (SolverScope_enter_facts _ _ _ Eenter) as (Hin1 & _).
  assert (W : Within F (S (depthOf cs)) cs1 cs2).
  { apply (L body); auto. lia. }
  destruct (scope_roundtrip F cs sc cs1 cs2 Eenter W)
    as (cs3 & Hexit & R1 & R2 & R3 & R4 & R5 & R6 & R7 & R8 & R9 & R10 &
        R11 & R12 & R13 & R14 & R15 & R16).
  rewrite Hexit in Hrun. inversion Hrun; subst cs'; clear Hrun.
  destruct Hin as (Hs & Hd & Hp).
  constructor.
  - repeat split; congruence.
  - exists []. now rewrite app_nil_r.
  - exists []. rewrite app_nil_r. split; [assumption|]. exact R7.
  - exists []. rewrite !app_nil_r. repeat split; auto.
  - exists []. now rewrite app_nil_r.
  - intros a Ha. apply R16. lia.
  - rewrite R16 by lia. apply incl_refl.
  - intros c Hc. left. rewrite R16 in Hc by lia. exact Hc.
Qed.

Lemma runOp_within op F d cs cs' :
  InScope d cs -> runOp op cs = Some cs' -> incl (generatedBy op) F ->
  Within F d cs cs'.
Proof. apply (runOp_within_sized (opSize op)). apply le_n. Qed.

Lemma runOps_within ops F d cs cs' :
  InScope d cs -> runOps ops cs = Some cs' ->
  incl (flat_map generatedBy ops) F -> Within F d cs cs'.
Proof.
  revert cs. induction ops as [|op ops IH]; intros cs Hin Hrun HF; cbn in *.
  - inversion Hrun; subst. now apply within_refl.
  - destruct (runOp op cs) as [cs1|] eqn:E; [|discriminate].
    assert (W1 : Within F d cs cs1).
    { apply (runOp_within op); auto.
      intros c Hc. apply HF. apply in_or_app. now left. }
    eapply within_trans; [exact W1|].
    apply IH; auto; [apply W1|].
    intros c Hc. apply HF. apply in_or_app. now right.
Qed.

Lemma runOps_generatedHere ops d cs cs' c :
  InScope d cs -> runOps ops cs = Some cs' ->
  In c (flat_map generatedHere ops) -> In c (generatedSets cs' d).
Proof.
  revert cs. induction ops as [|op ops IH]; intros cs Hin Hrun Hc;
    cbn in *; [contradiction|].
  destruct (runOp op cs) as [cs1|] eqn:E; [|discriminate].
  pose proof (runOp_within op (generatedBy op) d cs cs1 Hin E
                (incl_refl _)) as W1.
  apply in_app_or in Hc. destruct Hc as [Hc|Hc].
  - pose proof (runOps_within ops (flat_map generatedBy ops) d cs1 cs'
                  (within_scope _ _ _ _ W1) Hrun (incl_refl _)) as W2.
    apply (within_set_grows _ _ _ _ W2).
    destruct op; cbn in Hc; try contradiction;
      destruct Hc as [<-|[]]; cbn [runOp] in E.
    + destruct (insertGenerated c0 cs) as [cs0'|] eqn:Ei; [|discriminate].
      inversion E; subst; clear E. cbn.
      now destruct (insertGenerated_within [c0] d c0 cs cs0' Hin Ei
                      (or_introl eq_refl)) as (_ & H & _).
    + now destruct (insertGenerated_within [c0] d c0 cs cs1 Hin E
                      (or_introl eq_refl)) as (_ & H & _).
  - apply (IH cs1); auto. apply W1.
Qed.

(** C1, as the code has it. A scope that is opened, inside which the
    solver mutates the system, and that is then exited (on any branch, a
    failing one included) restores: the head of the resolved overloads,
    the list of
    type variables (hence its length), the saved-bindings journal and,
    through its replay in reverse, every binding, the retired list, whose
    new constraints are moved back to the end of the active list, from
    which the constraints generated inside the scope are erased, the
    restriction table, the generated-constraints pointer, the score and the
    depth; the failed constraint is cleared. The active list is not
    restored as a list: when the generated constraints are new, it is a
    permutation of what it was, the constraints retired inside the scope
    standing at its end. *)
Theorem scope_exit_restores (cs0 cs1 cs2 : ConstraintSystem)
  (scope : SolverScope) (ops : list ScopeOp) :
  SolverScope_enter cs0 = Some (scope, cs1) ->
  runOps ops cs1 = Some cs2 ->
  exists cs3,
    SolverScope_exit scope cs2 = Some cs3 /\
    resolvedOverloadSets cs3 = resolvedOverloadSets cs0 /\
    TypeVariables cs3 = TypeVariables cs0 /\
    length (TypeVariables cs3) = numTypeVariables scope /\
    savedOf cs3 = savedOf cs0 /\
    (forall v, typeVarImpl cs3 v = typeVarImpl cs0 v) /\
    retiredOf cs3 = retiredOf cs0 /\
    (exists newlyRetired,
        retiredOf cs2 = newlyRetired ++ retiredOf cs0 /\
        Constraints cs3 =
          filter (notIn (generatedSets cs2 (scopeGeneratedConstraints scope)))
                 (Constraints cs2 ++ newlyRetired)) /\
    (forall c, In c (generatedSets cs2 (scopeGeneratedConstraints scope)) \/
               In c (flat_map generatedHere ops) ->
               ~ In c (Constraints cs3)) /\
    restrictionsOf cs3 = restrictionsOf cs0 /\
    length (restrictionsOf cs3) = numConstraintRestrictions scope /\
    generatedPointerOf cs3 = generatedPointerOf cs0 /\
    CurrentScore cs3 = CurrentScore cs0 /\
    failedConstraint cs3 = None /\
    depthOf cs3 = depthOf cs0 /\
    ((forall c, In c (flat_map generatedBy ops) ->
                ~ In c (Constraints cs0)) ->
     Permutation (Constraints cs3) (Constraints cs0)).
Proof.
  intros Henter Hrun.
  destruct (SolverScope_enter_facts _ _ _ Henter) as (Hin1 & Esc & _).
  pose proof (runOps_within ops (flat_map generatedBy ops) _ cs1 cs2
                Hin1 Hrun (incl_refl _)) as W.
  destruct (scope_roundtrip _ cs0 scope cs1 cs2 Henter W)
    as (cs3 & Hexit & R1 & R2 & R3 & R4 & R5 & R6 & R7 & R8 & R9 & R10 &
        R11 & R12 & R13 & R14 & R15 & R16).
  assert (Ea : scopeGeneratedConstraints scope = S (depthOf cs0))
    by (rewrite Esc; reflexivity).
  exists cs3. rewrite Ea.
  split; [exact Hexit|].
  split; [exact R4|]. split; [exact R5|].
  split; [rewrite R5, Esc; reflexivity|].
  split; [exact R6|]. split; [exact R7|]. split; [exact R8|].
  split; [exact R12|].
  split.
  { intros c [Hc|Hc]; [now apply R13|]. apply R13.
    eapply runOps_generatedHere; eauto. }
  split; [exact R9|]. split; [rewrite R9, Esc; reflexivity|].
  split; [exact R3|]. split; [exact R10|]. split; [exact R11|].
  split; [exact R2|].
  intros Hfresh.
  rewrite <- (filter_notIn_id (flat_map generatedBy ops) (Constraints cs3)).
  - rewrite <- (filter_notIn_id (flat_map generatedBy ops) (Constraints cs0)).
    + exact R14.
    + intros c Hc HF. now apply (Hfresh c).
  - intros c Hc HF. apply (Hfresh c HF). now apply R15.
Qed.

(** The scope around [exampleBranch], opened on [graphSystem]: the active
    constraints 1, 2 and 3 come back, the retired constraint 1 at the end,
    and the generated constraint 9 is gone. *)
Lemma scope_exit_restores_witness :
  exists scope cs1 cs2 cs3,
    SolverScope_enter graphSystem = Some (scope, cs1) /\
    runOps exampleBranch cs1 = Some cs2 /\
    SolverScope_exit scope cs2 = Some cs3 /\
    Constraints cs2 = [2; 3; 9] /\
    Constraints cs3 = [2; 3; 1] /\
    retiredOf cs3 = retiredOf graphSystem /\
    savedOf cs3 = savedOf graphSystem /\
    typeVarImpl cs3 0 = Parent 0 /\
    failedConstraint cs3 = None.
Proof.
  assert (E : exists scope cs1 cs2,
             SolverScope_enter graphSystem = Some (scope, cs1) /\
             runOps exampleBranch cs1 = Some cs2 /\
             Constraints cs2 = [2; 3; 9] /\
             retiredOf cs2 = [1] /\
             generatedSets cs2 (scopeGeneratedConstraints scope) = [9]).
  { do 3 eexists. split; [cbv; reflexivity|].
    split; [cbv; reflexivity|]. repeat split. }
  destruct E as (scope & cs1 & cs2 & E1 & E2 & E3 & E4 & E5).
  destruct (scope_exit_restores graphSystem cs1 cs2 scope exampleBranch
              E1 E2)
    as (cs3 & H1 & _ & _ & _ & H5 & H6 & H7 & (pre & H8 & H9) & _ & _ & _ &
        _ & _ & H14 & _).
  exists scope, cs1, cs2, cs3.
  repeat split; try assumption.
  - rewrite H9, E3, E5. rewrite E4 in H8. cbn in H8.
    rewrite app_nil_r in H8. subst pre. reflexivity.
  - apply H6.
Defined.

(** C1 as stated fails for the active list: a constraint retired inside
    the scope returns at the end of the list, so that the list [1; 2; 3]
    comes back as [2; 3; 1], which is not the list before the scope. *)
Lemma scope_exit_reorders_active :
  (exists scope cs1 cs2 cs3,
     SolverScope_enter graphSystem = Some (scope, cs1) /\
     runOps [OpRetire 1] cs1 = Some cs2 /\
     SolverScope_exit scope cs2 = Some cs3 /\
     Constraints graphSystem = [1; 2; 3] /\
     Constraints cs3 = [2; 3; 1]) /\
  ~ (forall (cs0 cs1 cs2 cs3 : ConstraintSystem) (scope : SolverScope)
            (ops : list ScopeOp),
        SolverScope_enter cs0 = Some (scope, cs1) ->
        runOps ops cs1 = Some cs2 ->
        SolverScope_exit scope cs2 = Some cs3 ->
        Constraints cs3 = Constraints cs0).
Proof.
  assert (E : exists scope cs1 cs2 cs3,
             SolverScope_enter graphSystem = Some (scope, cs1) /\
             runOps [OpRetire 1] cs1 = Some cs2 /\
             SolverScope_exit scope cs2 = Some cs3 /\
             Constraints graphSystem = [1; 2; 3] /\
             Constraints cs3 = [2; 3; 1]).
  { do 4 eexists. split; [cbv; reflexivity|]. split; [cbv; reflexivity|].
    split; [cbv; reflexivity|]. split; reflexivity. }
  split; [exact E|].
  destruct E as (scope & cs1 & cs2 & cs3 & H1 & H2 & H3 & H4 & H5).
  intros H. specialize (H graphSystem cs1 cs2 cs3 scope [OpRetire 1]
                          H1 H2 H3).
  rewrite H4, H5 in H. discriminate H.
Qed.

(** * Further properties *)

(** ** The combinations of partial solutions *)

Lemma updateAt_app_here {A : Type} (f : A -> A) (pre : list A) (x : A)
  (post : list A) :
  updateAt (length pre) f (pre ++ x :: post) = pre ++ f x :: post.
Proof. induction pre as [|y pre IH]; cbn; [reflexivity | now rewrite IH]. Qed.

Lemma zeroFrom_zero (l : list nat) : zeroFrom 0 l = repeat 0 (length l).
Proof. induction l as [|x l IH]; cbn; [reflexivity | now rewrite IH]. Qed.

Lemma zeroFrom_app_here (pre post : list nat) :
  zeroFrom (length pre) (pre ++ post) = pre ++ repeat 0 (length post).
Proof.
  induction pre as [|y pre IH]; cbn.
  - destruct post; cbn; [reflexivity|]. now rewrite zeroFrom_zero.
  - now rewrite IH.
Qed.

Lemma nth_app_here {A : Type} (pre : list A) (x : A) (post : list A) (d : A) :
  nth (length pre) (pre ++ x :: post) d = x.
Proof. induction pre; cbn; auto. Qed.

Lemma successor_snoc (spre pre : list nat) (s x : nat) :
  length pre = length spre ->
  successor (spre ++ [s]) (pre ++ [x]) =
  if S x <? s then Some (pre ++ [S x])
  else match successor spre pre with
       | Some next => Some (next ++ [0])
       | None => None
       end.
Proof.
  revert pre. induction spre as [|s0 spre IH]; intros pre Hlen;
    destruct pre as [|i pre]; try discriminate;
    cbn [successor app length repeat].
  - destruct (S x <? s); reflexivity.
  - rewrite IH by (cbn in Hlen; lia).
    destruct (S x <? s); [reflexivity|].
    destruct (successor spre pre) as [next|]; [reflexivity|].
    rewrite length_app. cbn [length]. rewrite Nat.add_1_r.
    destruct (S i <? s0); [|reflexivity].
    cbn [app]. do 2 f_equal. cbn [repeat]. apply repeat_cons.
Qed.

Lemma repeat_zero_app (a b : nat) :
  repeat 0 a ++ repeat 0 b = repeat 0 (a + b).
Proof. symmetry. apply repeat_app. Qed.

(** The loop on [n] at the component [n]: the components from [n] on have
    been zeroed, those before are below their sizes. *)
Lemma nextCombination_successor (n : nat) :
  forall spre pre spost,
    length spre = n -> length pre = n ->
    fst (nextCombination n (spre ++ spost)
           (pre ++ repeat 0 (length spost))) =
      match successor spre pre with
      | Some _ => false
      | None => 0 <? n
      end /\
    forall next, successor spre pre = Some next ->
      snd (nextCombination n (spre ++ spost)
             (pre ++ repeat 0 (length spost))) =
      next ++ repeat 0 (length spost).
Proof.
  induction n as [|m IH]; intros spre pre spost Hs Hp.
  - destruct spre, pre; try discriminate. cbn. split; [reflexivity|].
    intros next H. discriminate.
  - destruct (exists_last (l := spre)) as (spre' & s & ->);
      [intros ->; discriminate|].
    destruct (exists_last (l := pre)) as (pre' & x & ->);
      [intros ->; discriminate|].
    rewrite length_app in Hs, Hp. cbn in Hs, Hp.
    assert (Hs' : length spre' = m) by lia.
    assert (Hp' : length pre' = m) by lia.
    rewrite successor_snoc by congruence.
    cbn [nextCombination].
    rewrite <- !app_assoc. cbn [app].
    set (Z := repeat 0 (length spost)).
    assert (U : updateAt m S (pre' ++ x :: Z) = pre' ++ S x :: Z)
      by (rewrite <- Hp'; apply updateAt_app_here).
    assert (N1 : nth m (pre' ++ S x :: Z) 0 = S x)
      by (rewrite <- Hp'; apply nth_app_here).
    assert (N2 : nth m (spre' ++ s :: spost) 0 = s)
      by (rewrite <- Hs'; apply nth_app_here).
    assert (Zf : zeroFrom m (pre' ++ S x :: Z) =
                 pre' ++ repeat 0 (length (s :: spost))).
    { rewrite <- Hp', zeroFrom_app_here. cbn [length]. unfold Z.
      now rewrite repeat_length. }
    rewrite U, N1, N2.
    destruct (S x <? s) eqn:E.
    + cbn [fst snd]. split; [reflexivity|].
      intros next [= <-]. rewrite <- app_assoc. reflexivity.
    + destruct (Nat.eqb_spec (S m) 1) as [E1|E1].
      * assert (Hm : m = 0) by lia. subst m.
        destruct spre', pre'; try discriminate. cbn.
        split; [reflexivity|]. intros next Hn. discriminate.
      * rewrite Zf.
        specialize (IH spre' pre' (s :: spost) Hs' Hp').
        destruct IH as [IH1 IH2]. rewrite IH1.
        destruct (successor spre' pre') as [p|].
        -- split; [reflexivity|]. intros next [= <-].
           rewrite (IH2 p eq_refl). rewrite <- app_assoc. reflexivity.
        -- split; [|intros next H; discriminate].
           destruct m; [lia | reflexivity].
Qed.

Lemma validIndices_zeros (sizes : list nat) :
  Forall (fun s => 0 < s) sizes ->
  validIndices sizes (repeat 0 (length sizes)) /\
  combinationNumber sizes (repeat 0 (length sizes)) = 0.
Proof.
  induction 1 as [|s sizes Hs _ [IH1 IH2]]; cbn.
  - split; [constructor | reflexivity].
  - split; [now constructor | exact IH2].
Qed.

Lemma validIndices_positive (sizes indices : list nat) :
  validIndices sizes indices ->
  Forall (fun s => 0 < s) sizes /\ length indices = length sizes.
Proof.
  induction 1 as [|i s indices sizes Hi _ [IH1 IH2]]; cbn.
  - split; [constructor | reflexivity].
  - split; [constructor; [lia | assumption] | now f_equal].
Qed.

Lemma combinationNumber_bound (sizes indices : list nat) :
  validIndices sizes indices ->
  combinationNumber sizes indices < fold_right Nat.mul 1 sizes.
Proof.
  induction 1 as [|i s indices sizes Hi _ IH]; cbn; [lia|]. nia.
Qed.

Lemma successor_spec (sizes indices : list nat) :
  validIndices sizes indices ->
  match successor sizes indices with
  | Some next =>
      validIndices sizes next /\
      combinationNumber sizes next = S (combinationNumber sizes indices)
  | None =>
      S (combinationNumber sizes indices) = fold_right Nat.mul 1 sizes
  end.
Proof.
  induction 1 as [|i s indices sizes Hi Hv IH]; cbn [successor]; [reflexivity|].
  destruct (successor sizes indices) as [next|].
  - destruct IH as [V E]. split; [now constructor|].
    cbn. rewrite E. lia.
  - destruct (validIndices_positive _ _ Hv) as [Hpos Hlen].
    destruct (validIndices_zeros sizes Hpos) as [Vz Ez].
    rewrite Hlen.
    destruct (Nat.ltb_spec (S i) s) as [Hlt|Hge].
    + split; [now constructor|]. cbn. rewrite Ez. lia.
    + cbn. assert (s = S i) by lia. subst s. lia.
Qed.

Lemma combinationNumber_injective (sizes a b : list nat) :
  validIndices sizes a -> validIndices sizes b ->
  combinationNumber sizes a = combinationNumber sizes b -> a = b.
Proof.
  intros Ha. revert b.
  induction Ha as [|i s a sizes Hi Ha IH]; intros b Hb E;
    inversion Hb as [|j s' b' sizes' Hj Hb']; subst; [reflexivity|].
  cbn in E.
  pose proof (combinationNumber_bound _ _ Ha) as Ba.
  pose proof (combinationNumber_bound _ _ Hb') as Bb.
  assert (Eij : i = j) by nia. subst j.
  f_equal. apply IH; [assumption | lia].
Qed.

Lemma combinations_from (fuel : nat) (sizes indices : list nat) :
  sizes <> [] ->
  validIndices sizes indices ->
  fold_right Nat.mul 1 sizes - combinationNumber sizes indices <= fuel ->
  exists L,
    combinations fuel sizes indices = Some L /\
    map (combinationNumber sizes) L =
      seq (combinationNumber sizes indices)
          (fold_right Nat.mul 1 sizes - combinationNumber sizes indices) /\
    Forall (validIndices sizes) L.
Proof.
  intros Hne. revert indices.
  induction fuel as [|fuel IH]; intros indices Hv Hfuel.
  { pose proof (combinationNumber_bound _ _ Hv). lia. }
  cbn [combinations].
  destruct (validIndices_positive _ _ Hv) as [_ Hlen].
  pose proof (nextCombination_successor (length sizes) sizes indices []
                eq_refl Hlen) as [Hd Hn].
  cbn [length repeat] in Hd, Hn. rewrite !app_nil_r in Hd, Hn.
  pose proof (successor_spec _ _ Hv) as Hs.
  pose proof (combinationNumber_bound _ _ Hv) as Hb.
  destruct (nextCombination (length sizes) sizes indices) as [done next].
  cbn [fst snd] in Hd, Hn.
  destruct (successor sizes indices) as [next'|].
  - subst done. specialize (Hn next' eq_refl). rewrite app_nil_r in Hn.
    subst next. destruct Hs as [Vn En].
    destruct (IH next' Vn) as (L & EL & ML & VL); [lia|].
    rewrite EL. cbn [option_map]. exists (indices :: L).
    split; [reflexivity|]. split; [|now constructor].
    cbn [map]. rewrite ML, En.
    replace (fold_right Nat.mul 1 sizes - combinationNumber sizes indices)
      with (S (fold_right Nat.mul 1 sizes -
               S (combinationNumber sizes indices)))
      by (pose proof (combinationNumber_bound _ _ Vn); lia).
    reflexivity.
  - assert (Hk : (0 <? length sizes) = true).
    { destruct sizes; [congruence | reflexivity]. }
    rewrite Hk in Hd. subst done.
    exists [indices]. split; [reflexivity|]. split; [|now constructor].
    replace (fold_right Nat.mul 1 sizes - combinationNumber sizes indices)
      with 1 by lia.
    reflexivity.
Qed.

(** X1. The loop over the combinations of partial solutions, started at the
    indices 0 with at least one component and no empty set of partial
    solutions, stops and visits every combination of indices below the
    sizes exactly once, in lexicographic order; their number is the product
    of the sizes. *)
Theorem combinations_enumerate (fuel : nat) (sizes : list nat) :
  sizes <> [] ->
  Forall (fun s => 0 < s) sizes ->
  fold_right Nat.mul 1 sizes <= fuel ->
  exists L,
    combinations fuel sizes (repeat 0 (length sizes)) = Some L /\
    length L = fold_right Nat.mul 1 sizes /\
    NoDup L /\
    (forall indices, In indices L <-> validIndices sizes indices) /\
    map (combinationNumber sizes) L = seq 0 (fold_right Nat.mul 1 sizes).
Proof.
  intros Hne Hpos Hfuel.
  destruct (validIndices_zeros sizes Hpos) as [Vz Ez].
  destruct (combinations_from fuel sizes (repeat 0 (length sizes)) Hne Vz)
    as (L & EL & ML & VL); [lia|].
  rewrite Ez, Nat.sub_0_r in ML.
  exists L. split; [exact EL|].
  split; [rewrite <- (length_map (combinationNumber sizes)), ML;
          apply length_seq|].
  split.
  { apply (NoDup_map_inv (combinationNumber sizes)). rewrite ML.
    apply seq_NoDup. }
  split; [|exact ML].
  intros indices. split.
  - intros Hin. rewrite Forall_forall in VL. now apply VL.
  - intros Hv.
    pose proof (combinationNumber_bound _ _ Hv) as Hb.
    assert (Hin : In (combinationNumber sizes indices)
                     (map (combinationNumber sizes) L)).
    { rewrite ML. apply in_seq. lia. }
    apply in_map_iff in Hin. destruct Hin as (u & Eu & Hu).
    rewrite Forall_forall in VL.
    rewrite <- (combinationNumber_injective sizes u indices); auto.
Qed.

(** Two components with two and three partial solutions. *)
Lemma combinations_enumerate_witness :
  combinations 6 [2; 3] [0; 0] =
  Some [[0; 0]; [0; 1]; [0; 2]; [1; 0]; [1; 1]; [1; 2]].
Proof.
  destruct (combinations_enumerate 6 [2; 3]) as (L & E & _).
  - discriminate.
  - repeat constructor.
  - cbn. lia.
  - reflexivity.
Defined.

(** ** The choice of a disjunction *)

Lemma app_cons_cases {A : Type} (a : list A) (x : A) (b a' : list A)
  (x' : A) (b' : list A) :
  a ++ x :: b = a' ++ x' :: b' ->
  (a = a' /\ x = x' /\ b = b') \/
  (exists m, a' = a ++ x :: m /\ b = m ++ x' :: b') \/
  (exists m, a = a' ++ x' :: m /\ b' = m ++ x :: b).
Proof.
  revert a'. induction a as [|y a IH]; intros [|y' a'] H; cbn in H.
  - inversion H; subst. now left.
  - inversion H; subst. right. left. now exists a'.
  - inversion H; subst. right. right. now exists a.
  - inversion H; subst.
    destruct (IH a' H2) as [(-> & -> & ->)|[(m & -> & ->)|(m & -> & ->)]].
    + now left.
    + right. left. now exists m.
    + right. right. now exists m.
Qed.

Lemma pickSmaller_pickedAt (rest : list Constraint) :
  forall (s1 : list Constraint) (cur : Constraint) (s2 : list Constraint),
    (forall e, In e s1 ->
       length (getNestedConstraints cur) < length (getNestedConstraints e)) ->
    (forall e, In e s2 ->
       length (getNestedConstraints cur)
         <= length (getNestedConstraints e)) ->
    length (getNestedConstraints cur) <> 2 ->
    (s1 = [] -> 2 < length (getNestedConstraints cur)) ->
    (forall first r, s1 = first :: r ->
       2 < length (getNestedConstraints first)) ->
    (forall p1 d p2, s1 = p1 ++ d :: p2 ->
       (forall e, In e p1 ->
          length (getNestedConstraints d)
            < length (getNestedConstraints e)) ->
       length (getNestedConstraints d) <> 2) ->
    exists pre post,
      s1 ++ cur :: s2 ++ rest =
        pre ++ pickSmaller rest cur (length (getNestedConstraints cur))
            :: post /\
      pickedAt pre
        (pickSmaller rest cur (length (getNestedConstraints cur))) post.
Proof.
  induction rest as [|contender rest IH];
    intros s1 cur s2 H1 H2 Hne Hnil Hfirst Hrec.
  - exists s1, s2. rewrite app_nil_r. split; [reflexivity|].
    cbn [pickSmaller]. repeat split; auto.
  - cbn [pickSmaller].
    assert (Hpre : forall e, In e (s1 ++ cur :: s2) ->
              length (getNestedConstraints cur)
                <= length (getNestedConstraints e)).
    { intros e He. apply in_app_or in He.
      destruct He as [He|[<-|He]]; [apply H1 in He; lia | lia | auto]. }
    assert (Hfirst' : forall first r, s1 ++ cur :: s2 = first :: r ->
              2 < length (getNestedConstraints first)).
    { intros first r E. destruct s1 as [|f s1'].
      - cbn in E. inversion E; subst. now apply Hnil.
      - cbn in E. inversion E; subst. eapply Hfirst; reflexivity. }
    assert (Hrec' : forall p1 d p2, s1 ++ cur :: s2 = p1 ++ d :: p2 ->
              (forall e, In e p1 ->
                 length (getNestedConstraints d)
                   < length (getNestedConstraints e)) ->
              length (getNestedConstraints d) <> 2).
    { intros p1 d p2 E Hd.
      destruct (app_cons_cases _ _ _ _ _ _ E)
        as [(-> & -> & ->)|[(m & -> & ->)|(m & -> & ->)]].
      - exact Hne.
      - assert (In cur (s1 ++ cur :: m))
          by (apply in_or_app; right; now left).
        apply Hd in H. assert (In d (m ++ d :: p2))
          by (apply in_or_app; right; now left).
        apply H2 in H0. lia.
      - eapply Hrec; [reflexivity | exact Hd]. }
    destruct (Nat.ltb_spec (length (getNestedConstraints contender))
                (length (getNestedConstraints cur))) as [Hlt|Hge].
    + destruct (Nat.eqb_spec (length (getNestedConstraints contender)) 2)
        as [E2|N2].
      * exists (s1 ++ cur :: s2), rest.
        split; [now rewrite <- app_assoc|].
        split; [|split; [exact Hfirst'|split; [exact Hrec'|]]].
        -- intros e He. apply Hpre in He. lia.
        -- right. now left.
      * destruct (IH (s1 ++ cur :: s2) contender [])
          as (pre & post & E & P).
        -- intros e He. apply Hpre in He. lia.
        -- intros e [].
        -- exact N2.
        -- intros E. destruct s1; discriminate E.
        -- exact Hfirst'.
        -- exact Hrec'.
        -- exists pre, post. split; [|exact P].
           rewrite <- E. rewrite <- !app_assoc. reflexivity.
    + destruct (IH s1 cur (s2 ++ [contender])) as (pre & post & E & P);
        auto.
      * intros e He. apply in_app_or in He.
        destruct He as [He|[<-|[]]]; [now apply H2 | exact Hge].
      * exists pre, post. split; [|exact P].
        rewrite <- E. rewrite <- !app_assoc. reflexivity.
Qed.

Lemma pickedAt_unique (pre : list Constraint) (c : Constraint)
  (post pre' : list Constraint) (c' : Constraint) (post' : list Constraint) :
  pre ++ c :: post = pre' ++ c' :: post' ->
  pickedAt pre c post -> pickedAt pre' c' post' ->
  pre' = pre /\ c' = c /\ post' = post.
Proof.
  assert (G : forall pre c post m c' post',
            pickedAt pre c post ->
            pickedAt (pre ++ c :: m) c' post' ->
            post = m ++ c' :: post' -> False).
  { clear. intros pre c post m c' post' (A1 & A2 & A3 & A4)
                  (B1 & B2 & B3 & B4) ->.
    assert (Hlt : length (getNestedConstraints c')
                  < length (getNestedConstraints c)).
    { apply B1. apply in_or_app. right. now left. }
    destruct A4 as [[-> Hle]|[E2|Hmin]].
    - specialize (B2 c m eq_refl). lia.
    - apply (B3 pre c m eq_refl A1 E2).
    - assert (In c' (m ++ c' :: post'))
        by (apply in_or_app; right; now left).
      apply Hmin in H. lia. }
  intros E P P'.
  destruct (app_cons_cases _ _ _ _ _ _ E)
    as [(-> & -> & ->)|[(m & -> & ->)|(m & -> & ->)]].
  - repeat split; reflexivity.
  - exfalso. exact (G _ _ _ _ _ _ P P' eq_refl).
  - exfalso. exact (G _ _ _ _ _ _ P' P eq_refl).
Qed.

(** X2. The disjunction that [solveSimplified] picks is determined by
    the numbers of alternatives: the search runs through the disjunctions
    in order, keeps the one with the fewest alternatives so far (the
    earliest on a tie), and ends at once on the first disjunction when it
    has at most two alternatives, or on the first later one that has
    exactly two and fewer than every disjunction before it; if it does not
    end early, the pick is the first disjunction with the fewest
    alternatives of all. A disjunction with fewer than two alternatives
    after the first does not end the search. There is exactly one place in
    the list that meets this description. *)
Theorem pickDisjunction_spec (disjunctions : list Constraint) :
  match pickDisjunction disjunctions with
  | None => disjunctions = []
  | Some chosen =>
      exists pre post,
        disjunctions = pre ++ chosen :: post /\
        pickedAt pre chosen post /\
        forall pre' chosen' post',
          disjunctions = pre' ++ chosen' :: post' ->
          pickedAt pre' chosen' post' ->
          pre' = pre /\ chosen' = chosen /\ post' = post
  end.
Proof.
  destruct disjunctions as [|first rest]; cbn [pickDisjunction];
    [reflexivity|].
  assert (E : exists pre post,
             first :: rest =
               pre ++ (if 2 <? length (getNestedConstraints first)
                       then pickSmaller rest first
                              (length (getNestedConstraints first))
                       else first) :: post /\
             pickedAt pre
               (if 2 <? length (getNestedConstraints first)
                then pickSmaller rest first
                       (length (getNestedConstraints first))
                else first) post).
  { destruct (Nat.ltb_spec 2 (length (getNestedConstraints first)))
      as [Hlt|Hle].
    - destruct (pickSmaller_pickedAt rest [] first [])
        as (pre & post & E & P); auto.
      + intros e [].
      + intros e [].
      + lia.
      + intros f r Hf. discriminate Hf.
      + intros p1 d p2 Hp. destruct p1; discriminate Hp.
      + exists pre, post. split; [exact E | exact P].
    - exists [], rest. split; [reflexivity|].
      split; [intros e []|]. split; [intros f r Hf; discriminate Hf|].
      split; [intros p1 d p2 Hp; destruct p1; discriminate Hp|].
      left. auto. }
  destruct (2 <? length (getNestedConstraints first));
    destruct E as (pre & post & E & P); exists pre, post;
    (split; [exact E|]); (split; [exact P|]);
    intros pre' chosen' post' E' P'; rewrite E in E';
    exact (pickedAt_unique _ _ _ _ _ _ E' P P').
Qed.

(** ** The component split *)

Lemma concat_updateAt_Permutation (k : nat) (c : ConstraintRef)
  (buckets : list (list ConstraintRef)) :
  k < length buckets ->
  Permutation (concat (updateAt k (fun bucket => bucket ++ [c]) buckets))
              (c :: concat buckets).
Proof.
  revert k. induction buckets as [|b buckets IH]; intros k Hk;
    [cbn in Hk; lia|].
  destruct k as [|k]; cbn.
  - rewrite <- app_assoc. cbn.
    apply Permutation_sym, Permutation_middle.
  - eapply Permutation_trans;
      [apply Permutation_app_head, IH; cbn in Hk; lia|].
    apply Permutation_sym, Permutation_middle.
Qed.

Lemma nth_updateAt_push (comp k : nat) (c : ConstraintRef)
  (buckets : list (list ConstraintRef)) :
  comp < length buckets ->
  nth k (updateAt comp (fun bucket => bucket ++ [c]) buckets) [] =
  nth k buckets [] ++ (if comp =? k then [c] else []).
Proof.
  revert comp k. induction buckets as [|b bs IHb]; intros comp k Hlt;
    [cbn in Hlt; lia|].
  destruct comp as [|comp], k as [|k]; cbn [updateAt nth Nat.eqb];
    rewrite ?app_nil_r; try reflexivity.
  apply IHb. cbn in Hlt. lia.
Qed.

Lemma length_updateAt {A : Type} (f : A -> A) (i : nat) (l : list A) :
  length (updateAt i f l) = length l.
Proof.
  revert i. induction l as [|x l IH]; intros [|i]; cbn; auto.
Qed.

Lemma sortIntoBuckets_spec (Constraints : list ConstraintRef)
  (constraintComponent : ConstraintRef -> option nat) :
  forall buckets buckets',
    sortIntoBuckets Constraints constraintComponent buckets = Some buckets' ->
    length buckets' = length buckets /\
    (forall c, In c Constraints ->
               componentOf constraintComponent c < length buckets) /\
    (forall k,
        nth k buckets' [] =
        nth k buckets [] ++
        filter (fun c => componentOf constraintComponent c =? k) Constraints) /\
    Permutation (concat buckets') (concat buckets ++ Constraints).
Proof.
  induction Constraints as [|c rest IH]; intros buckets buckets' H;
    cbn [sortIntoBuckets] in H.
  - inversion H; subst. split; [reflexivity|]. split; [intros c []|].
    split; [intros k; cbn; now rewrite app_nil_r|].
    now rewrite app_nil_r.
  - destruct (Nat.ltb_spec (componentOf constraintComponent c)
                           (length buckets)) as [Hlt|Hge]; [|discriminate].
    apply IH in H. destruct H as (Hlen & Hall & Hnth & Hperm).
    rewrite length_updateAt in *.
    split; [assumption|]. split.
    { intros d [<-|Hd]; [assumption | now apply Hall]. }
    split.
    + intros k. rewrite Hnth, nth_updateAt_push by assumption.
      cbn [filter]. rewrite <- app_assoc.
      destruct (componentOf constraintComponent c =? k); reflexivity.
    + eapply Permutation_trans; [exact Hperm|].
      eapply Permutation_trans;
        [apply Permutation_app_tail, concat_updateAt_Permutation, Hlt|].
      cbn. apply Permutation_middle.
Qed.

Lemma sortIntoBuckets_None (Constraints : list ConstraintRef)
  (constraintComponent : ConstraintRef -> option nat) :
  forall buckets,
    sortIntoBuckets Constraints constraintComponent buckets = None ->
    exists c, In c Constraints /\
              length buckets <= componentOf constraintComponent c.
Proof.
  induction Constraints as [|c rest IH]; intros buckets H;
    cbn [sortIntoBuckets] in H; [discriminate|].
  destruct (Nat.ltb_spec (componentOf constraintComponent c)
                         (length buckets)) as [Hlt|Hge].
  - apply IH in H. destruct H as (d & Hd & Hle).
    rewrite length_updateAt in Hle. exists d. split; [now right | exact Hle].
  - exists c. split; [now left | exact Hge].
Qed.

Lemma concat_repeat_nil {A : Type} (n : nat) :
  concat (repeat (@nil A) n) = [].
Proof. induction n; cbn; auto. Qed.

Lemma nth_repeat_nil {A : Type} (k n : nat) :
  nth k (repeat (@nil A) n) [] = [].
Proof.
  revert k. induction n as [|n IH]; intros [|k]; cbn; auto.
Qed.

(** X3. The constraints are sorted into the buckets of their components and
    returned: when every constraint has a component below
    [numComponents], bucket [k] holds the constraints of component [k] in
    their order in the active list, and the list that
    [returnAllConstraints] rebuilds is a permutation of the active list,
    grouped by component; otherwise some constraint indexes past the end
    of the array of buckets. *)
Theorem sortIntoBuckets_partition (Constraints : list ConstraintRef)
  (constraintComponent : ConstraintRef -> option nat) (numComponents : nat) :
  match sortIntoBuckets Constraints constraintComponent
          (repeat [] numComponents) with
  | Some buckets =>
      (forall c, In c Constraints ->
                 componentOf constraintComponent c < numComponents) /\
      length buckets = numComponents /\
      (forall k,
          nth k buckets [] =
          filter (fun c => componentOf constraintComponent c =? k)
                 Constraints) /\
      Permutation (returnAllConstraints buckets) Constraints
  | None =>
      exists c, In c Constraints /\
                numComponents <= componentOf constraintComponent c
  end.
Proof.
  destruct (sortIntoBuckets Constraints constraintComponent
              (repeat [] numComponents)) as [buckets|] eqn:E.
  - apply sortIntoBuckets_spec in E.
    destruct E as (Hlen & Hall & Hnth & Hperm).
    rewrite repeat_length in *. rewrite concat_repeat_nil in Hperm.
    repeat split; auto.
    intros k. rewrite Hnth, nth_repeat_nil. reflexivity.
  - apply sortIntoBuckets_None in E. now rewrite repeat_length in E.
Qed.

Section ComponentProperties.
Variable constraintsOf : TypeVariable -> list ConstraintRef.

Lemma assignConstraints_spec (component : nat) (cs : list ConstraintRef)
  (m : ConstraintRef -> option nat) (c : ConstraintRef) :
  fold_left (fun m constraint =>
               fun k => if k =? constraint then Some component else m k)
            cs m c =
  if memRef c cs then Some component else m c.
Proof.
  revert m. induction cs as [|x cs IH]; intros m; cbn; [reflexivity|].
  rewrite IH. destruct (memRef c cs) eqn:E.
  - unfold memRef in E. rewrite E. now rewrite orb_true_r.
  - unfold memRef in E. rewrite E, orb_false_r.
    rewrite Nat.eqb_sym. reflexivity.
Qed.

Lemma recordComponents_fold (entries : list (TypeVariable * nat))
  (maps : (TypeVariable -> option nat) * (ConstraintRef -> option nat))
  (c : ConstraintRef) :
  let result :=
    fold_left
      (fun maps entry =>
         let '(typeVarComponent, constraintComponent) := maps in
         let '(typeVar, component) := entry in
         (fun k => if k =? typeVar then Some component
                   else typeVarComponent k,
          fold_left
            (fun m constraint =>
               fun k => if k =? constraint then Some component else m k)
            (constraintsOf typeVar) constraintComponent))
      entries maps in
  ((forall tv comp, In (tv, comp) entries -> ~ In c (constraintsOf tv)) ->
   snd result c = snd maps c) /\
  (forall k, snd result c = Some k ->
     snd maps c = Some k \/
     exists tv, In (tv, k) entries /\ In c (constraintsOf tv)).
Proof.
  revert maps. induction entries as [|[tv comp] entries IH];
    intros [tvm cm]; cbn [fold_left].
  - cbn. split; [reflexivity | intros k H; now left].
  - specialize (IH (fun k => if k =? tv then Some comp else tvm k,
                    fold_left
                      (fun m constraint =>
                         fun k => if k =? constraint then Some comp
                                  else m k)
                      (constraintsOf tv) cm)).
    cbn zeta in *. destruct IH as [IH1 IH2]. cbn [snd] in *.
    split.
    + intros Hnone. rewrite IH1.
      * rewrite assignConstraints_spec.
        destruct (memRef c (constraintsOf tv)) eqn:E; [|reflexivity].
        apply memRef_In in E. exfalso.
        apply (Hnone tv comp); [now left | assumption].
      * intros tv' comp' Hin. apply (Hnone tv' comp'). now right.
    + intros k Hk. destruct (IH2 k Hk) as [H|(tv' & Hin & Hc)].
      * rewrite assignConstraints_spec in H.
        destruct (memRef c (constraintsOf tv)) eqn:E.
        -- right. exists tv. inversion H; subst.
           split; [now left | now apply memRef_In].
        -- now left.
      * right. exists tv'. split; [now right | assumption].
Qed.

(** X4. The component recorded for a constraint is that of a type variable of
    the list that mentions it in the graph; a constraint that no type
    variable of the list mentions has no entry, so that it is sorted into
    the bucket 0. *)
Theorem recordComponents_constraint (typeVars : list TypeVariable)
  (components : list nat) (c : ConstraintRef) :
  let constraintComponent :=
    snd (recordComponents constraintsOf typeVars components) in
  (forall k, constraintComponent c = Some k ->
     exists tv, In (tv, k) (combine typeVars components) /\
                In c (constraintsOf tv)) /\
  ((forall tv, In tv typeVars -> ~ In c (constraintsOf tv)) ->
   constraintComponent c = None /\
   componentOf constraintComponent c = 0).
Proof.
  cbn zeta. unfold recordComponents.
  destruct (recordComponents_fold (combine typeVars components)
              (fun _ => None, fun _ => None) c) as [H1 H2].
  cbn zeta in *. cbn [snd] in H1, H2. split.
  - intros k Hk. destruct (H2 k Hk) as [H|H]; [discriminate | exact H].
  - intros Hnone.
    assert (E : snd (fold_left
                 (fun maps entry =>
                    let '(typeVarComponent, constraintComponent) := maps in
                    let '(typeVar, component) := entry in
                    (fun k => if k =? typeVar then Some component
                              else typeVarComponent k,
                     fold_left
                       (fun m constraint =>
                          fun k => if k =? constraint then Some component
                                   else m k)
                       (constraintsOf typeVar) constraintComponent))
                 (combine typeVars components)
                 (fun _ => None, fun _ => None)) c = None).
    { apply H1. intros tv comp Hin. apply Hnone.
      eapply in_combine_l; eassumption. }
    split; [exact E|]. unfold componentOf.
    match goal with
    | |- match ?x with _ => _ end = _ =>
        replace x with (@None nat) by (symmetry; exact E)
    end.
    reflexivity.
Qed.

End ComponentProperties.

(** ** More on the ranking *)

Lemma tuple_lt_negative_trans (t u v : bool * bool * bool * Z) :
  tuple_lt t u = true -> tuple_lt v u = false -> tuple_lt t v = true.
Proof.
  destruct t as [[[a b] c] m], u as [[[a' b'] c'] m'],
           v as [[[a'' b''] c''] m''].
  destruct a, b, c, a', b', c', a'', b'', c''; cbn;
    try discriminate; try reflexivity;
    rewrite ?Z.ltb_lt, ?Z.ltb_ge; lia.
Qed.

Lemma tuple_lt_total (t u : bool * bool * bool * Z) :
  tuple_lt t u = false -> tuple_lt u t = false -> t = u.
Proof.
  destruct t as [[[a b] c] m], u as [[[a' b'] c'] m'].
  destruct a, b, c, a', b', c'; cbn; try discriminate;
    rewrite ?Z.ltb_ge; intros; f_equal; lia.
Qed.

(** X5. [operator<] of potential bindings is a strict order on the ranks:
    irreflexive, asymmetric and transitive, and two sets neither of which
    is better than the other have the same rank. *)
Theorem PotentialBindings_lt_strict_order (x y z : PotentialBindings) :
  PotentialBindings_lt x x = false /\
  (PotentialBindings_lt x y = true -> PotentialBindings_lt y x = false) /\
  (PotentialBindings_lt x y = true -> PotentialBindings_lt y z = true ->
   PotentialBindings_lt x z = true) /\
  (PotentialBindings_lt x y = false -> PotentialBindings_lt y x = false ->
   rankOf x = rankOf y).
Proof.
  split; [apply tuple_lt_irrefl|]. split; [|split].
  - intros H. destruct (PotentialBindings_lt y x) eqn:E; [|reflexivity].
    pose proof (tuple_lt_trans _ _ _ H E) as C.
    rewrite tuple_lt_irrefl in C. discriminate.
  - apply tuple_lt_trans.
  - apply tuple_lt_total.
Qed.

Section SelectionOrder.
Context {env : SemaEnv}.

Lemma selectBestFrom_first (rest : list TypeVariableConstraints)
  (best0 : nat * PotentialBindings) (seen : list PotentialBindings) :
  minimalAmong seen (snd best0) ->
  fst best0 < length seen ->
  (forall j x, j < fst best0 -> nth_error seen j = Some x ->
               hasBindings x = true ->
               PotentialBindings_lt (snd best0) x = true) ->
  forall j x,
    j < fst (selectBestFrom (length seen) rest best0) ->
    nth_error (seen ++ map getPotentialBindings rest) j = Some x ->
    hasBindings x = true ->
    PotentialBindings_lt (snd (selectBestFrom (length seen) rest best0)) x
      = true.
Proof.
  revert best0 seen. induction rest as [|tvc rest IH];
    intros best0 seen Hmin Hidx Hfirst; cbn [selectBestFrom map].
  - rewrite app_nil_r. exact Hfirst.
  - replace (seen ++ getPotentialBindings tvc :: map getPotentialBindings rest)
      with ((seen ++ [getPotentialBindings tvc]) ++
            map getPotentialBindings rest)
      by (now rewrite <- app_assoc).
    assert (Hlen : S (length seen) =
                   length (seen ++ [getPotentialBindings tvc]))
      by (rewrite length_app; cbn; lia).
    rewrite Hlen.
    remember (getPotentialBindings tvc) as b eqn:Eb. clear Eb.
    assert (Hkeep : forall j x, j < fst best0 ->
                      nth_error (seen ++ [b]) j = Some x ->
                      hasBindings x = true ->
                      PotentialBindings_lt (snd best0) x = true).
    { intros j x Hj Hn Hx.
      rewrite nth_error_app1 in Hn by lia. eapply Hfirst; eauto. }
    assert (Hkeepmin : hasBindings b = false \/
                       (hasBindings (snd best0) = true /\
                        PotentialBindings_lt b (snd best0) = false) ->
                       minimalAmong (seen ++ [b]) (snd best0)).
    { intros Hcase x Hx Hhas.
      apply in_app_or in Hx. destruct Hx as [Hx|[<-|[]]].
      - now apply Hmin.
      - destruct Hcase as [Hc|Hc]; [congruence | exact Hc]. }
    assert (Hnewmin : hasBindings b = true ->
                      hasBindings (snd best0) = false \/
                      PotentialBindings_lt b (snd best0) = true ->
                      minimalAmong (seen ++ [b]) b).
    { intros Hb Hcase x Hx Hhas. split; [assumption|].
      apply in_app_or in Hx. destruct Hx as [Hx|[<-|[]]].
      - destruct (Hmin x Hx Hhas) as [Hbest Hxb].
        destruct Hcase as [Hc|Hlt]; [congruence|].
        destruct (PotentialBindings_lt x b) eqn:Hxlt; [|reflexivity].
        rewrite (PotentialBindings_lt_trans _ _ _ Hxlt Hlt) in Hxb.
        discriminate.
      - apply PotentialBindings_lt_irrefl. }
    assert (Hnewfirst : hasBindings b = true ->
                        hasBindings (snd best0) = false \/
                        PotentialBindings_lt b (snd best0) = true ->
                        forall j x, j < length seen ->
                          nth_error (seen ++ [b]) j = Some x ->
                          hasBindings x = true ->
                          PotentialBindings_lt b x = true).
    { intros Hb Hcase j x Hj Hn Hx.
      rewrite nth_error_app1 in Hn by lia. apply nth_error_In in Hn.
      destruct (Hmin x Hn Hx) as [Hbest Hxb].
      destruct Hcase as [Hc|Hlt]; [congruence|].
      eapply tuple_lt_negative_trans; [exact Hlt | exact Hxb]. }
    assert (Hidx' : fst best0 < length (seen ++ [b]))
      by (rewrite <- Hlen; lia).
    assert (Hidx'' : length seen < length (seen ++ [b]))
      by (rewrite <- Hlen; lia).
    destruct (hasBindings b) eqn:Hb; cbn [negb].
    + destruct (hasBindings (snd best0)) eqn:H0; cbn [negb orb].
      * destruct (PotentialBindings_lt b (snd best0)) eqn:Hlt.
        -- apply IH; cbn [fst snd];
             [apply Hnewmin; auto | exact Hidx'' | apply Hnewfirst; auto].
        -- apply IH; [apply Hkeepmin; auto | exact Hidx' | exact Hkeep].
      * apply IH; cbn [fst snd];
          [apply Hnewmin; auto | exact Hidx'' | apply Hnewfirst; auto].
    + apply IH; [apply Hkeepmin; auto | exact Hidx' | exact Hkeep].
Qed.

(** X6. The driver keeps the first of the best-ranked summaries: every
    summary with bindings before the chosen one is ranked strictly worse
    than the chosen set. *)
Theorem selectBestBindings_first_of_best
  (tvcs : list TypeVariableConstraints) (idx : nat)
  (best : PotentialBindings) (j : nat) (tvc : TypeVariableConstraints) :
  selectBestBindings tvcs = Some (idx, best) ->
  j < idx ->
  nth_error tvcs j = Some tvc ->
  hasBindings (getPotentialBindings tvc) = true ->
  PotentialBindings_lt best (getPotentialBindings tvc) = true.
Proof.
  intros Hsel Hj Hn Hhas.
  destruct tvcs as [|tvc0 rest]; [discriminate|].
  cbn in Hsel. inversion Hsel as [Hsel']; clear Hsel.
  pose proof (selectBestFrom_first rest (0, getPotentialBindings tvc0)
                [getPotentialBindings tvc0]) as H.
  cbn [length fst snd] in H. rewrite Hsel' in H. cbn [fst snd] in H.
  apply (H) with (j := j); auto.
  - intros x [<-|[]] Hx. split; [assumption|].
    apply PotentialBindings_lt_irrefl.
  - intros j' x Hj'. lia.
  - change ([getPotentialBindings tvc0] ++ map getPotentialBindings rest)
      with (map getPotentialBindings (tvc0 :: rest)).
    now apply map_nth_error.
Qed.

End SelectionOrder.

(** ** More on the classifier *)

Section ClassifierMore.
Context {env : SemaEnv}.

Lemma SummaryUpdate_TypeVar f t : SummaryUpdate f -> TypeVar (f t) = TypeVar t.
Proof. destruct 1; reflexivity. Qed.

Lemma classifyConstraint_preserves
  (I : list TypeVariableConstraints -> (TypeVariable -> nat) -> Prop) :
  (forall tv f st, SummaryUpdate f ->
     I (typeVarConstraints st) (typeVarConstraintsMap st) ->
     I (typeVarConstraints (getTVC tv f st))
       (typeVarConstraintsMap (getTVC tv f st))) ->
  forall c st st',
    classifyConstraint c st = Some st' ->
    I (typeVarConstraints st) (typeVarConstraintsMap st) ->
    I (typeVarConstraints st') (typeVarConstraintsMap st').
Proof.
  intros HG c st st' H HI.
  assert (Hfold : forall f tvs s, SummaryUpdate f ->
            I (typeVarConstraints s) (typeVarConstraintsMap s) ->
            I (typeVarConstraints
                 (fold_left (fun s tv => getTVC tv f s) tvs s))
              (typeVarConstraintsMap
                 (fold_left (fun s tv => getTVC tv f s) tvs s))).
  { intros f tvs. induction tvs as [|tv tvs IHt]; intros s Hf Hs; cbn;
      [assumption|]. apply IHt; [assumption|]. now apply HG. }
  unfold classifyConstraint in H.
  destruct (getClassification c).
  - destruct (_ || _).
    + destruct (simplifyType (getFirstType c)); inversion H; subst;
        try assumption.
      apply HG; [constructor | assumption].
    + destruct (getSecondType c) as [second0|]; [|discriminate].
      destruct (ConstraintKind_eqb (getKind c) ApplicableFunction).
      * inversion H; subst; clear H. cbn.
        apply Hfold; [constructor | assumption].
      * remember (match getAsTypeVariable (simplifyType (getFirstType c))
                  with
                  | Some tv =>
                      getTVC tv (pushAbove (c, simplifyType second0)) st
                  | None => addReferenced
                              (getTypeVariables
                                 (simplifyType (getFirstType c))) st
                  end) as st1 eqn:E1.
        assert (H1 : I (typeVarConstraints st1) (typeVarConstraintsMap st1)).
        { rewrite E1. destruct (getAsTypeVariable _);
            [apply HG; [constructor | assumption] | assumption]. }
        clear E1.
        remember (match getAsTypeVariable (simplifyType second0) with
                  | Some tv =>
                      getTVC tv
                        (pushBelow (c, simplifyType (getFirstType c))) st1
                  | None => addReferenced
                              (getTypeVariables (simplifyType second0)) st1
                  end) as st2 eqn:E2.
        assert (H2 : I (typeVarConstraints st2) (typeVarConstraintsMap st2)).
        { rewrite E2. destruct (getAsTypeVariable (simplifyType second0));
            [apply HG; [constructor | assumption] | assumption]. }
        clear E2.
        destruct (getAsTypeVariable (simplifyType (getFirstType c)));
          destruct (getAsTypeVariable (simplifyType second0));
          inversion H; subst; assumption.
  - destruct (negb _); inversion H; subst; assumption.
  - destruct (getSecondType c) as [second0|]; [|discriminate].
    destruct (negb _); inversion H; subst; clear H; [|assumption].
    apply Hfold; [constructor | assumption].
  - discriminate.
  - inversion H; subst. assumption.
Qed.

Lemma classifyConstraints_preserves
  (I : list TypeVariableConstraints -> (TypeVariable -> nat) -> Prop) :
  (forall tv f st, SummaryUpdate f ->
     I (typeVarConstraints st) (typeVarConstraintsMap st) ->
     I (typeVarConstraints (getTVC tv f st))
       (typeVarConstraintsMap (getTVC tv f st))) ->
  forall cs st st',
    classifyConstraints cs st = Some st' ->
    I (typeVarConstraints st) (typeVarConstraintsMap st) ->
    I (typeVarConstraints st') (typeVarConstraintsMap st').
Proof.
  intros HG cs. induction cs as [|c cs IH]; intros st st' H HI; cbn in H.
  - now inversion H; subst.
  - destruct (classifyConstraint c st) as [st1|] eqn:E; [|discriminate].
    eapply IH; [exact H|].
    eapply classifyConstraint_preserves; eauto.
Qed.

Lemma getTVC_representatives tv f st :
  SummaryUpdate f ->
  (forall t, In t (typeVarConstraints st) ->
             exists v, TypeVar t = getRepresentative v) ->
  forall t, In t (typeVarConstraints (getTVC tv f st)) ->
            exists v, TypeVar t = getRepresentative v.
Proof.
  intros Hf H t Hin. apply In_nth_error in Hin. destruct Hin as [i Hi].
  unfold getTVC in Hi.
  destruct (typeVarConstraintsMap st (getRepresentative tv) =? 0);
    cbn in Hi; rewrite nth_error_updateAt in Hi.
  - assert (Hcase : forall t0,
              nth_error (typeVarConstraints st ++
                         [newTVC (getRepresentative tv)]) i = Some t0 ->
              exists v, TypeVar t0 = getRepresentative v).
    { intros t0 Hn. apply nth_error_In in Hn. apply in_app_or in Hn.
      destruct Hn as [Hn|[<-|[]]]; [now apply H | now exists tv]. }
    destruct (i =? _).
    + destruct (nth_error _ i) as [t0|] eqn:En; [|discriminate].
      cbn in Hi. inversion Hi; subst.
      rewrite SummaryUpdate_TypeVar by assumption. now apply Hcase.
    + now apply Hcase.
  - destruct (i =? _).
    + destruct (nth_error _ i) as [t0|] eqn:En; [|discriminate].
      cbn in Hi. inversion Hi; subst.
      rewrite SummaryUpdate_TypeVar by assumption.
      apply H. eapply nth_error_In; eauto.
    + apply H. eapply nth_error_In; eauto.
Qed.

(** X7. The summaries that the classifier returns are those of pairwise
    distinct type variables, each the representative of its class. *)
Theorem collectConstraints_distinct_representatives
  (constraints disjunctions0 : list Constraint) :
  match collectConstraintsForTypeVariables constraints disjunctions0 with
  | Some (tvcs, _) =>
      NoDup (map TypeVar tvcs) /\
      forall t, In t tvcs -> exists v, TypeVar t = getRepresentative v
  | None => True
  end.
Proof.
  unfold collectConstraintsForTypeVariables.
  destruct (classifyConstraints constraints _) as [st|] eqn:E; [|exact I].
  destruct (classifyConstraints_inv _ _ _ E) as (WF & _).
  { intros i t Hn. destruct i; discriminate. }
  assert (R : forall t, In t (typeVarConstraints st) ->
                        exists v, TypeVar t = getRepresentative v).
  { apply (classifyConstraints_preserves
             (fun vec _ => forall t, In t vec ->
                                     exists v, TypeVar t = getRepresentative v))
      with (cs := constraints) (st := mkClassifierState [] (fun _ => 0)
                                        disjunctions0 []); auto.
    - intros tv f s Hf Hs. now apply getTVC_representatives.
    - intros t []. }
  split.
  - apply NoDup_nth_error. intros i j Hi Hij.
    rewrite length_map in Hi.
    rewrite !nth_error_map in Hij.
    destruct (nth_error (markReferenced _ _ _ _) i) as [ti|] eqn:Ei.
    2:{ apply nth_error_None in Ei. lia. }
    destruct (nth_error (markReferenced _ _ _ _) j) as [tj|] eqn:Ej;
      [|discriminate].
    cbn in Hij. inversion Hij as [Etv].
    destruct (markReferenced_nth _ _ _ _ _ _ Ei) as (si & Hsi & Ti & _).
    destruct (markReferenced_nth _ _ _ _ _ _ Ej) as (sj & Hsj & Tj & _).
    pose proof (WF _ _ Hsi) as Mi. pose proof (WF _ _ Hsj) as Mj.
    rewrite <- Ti, Etv, Tj in Mi. congruence.
  - intros t Hin. apply In_nth_error in Hin. destruct Hin as [i Hi].
    destruct (markReferenced_nth _ _ _ _ _ _ Hi) as (s0 & Hs0 & T0 & _).
    rewrite T0. apply R. eapply nth_error_In; eauto.
Qed.

Lemma classifyConstraints_disjunctions cs st st' :
  classifyConstraints cs st = Some st' ->
  disjunctions st' =
  disjunctions st ++
  filter (fun c => ConstraintKind_eqb (getKind c) Disjunction) cs /\
  forall c, In c cs -> getKind c <> Conjunction.
Proof.
  revert st. induction cs as [|c cs IH]; intros st H; cbn in H.
  - inversion H; subst. rewrite app_nil_r. split; [reflexivity|].
    intros c [].
  - destruct (classifyConstraint c st) as [st1|] eqn:E; [|discriminate].
    destruct (IH _ H) as [IH1 IH2]. rewrite IH1. cbn [filter].
    assert (Hd : disjunctions st1 =
                 (if ConstraintKind_eqb (getKind c) Disjunction
                  then disjunctions st ++ [c] else disjunctions st) /\
                 getKind c <> Conjunction).
    { clear - E. unfold classifyConstraint, getClassification in E.
      assert (G : forall tv f s, disjunctions (getTVC tv f s)
                                 = disjunctions s).
      { intros tv f s. unfold getTVC. destruct (_ =? 0); reflexivity. }
      assert (GF : forall f tvs s,
                 disjunctions (fold_left (fun s tv => getTVC tv f s) tvs s)
                 = disjunctions s).
      { intros f tvs. induction tvs as [|tv tvs IHt]; intros s; cbn;
          [reflexivity|]. now rewrite IHt, G. }
      destruct (getKind c) eqn:K; cbn in E |- *;
        try (split; [|discriminate]);
        try discriminate;
        repeat match type of E with
               | match ?x with _ => _ end = _ =>
                   destruct x; try discriminate
               | (if ?x then _ else _) = _ => destruct x
               end;
        inversion E; subst; cbn;
        repeat match goal with
               | |- context [match ?x with _ => _ end] => destruct x
               end;
        rewrite ?G, ?GF, ?G; cbn; rewrite ?G; reflexivity. }
    destruct Hd as [Hd Hc]. rewrite Hd. split.
    + destruct (ConstraintKind_eqb (getKind c) Disjunction);
        [now rewrite <- app_assoc | reflexivity].
    + intros d [<-|Hdin]; [assumption | now apply IH2].
Qed.

(** X8. A conjunction in the active list makes the classifier stop (the
    code declares it unreachable); otherwise the disjunctions are appended
    to the vector of the caller in the order of the active list. *)
Theorem collectConstraints_disjunctions
  (constraints disjunctions0 : list Constraint) :
  match collectConstraintsForTypeVariables constraints disjunctions0 with
  | Some (_, disj) =>
      disj = disjunctions0 ++
             filter (fun c => ConstraintKind_eqb (getKind c) Disjunction)
                    constraints /\
      forall c, In c constraints -> getKind c <> Conjunction
  | None => True
  end.
Proof.
  unfold collectConstraintsForTypeVariables.
  destruct (classifyConstraints constraints _) as [st|] eqn:E; [|exact I].
  apply classifyConstraints_disjunctions in E. exact E.
Qed.

End ClassifierMore.

Section ClassifierSummaries.
Context {env : SemaEnv}.

Lemma updateAt_hasSummary Q r i f vec :
  Persistent Q -> SummaryUpdate f ->
  hasSummary Q r vec -> hasSummary Q r (updateAt i f vec).
Proof.
  intros HP Hf (t & Hin & Ht & HQ).
  apply In_nth_error in Hin. destruct Hin as [j Hj].
  pose proof (nth_error_updateAt f vec i j) as Hu. rewrite Hj in Hu.
  destruct (j =? i); cbn in Hu.
  - exists (f t). split; [eapply nth_error_In; eauto|].
    split; [now rewrite SummaryUpdate_TypeVar | now apply HP].
  - exists t. split; [eapply nth_error_In; eauto | now split].
Qed.

Lemma getTVC_keeps Q r tv f st :
  Persistent Q -> SummaryUpdate f ->
  hasSummary Q r (typeVarConstraints st) ->
  hasSummary Q r (typeVarConstraints (getTVC tv f st)).
Proof.
  intros HP Hf H. unfold getTVC.
  destruct (_ =? 0); cbn; apply updateAt_hasSummary; auto.
  destruct H as (t & Hin & Ht & HQ). exists t.
  split; [apply in_or_app; now left | now split].
Qed.

Lemma getTVC_MapOK tv f st :
  SummaryUpdate f ->
  ClassifierMapOK (typeVarConstraints st) (typeVarConstraintsMap st) ->
  ClassifierMapOK (typeVarConstraints (getTVC tv f st))
                  (typeVarConstraintsMap (getTVC tv f st)).
Proof.
  intros Hf H v k Hk. unfold getTVC in *.
  assert (Hupd : forall i vec t,
            nth_error vec k = Some t -> TypeVar t = v ->
            exists t', nth_error (updateAt i f vec) k = Some t' /\
                       TypeVar t' = v).
  { intros i vec t Hn Ht. rewrite nth_error_updateAt, Hn.
    destruct (k =? i); cbn; eexists; split; try reflexivity;
      [now rewrite SummaryUpdate_TypeVar | assumption]. }
  destruct (typeVarConstraintsMap st (getRepresentative tv) =? 0) eqn:E;
    cbn in Hk |- *.
  - destruct (v =? getRepresentative tv) eqn:Ev.
    + apply Nat.eqb_eq in Ev. subst v.
      rewrite length_app in Hk. cbn in Hk.
      assert (k = length (typeVarConstraints st)) by lia. subst k.
      eapply Hupd;
        [rewrite nth_error_app2, Nat.sub_diag by lia; reflexivity
        |reflexivity].
    + destruct (H _ _ Hk) as (t & Hn & Ht).
      eapply Hupd; [|exact Ht].
      rewrite nth_error_app1; [exact Hn|].
      apply nth_error_Some. congruence.
  - destruct (H _ _ Hk) as (t & Hn & Ht). eapply Hupd; eauto.
Qed.

Lemma getTVC_establishes (Q : TypeVariableConstraints -> Prop) tv f st :
  SummaryUpdate f -> (forall t, Q (f t)) ->
  ClassifierMapOK (typeVarConstraints st) (typeVarConstraintsMap st) ->
  hasSummary Q (getRepresentative tv) (typeVarConstraints (getTVC tv f st)).
Proof.
  intros Hf HQ H. unfold getTVC.
  destruct (typeVarConstraintsMap st (getRepresentative tv) =? 0) eqn:E;
    cbn.
  - exists (f (newTVC (getRepresentative tv))). split.
    + apply nth_error_In
        with (n := length (typeVarConstraints st)).
      rewrite nth_error_updateAt.
      rewrite nth_error_app2, Nat.sub_diag by lia. cbn.
      rewrite length_app. cbn.
      replace (length (typeVarConstraints st) + 1 - 1)
        with (length (typeVarConstraints st)) by lia.
      now rewrite Nat.eqb_refl.
    + split; [now rewrite SummaryUpdate_TypeVar | apply HQ].
  - apply Nat.eqb_neq in E.
    destruct (typeVarConstraintsMap st (getRepresentative tv)) as [|k] eqn:M;
      [congruence|].
    destruct (H _ _ M) as (t & Hn & Ht).
    exists (f t). split.
    + apply nth_error_In with (n := k).
      rewrite nth_error_updateAt, Hn. cbn.
      replace (k - 0) with k by lia. now rewrite Nat.eqb_refl.
    + split; [now rewrite SummaryUpdate_TypeVar | apply HQ].
Qed.

Lemma fold_getTVC_MapOK f tvs st :
  SummaryUpdate f ->
  ClassifierMapOK (typeVarConstraints st) (typeVarConstraintsMap st) ->
  ClassifierMapOK
    (typeVarConstraints (fold_left (fun s tv => getTVC tv f s) tvs st))
    (typeVarConstraintsMap (fold_left (fun s tv => getTVC tv f s) tvs st)).
Proof.
  intros Hf. revert st. induction tvs as [|tv tvs IH]; intros st H; cbn;
    [assumption|]. apply IH. now apply getTVC_MapOK.
Qed.

Lemma fold_getTVC_keeps Q r f tvs st :
  Persistent Q -> SummaryUpdate f ->
  hasSummary Q r (typeVarConstraints st) ->
  hasSummary Q r
    (typeVarConstraints (fold_left (fun s tv => getTVC tv f s) tvs st)).
Proof.
  intros HP Hf. revert st. induction tvs as [|tv tvs IH]; intros st H; cbn;
    [assumption|]. apply IH. now apply getTVC_keeps.
Qed.

Lemma fold_getTVC_establishes (Q : TypeVariableConstraints -> Prop)
  f tvs tv st :
  Persistent Q -> SummaryUpdate f -> (forall t, Q (f t)) ->
  ClassifierMapOK (typeVarConstraints st) (typeVarConstraintsMap st) ->
  In tv tvs ->
  hasSummary Q (getRepresentative tv)
    (typeVarConstraints (fold_left (fun s tv => getTVC tv f s) tvs st)).
Proof.
  intros HP Hf HQ. revert st.
  induction tvs as [|tv0 tvs IH]; intros st H Hin; [destruct Hin|].
  cbn. destruct Hin as [<-|Hin].
  - apply fold_getTVC_keeps; auto. now apply getTVC_establishes.
  - apply IH; [now apply getTVC_MapOK | assumption].
Qed.

Lemma markReferenced_keeps Q r referenced seen map vec :
  Persistent Q -> hasSummary Q r vec ->
  hasSummary Q r (markReferenced referenced seen map vec).
Proof.
  intros HP. revert seen vec.
  induction referenced as [|tv rest IH]; intros seen vec H; cbn;
    [assumption|].
  destruct (existsb (Nat.eqb tv) seen); [now apply IH|].
  destruct (map (getRepresentative tv) =? 0); [now apply IH|].
  apply IH. apply updateAt_hasSummary; auto. constructor.
Qed.

Lemma classifyConstraints_MapOK cs st st' :
  classifyConstraints cs st = Some st' ->
  ClassifierMapOK (typeVarConstraints st) (typeVarConstraintsMap st) ->
  ClassifierMapOK (typeVarConstraints st') (typeVarConstraintsMap st').
Proof.
  apply (classifyConstraints_preserves ClassifierMapOK).
  intros tv f s Hf Hs. now apply getTVC_MapOK.
Qed.

Lemma classifyConstraints_keeps Q r cs st st' :
  Persistent Q ->
  classifyConstraints cs st = Some st' ->
  hasSummary Q r (typeVarConstraints st) ->
  hasSummary Q r (typeVarConstraints st').
Proof.
  intros HP.
  apply (classifyConstraints_preserves (fun vec _ => hasSummary Q r vec)).
  intros tv f s Hf Hs. now apply getTVC_keeps.
Qed.

(** What one step of the loop establishes is still there at the end. *)
Lemma collectConstraints_establish Q r c constraints disjunctions0 :
  Persistent Q ->
  In c constraints ->
  (forall st st1,
     ClassifierMapOK (typeVarConstraints st) (typeVarConstraintsMap st) ->
     classifyConstraint c st = Some st1 ->
     hasSummary Q r (typeVarConstraints st1)) ->
  match collectConstraintsForTypeVariables constraints disjunctions0 with
  | Some (tvcs, _) => hasSummary Q r tvcs
  | None => True
  end.
Proof.
  intros HP Hin Hstep. unfold collectConstraintsForTypeVariables.
  destruct (classifyConstraints constraints _) as [st'|] eqn:E; [|exact I].
  apply markReferenced_keeps; [assumption|].
  assert (G : forall cs st st',
             classifyConstraints cs st = Some st' ->
             ClassifierMapOK (typeVarConstraints st)
                             (typeVarConstraintsMap st) ->
             In c cs -> hasSummary Q r (typeVarConstraints st')).
  { clear - HP Hstep. induction cs as [|c0 cs IH]; intros st st' H HM Hin;
      [destruct Hin|].
    cbn in H. destruct (classifyConstraint c0 st) as [st1|] eqn:E1;
      [|discriminate].
    destruct Hin as [->|Hin].
    - eapply classifyConstraints_keeps; eauto.
    - eapply IH; eauto.
      apply (classifyConstraints_MapOK [c0] st st1); [|assumption].
      cbn. now rewrite E1. }
  eapply G; eauto. intros v k Hk. discriminate.
Qed.

Lemma Persistent_FullyBound : Persistent (fun t => FullyBound t = true).
Proof. intros f t Hf H. destruct Hf; cbn; auto. Qed.

Lemma Persistent_Above x : Persistent (fun t => In x (Above t)).
Proof.
  intros f t Hf H. destruct Hf; cbn; auto. apply in_or_app. now left.
Qed.

Lemma Persistent_Below x : Persistent (fun t => In x (Below t)).
Proof.
  intros f t Hf H. destruct Hf; cbn; auto. apply in_or_app. now left.
Qed.

Lemma Persistent_ConformsTo c :
  Persistent (fun t => In c (ConformsToConstraints t)).
Proof.
  intros f t Hf H. destruct Hf; cbn; auto. apply in_or_app. now left.
Qed.

(** X9. Every type variable of the left-hand side of an applicable-function
    constraint gets a summary that is marked fully bound. *)
Theorem collectConstraints_applicable_function
  (constraints disjunctions0 : list Constraint) (c : Constraint)
  (tv : TypeVariable) :
  In c constraints ->
  getKind c = ApplicableFunction ->
  In tv (getTypeVariables (simplifyType (getFirstType c))) ->
  match collectConstraintsForTypeVariables constraints disjunctions0 with
  | Some (tvcs, _) =>
      exists t, In t tvcs /\ TypeVar t = getRepresentative tv /\
                FullyBound t = true
  | None => True
  end.
Proof.
  intros Hin K Htv.
  apply (collectConstraints_establish (fun t => FullyBound t = true)
           (getRepresentative tv) c);
    [apply Persistent_FullyBound | assumption |].
  intros st st1 HM H. unfold classifyConstraint, getClassification in H.
  rewrite K in H. cbn in H.
  destruct (getSecondType c); [|discriminate].
  inversion H; subst; clear H. cbn.
  apply fold_getTVC_establishes; auto;
    [apply Persistent_FullyBound | constructor].
Qed.

(** X10. Every type variable of the member type of a member constraint whose
    base and member types share no type variable gets a summary that is
    marked fully bound. *)
Theorem collectConstraints_member
  (constraints disjunctions0 : list Constraint) (c : Constraint)
  (member : Ty) (tv : TypeVariable) :
  In c constraints ->
  getKind c = ValueMember \/ getKind c = TypeMember ->
  getSecondType c = Some member ->
  typeVariablesIntersect (getTypeVariables (simplifyType (getFirstType c)))
                         (getTypeVariables (simplifyType member)) = false ->
  In tv (getTypeVariables (simplifyType member)) ->
  match collectConstraintsForTypeVariables constraints disjunctions0 with
  | Some (tvcs, _) =>
      exists t, In t tvcs /\ TypeVar t = getRepresentative tv /\
                FullyBound t = true
  | None => True
  end.
Proof.
  intros Hin K S2 Hdis Htv.
  apply (collectConstraints_establish (fun t => FullyBound t = true)
           (getRepresentative tv) c);
    [apply Persistent_FullyBound | assumption |].
  intros st st1 HM H. unfold classifyConstraint, getClassification in H.
  assert (H' : Some (fold_left (fun s typeVar =>
                                  getTVC typeVar setFullyBound s)
                       (getTypeVariables (simplifyType member)) st)
               = Some st1).
  { destruct K as [K|K]; rewrite K in H; cbn in H;
      rewrite S2, Hdis in H; exact H. }
  inversion H'; subst; clear H' H.
  apply fold_getTVC_establishes; auto;
    [apply Persistent_FullyBound | constructor].
Qed.

(** X11. A relational constraint between a type variable and a type is
    recorded, with the other side simplified, among the upper bounds of a
    variable on its left and among the lower bounds of a variable on its
    right. *)
Theorem collectConstraints_bounds
  (constraints disjunctions0 : list Constraint) (c : Constraint)
  (second : Ty) :
  In c constraints ->
  isBoundKind (getKind c) = true ->
  getSecondType c = Some second ->
  match collectConstraintsForTypeVariables constraints disjunctions0 with
  | Some (tvcs, _) =>
      (forall v, simplifyType (getFirstType c) = TypeVariableType v ->
         exists t, In t tvcs /\ TypeVar t = getRepresentative v /\
                   In (c, simplifyType second) (Above t)) /\
      (forall w, simplifyType second = TypeVariableType w ->
         exists t, In t tvcs /\ TypeVar t = getRepresentative w /\
                   In (c, simplifyType (getFirstType c)) (Below t))
  | None => True
  end.
Proof.
  intros Hin K S2.
  assert (Hstep : forall st st1,
            classifyConstraint c st = Some st1 ->
            exists sa sb,
              sa = match getAsTypeVariable (simplifyType (getFirstType c))
                   with
                   | Some tv =>
                       getTVC tv (pushAbove (c, simplifyType second)) st
                   | None => addReferenced
                               (getTypeVariables
                                  (simplifyType (getFirstType c))) st
                   end /\
              sb = match getAsTypeVariable (simplifyType second) with
                   | Some tv =>
                       getTVC tv
                         (pushBelow (c, simplifyType (getFirstType c))) sa
                   | None => addReferenced
                               (getTypeVariables (simplifyType second)) sa
                   end /\
              typeVarConstraints st1 = typeVarConstraints sb).
  { intros st st1 H. unfold classifyConstraint, getClassification in H.
    rewrite S2 in H.
    do 2 eexists. split; [reflexivity|]. split; [reflexivity|].
    destruct (getKind c); try discriminate K; cbn in H;
      destruct (getAsTypeVariable (simplifyType (getFirstType c)));
      destruct (getAsTypeVariable (simplifyType second));
      inversion H; subst; reflexivity. }
  pose proof (collectConstraints_establish
                (fun t => In (c, simplifyType second) (Above t))) as EA.
  pose proof (collectConstraints_establish
                (fun t => In (c, simplifyType (getFirstType c)) (Below t)))
    as EB.
  destruct (collectConstraintsForTypeVariables constraints disjunctions0)
    as [[tvcs disj]|] eqn:E; [|exact I].
  split.
  - intros v Hv.
    specialize (EA (getRepresentative v) c constraints disjunctions0
                   (Persistent_Above _) Hin).
    rewrite E in EA. apply EA. clear EA EB.
    intros st st1 HM H.
    destruct (Hstep _ _ H) as (sa & sb & Ea & Eb & E1). rewrite E1.
    rewrite Hv in Ea. cbn in Ea.
    assert (HA : hasSummary (fun t => In (c, simplifyType second) (Above t))
                   (getRepresentative v) (typeVarConstraints sa)).
    { rewrite Ea. apply getTVC_establishes; auto; [constructor|].
      intros t. cbn. apply in_or_app. right. now left. }
    rewrite Eb. destruct (getAsTypeVariable (simplifyType second));
      [|exact HA].
    apply getTVC_keeps; auto; [apply Persistent_Above | constructor].
  - intros w Hw.
    specialize (EB (getRepresentative w) c constraints disjunctions0
                   (Persistent_Below _) Hin).
    rewrite E in EB. apply EB. clear EA EB.
    intros st st1 HM H.
    destruct (Hstep _ _ H) as (sa & sb & Ea & Eb & E1). rewrite E1.
    rewrite Hw in Eb. cbn in Eb. rewrite Eb.
    apply getTVC_establishes; auto; [constructor | |].
    + intros t. cbn. apply in_or_app. right. now left.
    + rewrite Ea. destruct (getAsTypeVariable _); [|exact HM].
      apply getTVC_MapOK; [constructor | exact HM].
Qed.

(** X12. A conformance or self-object constraint on a type variable is
    recorded among the conformance constraints of its summary. *)
Theorem collectConstraints_conformance
  (constraints disjunctions0 : list Constraint) (c : Constraint)
  (v : TypeVariable) :
  In c constraints ->
  getKind c = ConformsTo \/ getKind c = SelfObjectOfProtocol ->
  simplifyType (getFirstType c) = TypeVariableType v ->
  match collectConstraintsForTypeVariables constraints disjunctions0 with
  | Some (tvcs, _) =>
      exists t, In t tvcs /\ TypeVar t = getRepresentative v /\
                In c (ConformsToConstraints t)
  | None => True
  end.
Proof.
  intros Hin K Hv.
  apply (collectConstraints_establish
           (fun t => In c (ConformsToConstraints t))
           (getRepresentative v) c);
    [apply Persistent_ConformsTo | assumption |].
  intros st st1 HM H. unfold classifyConstraint, getClassification in H.
  assert (H' : Some (getTVC v (pushConformsTo c) st) = Some st1).
  { destruct K as [K|K]; rewrite K in H; cbn in H; rewrite Hv in H;
      exact H. }
  inversion H'; subst.
  apply getTVC_establishes; auto; [constructor|].
  intros t. cbn. apply in_or_app. right. now left.
Qed.

End ClassifierSummaries.

(** ** Intersection of type variable sets *)

Section Intersect.
Context {env : SemaEnv}.

Lemma typeVariablesIntersect_iff (typeVars1 typeVars2 : list TypeVariable) :
  typeVariablesIntersect typeVars1 typeVars2 = true <->
  exists tv1 tv2, In tv1 typeVars1 /\ In tv2 typeVars2 /\
                  getRepresentative tv1 = getRepresentative tv2.
Proof.
  assert (G : existsb (fun tv =>
                 existsb (Nat.eqb (getRepresentative tv))
                         (map getRepresentative typeVars1)) typeVars2 = true
              <-> exists tv1 tv2, In tv1 typeVars1 /\ In tv2 typeVars2 /\
                    getRepresentative tv1 = getRepresentative tv2).
  { rewrite existsb_exists. split.
    - intros (tv2 & H2 & H). apply existsb_exists in H.
      destruct H as (r & Hr & E). apply Nat.eqb_eq in E.
      apply in_map_iff in Hr. destruct Hr as (tv1 & E1 & H1).
      exists tv1, tv2. repeat split; auto. congruence.
    - intros (tv1 & tv2 & H1 & H2 & E). exists tv2. split; [assumption|].
      apply existsb_exists. exists (getRepresentative tv1).
      split; [now apply in_map | apply Nat.eqb_eq; congruence]. }
  unfold typeVariablesIntersect.
  destruct typeVars1 as [|a l1].
  - split; [discriminate|]. intros (tv1 & _ & [] & _).
  - destruct typeVars2 as [|b l2].
    + split; [discriminate|]. intros (_ & tv2 & _ & [] & _).
    + exact G.
Qed.

(** X13. [typeVariablesIntersect] answers whether a variable of the first
    vector and a variable of the second have the same representative; the
    early exit on an empty vector agrees with that. *)
Theorem typeVariablesIntersect_spec (typeVars1 typeVars2 : list TypeVariable) :
  typeVariablesIntersect typeVars1 typeVars2 = true <->
  exists tv1 tv2, In tv1 typeVars1 /\ In tv2 typeVars2 /\
                  getRepresentative tv1 = getRepresentative tv2.
Proof. apply typeVariablesIntersect_iff. Qed.

(** X14. The answer of [typeVariablesIntersect] does not depend on which of
    the two vectors is put into the pointer set. *)
Theorem typeVariablesIntersect_sym (typeVars1 typeVars2 : list TypeVariable) :
  typeVariablesIntersect typeVars1 typeVars2 =
  typeVariablesIntersect typeVars2 typeVars1.
Proof.
  apply eq_true_iff_eq. rewrite !typeVariablesIntersect_iff.
  split; intros (a & b & Ha & Hb & E); exists b, a; repeat split; auto.
Qed.

End Intersect.

(** ** The loops of [getPotentialBindings] *)

Section PotentialBindingsMore.
Context {env : SemaEnv}.

Lemma existsb_snd_push (l : list (Ty * bool)) (ty : Ty) (flag : bool) :
  existsb snd (l ++ [(ty, flag)]) = existsb snd l || flag.
Proof. rewrite existsb_app. cbn. now rewrite orb_false_r. Qed.

Lemma addBelow_step tv arg r e r' e' :
  addBelow tv arg (r, e) = (r', e') ->
  PBFullyBound r' = PBFullyBound r /\
  HasLiteralBindings r' = HasLiteralBindings r /\
  InvolvesTypeVariables r' =
    InvolvesTypeVariables r || boundInvolvesTypeVariables tv arg /\
  ((Bindings r' = Bindings r /\ e' = e) \/
   (exists ty, Bindings r' = Bindings r ++ [(ty, false)] /\
               e' = getCanonicalType ty :: e /\
               ~ In (getCanonicalType ty) e /\
               candidateOfBound tv arg ty)) /\
  (forall type, checkTypeOfBinding tv (Some (snd arg)) = Some type ->
     exists ty, candidateOfBound tv arg ty /\ In (getCanonicalType ty) e').
Proof.
  unfold addBelow, boundInvolvesTypeVariables, candidateOfBound.
  destruct (checkTypeOfBinding tv (Some (snd arg))) as [type|] eqn:C.
  - destruct (setInsert_spec (getCanonicalType type) e) as [[Hin ->]|[Hn ->]];
      intros H; inversion H; subst; clear H.
    + destruct (hasTypeVariable type); cbn;
        rewrite ?orb_true_r, ?orb_false_r;
        (split; [reflexivity|]); (split; [reflexivity|]);
        (split; [reflexivity|]); (split; [now left|]);
        intros type' E; inversion E; subst; exists type';
        (split; [exists type'; split; [reflexivity | now left] | assumption]).
    + destruct (hasTypeVariable type); cbn;
        rewrite ?orb_true_r, ?orb_false_r;
        (split; [reflexivity|]); (split; [reflexivity|]);
        (split; [reflexivity|]);
        (split; [right; exists type; repeat split; auto;
                 exists type; split; [reflexivity | now left]|]);
        intros type' E; inversion E; subst; exists type';
        (split; [exists type'; split; [reflexivity | now left] | now left]).
  - intros H; inversion H; subst; clear H. cbn. rewrite orb_true_r.
    repeat split; auto. discriminate.
Qed.

Lemma addAbove_step tv arg r e r' e' :
  addAbove tv arg (r, e) = (r', e') ->
  PBFullyBound r' = PBFullyBound r /\
  HasLiteralBindings r' = HasLiteralBindings r /\
  InvolvesTypeVariables r' =
    InvolvesTypeVariables r || boundInvolvesTypeVariables tv arg /\
  ((Bindings r' = Bindings r /\ e' = e) \/
   (exists ty, Bindings r' = Bindings r ++ [(ty, false)] /\
               e' = getCanonicalType ty :: e /\
               ~ In (getCanonicalType ty) e /\
               candidateOfBound tv arg ty)) /\
  (forall type, checkTypeOfBinding tv (Some (snd arg)) = Some type ->
     exists ty, candidateOfBound tv arg ty /\ In (getCanonicalType ty) e').
Proof.
  unfold addAbove, boundInvolvesTypeVariables, candidateOfBound.
  destruct (checkTypeOfBinding tv (Some (snd arg))) as [type|] eqn:C.
  - remember (if ConstraintKind_eqb (getKind (fst arg)) Conversion ||
                 ConstraintKind_eqb (getKind (fst arg)) Subtype ||
                 ConstraintKind_eqb (getKind (fst arg)) TrivialSubtype
              then match getAsTupleType type with
                   | Some [elt] =>
                       if negb (Vararg elt) then EltType elt else type
                   | _ => type
                   end
              else type) as ty eqn:Ety.
    assert (Hty : ty = type \/
                  exists elt, getAsTupleType type = Some [elt] /\
                              Vararg elt = false /\ ty = EltType elt).
    { rewrite Ety. destruct (_ || _); [|now left].
      destruct (getAsTupleType type) as [[|elt [|]]|]; try now left.
      destruct (Vararg elt) eqn:V; cbn; [now left|].
      right. exists elt. auto. }
    clear Ety.
    destruct (setInsert_spec (getCanonicalType ty) e) as [[Hin ->]|[Hn ->]];
      intros H; inversion H; subst r' e'; clear H.
    + destruct (hasTypeVariable type); cbn;
        rewrite ?orb_true_r, ?orb_false_r;
        (split; [reflexivity|]); (split; [reflexivity|]);
        (split; [reflexivity|]); (split; [now left|]);
        intros type' E; inversion E; subst type'; exists ty;
        (split; [exists type; split; [reflexivity | assumption]
                | assumption]).
    + destruct (hasTypeVariable type); cbn;
        rewrite ?orb_true_r, ?orb_false_r;
        (split; [reflexivity|]); (split; [reflexivity|]);
        (split; [reflexivity|]);
        (split; [right; exists ty; repeat split; auto;
                 exists type; split; [reflexivity | assumption]|]);
        intros type' E; inversion E; subst type'; exists ty;
        (split; [exists type; split; [reflexivity | assumption]
                | now left]).
  - intros H; inversion H; subst; clear H. cbn. rewrite orb_true_r.
    repeat split; auto. discriminate.
Qed.

Lemma addLiteralDefault_step c r e r' e' :
  addLiteralDefault c (r, e) = (r', e') ->
  PBFullyBound r' = PBFullyBound r /\
  InvolvesTypeVariables r' = InvolvesTypeVariables r /\
  ((Bindings r' = Bindings r /\ e' = e /\
    HasLiteralBindings r' = HasLiteralBindings r) \/
   (exists ty, Bindings r' = Bindings r ++ [(ty, true)] /\
               (e' = getCanonicalType ty :: e \/ e' = e) /\
               (e' = e -> In (getCanonicalType ty) e) /\
               HasLiteralBindings r' = true /\
               getDefaultType (getProtocol c) = Some ty)).
Proof.
  unfold addLiteralDefault.
  destruct (getDefaultType (getProtocol c)) as [type|] eqn:D.
  2:{ intros H; inversion H; subst. repeat split; auto. }
  destruct (negb (isUnspecializedGeneric type)).
  - destruct (setInsert_spec (getCanonicalType type) e) as [[Hin ->]|[Hn ->]];
      intros H; inversion H; subst; clear H; cbn.
    + repeat split; auto.
    + split; [reflexivity|]. split; [reflexivity|]. right. exists type.
      repeat split; auto. intros E. exfalso.
      assert (L : length (getCanonicalType type :: e) = length e)
        by now rewrite E.
      cbn in L. lia.
  - destruct (negb _); intros H; inversion H; subst; clear H; cbn.
    + split; [reflexivity|]. split; [reflexivity|]. right. exists type.
      destruct (setInsert_spec (getCanonicalType type) e)
        as [[Hin ->]|[Hn ->]]; cbn.
      * repeat split; auto.
      * repeat split; auto. intros E. exfalso.
        assert (L : length (getCanonicalType type :: e) = length e)
          by now rewrite E.
        cbn in L. lia.
    + repeat split; auto.
Qed.

Lemma boundLoop
  (step : Constraint * Ty -> PotentialBindings * list Ty ->
          PotentialBindings * list Ty) (tv : TypeVariable) :
  (forall arg r e r' e',
     step arg (r, e) = (r', e') ->
     PBFullyBound r' = PBFullyBound r /\
     HasLiteralBindings r' = HasLiteralBindings r /\
     InvolvesTypeVariables r' =
       InvolvesTypeVariables r || boundInvolvesTypeVariables tv arg /\
     ((Bindings r' = Bindings r /\ e' = e) \/
      (exists ty, Bindings r' = Bindings r ++ [(ty, false)] /\
                  e' = getCanonicalType ty :: e /\
                  ~ In (getCanonicalType ty) e /\
                  candidateOfBound tv arg ty)) /\
     (forall type, checkTypeOfBinding tv (Some (snd arg)) = Some type ->
        exists ty, candidateOfBound tv arg ty /\
                   In (getCanonicalType ty) e')) ->
  forall l r e,
  exists added,
    PBFullyBound (fst (fold_left (fun a arg => step arg a) l (r, e)))
      = PBFullyBound r /\
    HasLiteralBindings (fst (fold_left (fun a arg => step arg a) l (r, e)))
      = HasLiteralBindings r /\
    InvolvesTypeVariables (fst (fold_left (fun a arg => step arg a) l (r, e)))
      = InvolvesTypeVariables r ||
        existsb (boundInvolvesTypeVariables tv) l /\
    Bindings (fst (fold_left (fun a arg => step arg a) l (r, e)))
      = Bindings r ++ map (fun ty => (ty, false)) added /\
    snd (fold_left (fun a arg => step arg a) l (r, e))
      = rev (map getCanonicalType added) ++ e /\
    (NoDup e -> NoDup (rev (map getCanonicalType added) ++ e)) /\
    (forall ty, In ty added ->
       exists arg, In arg l /\ candidateOfBound tv arg ty) /\
    (forall arg, In arg l ->
       forall type, checkTypeOfBinding tv (Some (snd arg)) = Some type ->
       exists ty, candidateOfBound tv arg ty /\
                  In (getCanonicalType ty)
                     (rev (map getCanonicalType added) ++ e)).
Proof.
  intros Hstep l. induction l as [|arg l IH]; intros r e.
  - exists []. cbn. rewrite app_nil_r, orb_false_r.
    split; [reflexivity|]. split; [reflexivity|]. split; [reflexivity|].
    split; [reflexivity|]. split; [reflexivity|]. split; [auto|].
    split; [intros ty []|]. intros arg [].
  - cbn [fold_left].
    destruct (step arg (r, e)) as [r1 e1] eqn:E.
    destruct (Hstep _ _ _ _ _ E)
      as (F1 & L1 & I1 & [(B1 & X1)|(ty & B1 & X1 & N1 & P1)] & C1);
      destruct (IH r1 e1) as (added & F & L & I & B & X & ND & P & C).
    + exists added. subst e1.
      rewrite F, L, I, B, X, F1, L1, I1, B1. cbn [existsb].
      rewrite orb_assoc.
      split; [reflexivity|]. split; [reflexivity|]. split; [reflexivity|].
      split; [reflexivity|]. split; [reflexivity|]. split; [exact ND|].
      split.
      * intros ty Hty. destruct (P ty Hty) as (a & Ha & Hc).
        exists a. split; [now right | assumption].
      * intros a [<-|Ha] type Ht.
        -- destruct (C1 type Ht) as (ty & Hc & Hin). exists ty.
           split; [assumption|]. apply in_or_app. now right.
        -- apply (C a Ha type Ht).
    + exists (ty :: added). subst e1.
      rewrite F, L, I, B, X, F1, L1, I1, B1. cbn [existsb map rev].
      rewrite orb_assoc, <- !app_assoc. cbn [app].
      split; [reflexivity|]. split; [reflexivity|]. split; [reflexivity|].
      split; [reflexivity|]. split; [reflexivity|]. split.
      * intros He. apply ND. now constructor.
      * split.
        -- intros ty' [<-|Hty].
           ++ exists arg. split; [now left | assumption].
           ++ destruct (P ty' Hty) as (a & Ha & Hc).
              exists a. split; [now right | assumption].
        -- intros a [<-|Ha] type Ht.
           ++ destruct (C1 type Ht) as (ty' & Hc & Hin). exists ty'.
              split; [assumption|]. apply in_or_app. now right.
           ++ apply (C a Ha type Ht).
Qed.

Lemma literalLoop l r e :
  exists lits,
    PBFullyBound (fst (fold_left (fun a c => addLiteralDefault c a) l (r, e)))
      = PBFullyBound r /\
    InvolvesTypeVariables
      (fst (fold_left (fun a c => addLiteralDefault c a) l (r, e)))
      = InvolvesTypeVariables r /\
    HasLiteralBindings
      (fst (fold_left (fun a c => addLiteralDefault c a) l (r, e)))
      = HasLiteralBindings r || match lits with [] => false | _ => true end /\
    Bindings (fst (fold_left (fun a c => addLiteralDefault c a) l (r, e)))
      = Bindings r ++ map (fun ty => (ty, true)) lits /\
    (forall ty, In ty lits ->
       exists c, In c l /\ getDefaultType (getProtocol c) = Some ty) /\
    (forall x, In x e ->
       In x (snd (fold_left (fun a c => addLiteralDefault c a) l (r, e)))).
Proof.
  revert r e. induction l as [|c l IH]; intros r e.
  - exists []. cbn. rewrite app_nil_r, orb_false_r.
    split; [reflexivity|]. split; [reflexivity|]. split; [reflexivity|].
    split; [reflexivity|]. split; [intros ty []|]. auto.
  - cbn [fold_left].
    destruct (addLiteralDefault c (r, e)) as [r1 e1] eqn:E.
    destruct (addLiteralDefault_step _ _ _ _ _ E)
      as (F1 & I1 & [(B1 & X1 & L1)|(ty & B1 & X1 & _ & L1 & D1)]);
      destruct (IH r1 e1) as (lits & F & I & L & B & P & G).
    + exists lits. subst e1. rewrite F, I, L, B, F1, I1, L1, B1.
      split; [reflexivity|]. split; [reflexivity|]. split; [reflexivity|].
      split; [reflexivity|]. split; [|exact G].
      intros ty Hty. destruct (P ty Hty) as (c' & Hc & Hd).
      exists c'. split; [now right | assumption].
    + exists (ty :: lits). rewrite F, I, L, B, F1, I1, L1, B1.
      cbn [map]. rewrite <- app_assoc, orb_true_r. cbn [app].
      split; [reflexivity|]. split; [reflexivity|]. split; [reflexivity|].
      split; [reflexivity|]. split.
      * intros ty' [<-|Hty].
        -- exists c. split; [now left | assumption].
        -- destruct (P ty' Hty) as (c' & Hc & Hd).
           exists c'. split; [now right | assumption].
      * intros x Hx. apply G. destruct X1 as [->| ->]; [now right | exact Hx].
Qed.

Lemma existsb_snd_false (l : list Ty) :
  existsb snd (map (fun ty => (ty, false)) l) = false.
Proof. induction l; cbn; auto. Qed.

Lemma existsb_snd_true (l : list Ty) :
  existsb snd (map (fun ty => (ty, true)) l) =
  match l with [] => false | _ => true end.
Proof. destruct l; reflexivity. Qed.

(** The pieces of the result of [getPotentialBindings], loop by loop. *)
Lemma getPotentialBindings_loops (tvc : TypeVariableConstraints) :
  exists below above lits,
    PBFullyBound (getPotentialBindings tvc) = FullyBound tvc /\
    InvolvesTypeVariables (getPotentialBindings tvc) =
      HasNonConcreteConstraints tvc ||
      existsb (boundInvolvesTypeVariables (TypeVar tvc))
              (Below tvc ++ Above tvc) /\
    HasLiteralBindings (getPotentialBindings tvc) =
      match lits with [] => false | _ => true end /\
    Bindings (getPotentialBindings tvc) =
      map (fun ty => (ty, false)) (below ++ above) ++
      map (fun ty => (ty, true)) lits /\
    NoDup (map getCanonicalType (below ++ above)) /\
    (forall ty, In ty (below ++ above) ->
       exists arg, In arg (Below tvc ++ Above tvc) /\
                   candidateOfBound (TypeVar tvc) arg ty) /\
    (forall ty, In ty lits ->
       exists c, In c (ConformsToConstraints tvc) /\
                 getDefaultType (getProtocol c) = Some ty) /\
    (forall arg, In arg (Below tvc ++ Above tvc) ->
       forall type,
         checkTypeOfBinding (TypeVar tvc) (Some (snd arg)) = Some type ->
         exists ty, candidateOfBound (TypeVar tvc) arg ty /\
                    In (getCanonicalType ty)
                       (map getCanonicalType (below ++ above))).
Proof.
  unfold getPotentialBindings.
  set (r0 := mkPotentialBindings [] (FullyBound tvc)
               (HasNonConcreteConstraints tvc) false).
  destruct (boundLoop (addBelow (TypeVar tvc)) (TypeVar tvc)
              (addBelow_step (TypeVar tvc)) (Below tvc) r0 [])
    as (below & F1 & L1 & I1 & B1 & X1 & N1 & P1 & C1).
  destruct (fold_left (fun a arg => addBelow (TypeVar tvc) arg a)
              (Below tvc) (r0, [])) as [r1 e1].
  cbn [fst snd] in *.
  destruct (boundLoop (addAbove (TypeVar tvc)) (TypeVar tvc)
              (addAbove_step (TypeVar tvc)) (Above tvc) r1 e1)
    as (above & F2 & L2 & I2 & B2 & X2 & N2 & P2 & C2).
  destruct (fold_left (fun a arg => addAbove (TypeVar tvc) arg a)
              (Above tvc) (r1, e1)) as [r2 e2].
  cbn [fst snd] in *.
  destruct (literalLoop (ConformsToConstraints tvc) r2 e2)
    as (lits & F3 & I3 & L3 & B3 & P3 & G3).
  exists below, above, lits.
  rewrite F3, I3, L3, B3, F2, I2, L2, B2, F1, I1, L1, B1.
  subst r0. cbn [PBFullyBound InvolvesTypeVariables HasLiteralBindings
                 Bindings app orb].
  rewrite existsb_app, orb_assoc, map_app.
  assert (ND : NoDup (map getCanonicalType (below ++ above))).
  { rewrite <- (rev_involutive (map getCanonicalType (below ++ above))).
    apply NoDup_rev. rewrite map_app, rev_app_distr.
    rewrite X1 in N2. rewrite app_nil_r in N1, N2.
    apply N2. apply N1. constructor. }
  split; [reflexivity|]. split; [reflexivity|]. split; [reflexivity|].
  split; [reflexivity|]. split; [exact ND|]. split; [|split; [exact P3|]].
  - intros ty Hty. apply in_app_or in Hty. destruct Hty as [Hty|Hty].
    + destruct (P1 ty Hty) as (a & Ha & Hc). exists a.
      split; [apply in_or_app; now left | assumption].
    + destruct (P2 ty Hty) as (a & Ha & Hc). exists a.
      split; [apply in_or_app; now right | assumption].
  - intros arg Harg type Ht. apply in_app_or in Harg.
    destruct Harg as [Ha|Ha].
    + destruct (C1 arg Ha type Ht) as (ty & Hc & Hin). exists ty.
      split; [assumption|]. rewrite app_nil_r in Hin.
      rewrite map_app. apply in_or_app. left. now apply in_rev.
    + destruct (C2 arg Ha type Ht) as (ty & Hc & Hin). exists ty.
      split; [assumption|]. rewrite X1, app_nil_r in Hin.
      rewrite map_app. apply in_app_or in Hin. apply in_or_app.
      destruct Hin as [Hin|Hin]; [right | left]; now apply in_rev.
Qed.

(** X15. The flags of the result of [getPotentialBindings]: [FullyBound] is
    that of the summary; [InvolvesTypeVariables] is set exactly when the
    summary has non-concrete constraints or one of its bounds is rejected
    by [checkTypeOfBinding] or checked to a type with a type variable; and
    [HasLiteralBindings] is set exactly when one of the bindings is flagged
    as a literal default. *)
Theorem getPotentialBindings_flags (tvc : TypeVariableConstraints) :
  PBFullyBound (getPotentialBindings tvc) = FullyBound tvc /\
  InvolvesTypeVariables (getPotentialBindings tvc) =
    HasNonConcreteConstraints tvc ||
    existsb (boundInvolvesTypeVariables (TypeVar tvc))
            (Below tvc ++ Above tvc) /\
  HasLiteralBindings (getPotentialBindings tvc) =
    existsb snd (Bindings (getPotentialBindings tvc)).
Proof.
  destruct (getPotentialBindings_loops tvc)
    as (below & above & lits & F & I & L & B & _).
  rewrite F, I, L, B.
  split; [reflexivity|]. split; [reflexivity|].
  rewrite existsb_app, existsb_snd_false, existsb_snd_true. reflexivity.
Qed.

(** X16. The bindings of the result of [getPotentialBindings] are the
    candidates of the bounds, not flagged and with pairwise distinct
    canonical types, followed by the default types of the conformance
    constraints, flagged as literal defaults. *)
Theorem getPotentialBindings_bindings (tvc : TypeVariableConstraints) :
  exists bounds literals,
    Bindings (getPotentialBindings tvc) =
      map (fun ty => (ty, false)) bounds ++
      map (fun ty => (ty, true)) literals /\
    NoDup (map getCanonicalType bounds) /\
    (forall ty, In ty bounds ->
       exists arg, In arg (Below tvc ++ Above tvc) /\
                   candidateOfBound (TypeVar tvc) arg ty) /\
    (forall ty, In ty literals ->
       exists c, In c (ConformsToConstraints tvc) /\
                 getDefaultType (getProtocol c) = Some ty).
Proof.
  destruct (getPotentialBindings_loops tvc)
    as (below & above & lits & _ & _ & _ & B & ND & P & PL & _).
  exists (below ++ above), lits. auto.
Qed.

(** X17. Every bound that [checkTypeOfBinding] accepts is represented among
    the bindings: one of them has the canonical type of the candidate of
    the bound and is not flagged as a literal default. *)
Theorem getPotentialBindings_covers (tvc : TypeVariableConstraints)
  (arg : Constraint * Ty) (type : Ty) :
  In arg (Below tvc ++ Above tvc) ->
  checkTypeOfBinding (TypeVar tvc) (Some (snd arg)) = Some type ->
  exists ty binding,
    candidateOfBound (TypeVar tvc) arg ty /\
    In (binding, false) (Bindings (getPotentialBindings tvc)) /\
    getCanonicalType binding = getCanonicalType ty.
Proof.
  intros Hin Hc.
  destruct (getPotentialBindings_loops tvc)
    as (below & above & lits & _ & _ & _ & B & _ & _ & _ & C).
  destruct (C arg Hin type Hc) as (ty & Hcand & Hcan).
  apply in_map_iff in Hcan. destruct Hcan as (b & Eb & Hb).
  exists ty, b. split; [assumption|]. split; [|assumption].
  rewrite B. apply in_or_app. left.
  apply in_map_iff. exists b. auto.
Qed.

End PotentialBindingsMore.

(** ** More on the binding search *)

Section BindingSearchMore.
Context {env : SemaEnv}.
Variable St : Type.
Variable solveWithBinding : TypeVariable -> Ty -> St -> bool * St.

Lemma tryBindings_app tv pre rest anySolved saw st :
  Forall (fun b : Ty * bool => snd b = false) pre ->
  tryBindings St solveWithBinding tv (pre ++ rest) anySolved saw st =
  tryBindings St solveWithBinding tv rest
    (fst (tryBindings St solveWithBinding tv pre anySolved saw st)) saw
    (snd (tryBindings St solveWithBinding tv pre anySolved saw st)).
Proof.
  intros H. revert anySolved st.
  induction H as [|b pre Hb Hpre IH]; intros anySolved st; [reflexivity|].
  cbn [app tryBindings]. rewrite Hb.
  destruct (solveWithBinding tv _ st) as [failed st1]. apply IH.
Qed.

(** X18. Once a binding that is not a literal default has led to a solution,
    the loop over the bindings of a round stops at the first literal
    default: neither it nor any binding after it is attempted. *)
Theorem tryBindings_stops_at_first_literal
  (typeVar : TypeVariable) (pre post : list (Ty * bool))
  (literal : Ty * bool) (st : St) :
  Forall (fun b : Ty * bool => snd b = false) pre ->
  snd literal = true ->
  fst (tryBindings St solveWithBinding typeVar pre false false st) = true ->
  tryBindings St solveWithBinding typeVar (pre ++ literal :: post)
              false false st =
  tryBindings St solveWithBinding typeVar pre false false st.
Proof.
  intros Hpre Hlit Hsolved. rewrite tryBindings_app by assumption.
  cbn [tryBindings]. rewrite Hlit, Hsolved. cbn.
  rewrite <- Hsolved at 1. now destruct (tryBindings _ _ _ pre _ _ _).
Qed.

Lemma noteVisited_spec (bindings : list (Ty * bool)) (explored : list Ty)
  (c : Ty) :
  In c (noteVisited bindings explored) <->
  In c explored \/
  In c (map (fun b => getCanonicalType (fst b)) bindings).
Proof.
  unfold noteVisited. revert explored.
  induction bindings as [|b bindings IH]; intros explored; cbn.
  - tauto.
  - rewrite IH.
    destruct (setInsert_spec (getCanonicalType (fst b)) explored)
      as [[Hin ->]|[Hn ->]]; cbn.
    + split; [tauto|]. intros [H|[<-|H]]; auto.
    + tauto.
Qed.

Lemma literalAlternatives_spec (tvc : TypeVariableConstraints)
  (newBindings : list (Ty * bool)) (explored : list Ty) :
  exists added,
    fst (literalAlternatives tvc (newBindings, explored))
      = newBindings ++ added /\
    (forall b, In b added ->
       snd b = true /\ ~ In (getCanonicalType (fst b)) explored /\
       exists c, In c (ConformsToConstraints tvc) /\
                 getDefaultType (getProtocol c) <> None /\
                 In (fst b) (getAlternativeLiteralTypes (getProtocol c))) /\
    NoDup (map (fun b => getCanonicalType (fst b)) added) /\
    (forall c, In c (snd (literalAlternatives tvc (newBindings, explored)))
       <-> In c explored \/
           In c (map (fun b => getCanonicalType (fst b)) added)).
Proof.
  unfold literalAlternatives.
  generalize (ConformsToConstraints tvc) as l.
  intros l. revert newBindings explored.
  induction l as [|k l IH]; intros newBindings explored.
  - exists []. cbn. rewrite app_nil_r. split; [reflexivity|].
    split; [intros b []|]. split; [constructor|]. intros c. tauto.
  - cbn [fold_left].
    destruct (getDefaultType (getProtocol k)) as [d|] eqn:D.
    + destruct (addUnexplored_spec true
                  (getAlternativeLiteralTypes (getProtocol k))
                  newBindings explored)
        as (a1 & E1 & B1 & N1 & _ & X1).
      destruct (addUnexplored true _ (newBindings, explored))
        as [nb1 ex1]. cbn [fst snd] in *. subst nb1.
      destruct (IH (newBindings ++ a1) ex1) as (a2 & E2 & B2 & N2 & X2).
      exists (a1 ++ a2). rewrite E2, <- app_assoc.
      split; [reflexivity|]. split; [|split].
      * intros b Hb. apply in_app_or in Hb. destruct Hb as [Hb|Hb].
        -- destruct (B1 b Hb) as (H1 & H2 & H3).
           split; [assumption|]. split; [assumption|].
           exists k. split; [now left|]. split; [congruence | assumption].
        -- destruct (B2 b Hb) as (H1 & H2 & c & H3 & H4).
           split; [assumption|]. split.
           ++ intros Hin. apply H2. apply X1. now left.
           ++ exists c. split; [now right | assumption].
      * rewrite map_app. apply NoDup_app; [assumption | assumption |].
        intros c H1 H2. apply in_map_iff in H2.
        destruct H2 as (b & Eb & Hb).
        destruct (B2 b Hb) as (_ & Hn & _). apply Hn. rewrite Eb.
        apply X1. now right.
      * intros c. rewrite X2, X1, map_app, in_app_iff. tauto.
    + destruct (IH newBindings explored) as (a2 & E2 & B2 & N2 & X2).
      exists a2. split; [assumption|]. split; [|split; assumption].
      intros b Hb. destruct (B2 b Hb) as (H1 & H2 & c & H3 & H4).
      split; [assumption|]. split; [assumption|].
      exists c. split; [now right | assumption].
Qed.

(** What [nextBindings] gives in any round. *)
Lemma nextBindings_fresh (tvc : TypeVariableConstraints) (tryCount : nat)
  (bindings : list (Ty * bool)) (explored : list Ty) :
  NoDup (map (fun b => getCanonicalType (fst b))
             (fst (nextBindings tvc tryCount bindings explored))) /\
  (forall b, In b (fst (nextBindings tvc tryCount bindings explored)) ->
     ~ In (getCanonicalType (fst b)) explored /\
     (tryCount = 0 ->
      ~ In (getCanonicalType (fst b))
           (map (fun b => getCanonicalType (fst b)) bindings))) /\
  (forall c,
     In c explored \/
     In c (map (fun b => getCanonicalType (fst b))
               (fst (nextBindings tvc tryCount bindings explored))) \/
     (tryCount = 0 /\
      In c (map (fun b => getCanonicalType (fst b)) bindings)) ->
     In c (snd (nextBindings tvc tryCount bindings explored))) /\
  ((tryCount = 0 /\
    fst (nextBindings tvc tryCount bindings explored) <> [] /\
    forall b, In b (fst (nextBindings tvc tryCount bindings explored)) ->
      snd b = true /\
      exists c, In c (ConformsToConstraints tvc) /\
                getDefaultType (getProtocol c) <> None /\
                In (fst b) (getAlternativeLiteralTypes (getProtocol c))) \/
   (forall b, In b (fst (nextBindings tvc tryCount bindings explored)) ->
      snd b = false /\
      exists binding supertype,
        In binding bindings /\
        In supertype (enumerateDirectSupertypes (fst binding)) /\
        checkTypeOfBinding (TypeVar tvc) (Some supertype) = Some (fst b))).
Proof.
  unfold nextBindings.
  destruct (Nat.eqb_spec tryCount 0) as [E0|N0].
  - destruct (literalAlternatives_spec tvc []
                (noteVisited bindings explored))
      as (a1 & E1 & B1 & N1 & X1).
    cbn [app] in E1.
    destruct (literalAlternatives tvc ([], noteVisited bindings explored))
      as [nb1 ex1]. cbn [fst snd andb] in *. subst nb1.
    destruct a1 as [|b1 a1].
    + unfold supertypeBindings.
      destruct (addUnexplored_spec false
                  (checkedSupertypes (TypeVar tvc) bindings) [] ex1)
        as (a2 & E2 & B2 & N2 & _ & X2).
      cbn [app] in E2. rewrite E2.
      split; [exact N2|]. split; [|split].
      * intros b Hb. destruct (B2 b Hb) as (_ & _ & H3).
        split; [|intros _]; intros Hin; apply H3; apply X1; left;
          apply noteVisited_spec; [now left | now right].
      * intros c Hc. apply X2. rewrite X1. cbn [map In].
        rewrite noteVisited_spec. tauto.
      * right. intros b Hb. destruct (B2 b Hb) as (H1 & H2 & _).
        split; [assumption|]. now apply checkedSupertypes_In.
    + cbn [fst snd].
      split; [exact N1|]. split; [|split].
      * intros b Hb. destruct (B1 b Hb) as (_ & H2 & _).
        split; [|intros _]; intros Hin; apply H2;
          apply noteVisited_spec; [now left | now right].
      * intros c Hc. apply X1. rewrite noteVisited_spec. tauto.
      * left. split; [assumption|]. split; [discriminate|].
        intros b Hb. destruct (B1 b Hb) as (H1 & _ & H3). auto.
  - cbn [andb fst snd]. unfold supertypeBindings.
    destruct (addUnexplored_spec false
                (checkedSupertypes (TypeVar tvc) bindings) [] explored)
      as (a2 & E2 & B2 & N2 & _ & X2).
    cbn [app] in E2. rewrite E2.
    split; [exact N2|]. split; [|split].
    + intros b Hb. destruct (B2 b Hb) as (_ & _ & H3).
      split; [assumption | intros; contradiction].
    + intros c Hc. apply X2. tauto.
    + right. intros b Hb. destruct (B2 b Hb) as (H1 & H2 & _).
      split; [assumption|]. now apply checkedSupertypes_In.
Qed.

(** After the loop over the conformance constraints, every alternative
    literal type of a protocol with a default type is explored. *)
Lemma literalAlternatives_complete (tvc : TypeVariableConstraints)
  (newBindings : list (Ty * bool)) (explored : list Ty)
  (c : Constraint) (t : Ty) :
  In c (ConformsToConstraints tvc) ->
  getDefaultType (getProtocol c) <> None ->
  In t (getAlternativeLiteralTypes (getProtocol c)) ->
  In (getCanonicalType t)
     (snd (literalAlternatives tvc (newBindings, explored))).
Proof.
  unfold literalAlternatives.
  generalize (ConformsToConstraints tvc) as l.
  intros l. revert newBindings explored.
  induction l as [|k l IH]; intros newBindings explored Hc Hd Ht;
    [destruct Hc|].
  cbn [fold_left].
  assert (Mono : forall l0 nb ex x, In x ex ->
            In x (snd (fold_left
                   (fun a constraint =>
                      match getDefaultType (getProtocol constraint) with
                      | Some _ =>
                          addUnexplored true
                            (getAlternativeLiteralTypes
                               (getProtocol constraint)) a
                      | None => a
                      end) l0 (nb, ex)))).
  { clear. induction l0 as [|k l0 IH0]; intros nb ex x Hx; [exact Hx|].
    cbn [fold_left].
    destruct (getDefaultType (getProtocol k)); [|now apply IH0].
    destruct (addUnexplored_spec true
                (getAlternativeLiteralTypes (getProtocol k)) nb ex)
      as (a1 & _ & _ & _ & _ & X1).
    destruct (addUnexplored true _ (nb, ex)) as [nb1 ex1].
    apply IH0. apply X1. now left. }
  destruct Hc as [->|Hc].
  - destruct (getDefaultType (getProtocol c)) as [d|]; [|congruence].
    destruct (addUnexplored_spec true
                (getAlternativeLiteralTypes (getProtocol c))
                newBindings explored)
      as (a1 & _ & _ & _ & C1 & X1).
    destruct (addUnexplored true _ (newBindings, explored)) as [nb1 ex1].
    apply Mono. cbn [snd] in X1. apply X1.
    destruct (in_dec Ty_eq_dec (getCanonicalType t) explored) as [Hin|Hn];
      [now left | right; now apply C1].
  - destruct (getDefaultType (getProtocol k)).
    + destruct (addUnexplored true _ (newBindings, explored)) as [nb1 ex1].
      now apply IH.
    + now apply IH.
Qed.

(** X19. After a first round in which no binding had a solution: when
    some alternative literal type of a literal protocol of the variable
    has a canonical type that was not tried, the new bindings are not
    empty, are all flagged as literal defaults, and are such alternatives,
    all of them up to canonical type; when there is none, the new bindings
    are the checked direct supertypes of the bindings of the first round
    whose canonical type was not tried, all of them up to canonical type,
    none flagged. In both cases the canonical types of the new bindings
    are pairwise distinct, and the explored types are those tried and
    those of the new bindings. *)
Theorem nextBindings_first_round (tvc : TypeVariableConstraints)
  (bindings : list (Ty * bool)) :
  let newBindings := fst (nextBindings tvc 0 bindings []) in
  let explored := snd (nextBindings tvc 0 bindings []) in
  let canonical := fun b : Ty * bool => getCanonicalType (fst b) in
  let tried := fun t : Ty =>
    In (getCanonicalType t) (map canonical bindings) in
  let isAlternative := fun t : Ty =>
    exists c, In c (ConformsToConstraints tvc) /\
              getDefaultType (getProtocol c) <> None /\
              In t (getAlternativeLiteralTypes (getProtocol c)) in
  let isSupertype := fun t : Ty =>
    exists binding supertype,
      In binding bindings /\
      In supertype (enumerateDirectSupertypes (fst binding)) /\
      checkTypeOfBinding (TypeVar tvc) (Some supertype) = Some t in
  NoDup (map canonical newBindings) /\
  (forall c, In c explored <->
             In c (map canonical bindings) \/
             In c (map canonical newBindings)) /\
  ((exists t, isAlternative t /\ ~ tried t) ->
   newBindings <> [] /\
   (forall b, In b newBindings ->
      snd b = true /\ isAlternative (fst b) /\ ~ tried (fst b)) /\
   (forall t, isAlternative t -> ~ tried t ->
      In (getCanonicalType t) (map canonical newBindings))) /\
  ((forall t, isAlternative t -> tried t) ->
   (forall b, In b newBindings ->
      snd b = false /\ isSupertype (fst b) /\ ~ tried (fst b)) /\
   (forall t, isSupertype t -> ~ tried t ->
      In (getCanonicalType t) (map canonical newBindings))).
Proof.
  cbn zeta. unfold nextBindings. cbn [Nat.eqb andb].
  assert (V : forall c, In c (noteVisited bindings []) <->
                        In c (map (fun b => getCanonicalType (fst b))
                                  bindings)).
  { intros c. rewrite noteVisited_spec. cbn. tauto. }
  destruct (literalAlternatives_spec tvc [] (noteVisited bindings []))
    as (a1 & E1 & B1 & N1 & X1).
  pose proof (literalAlternatives_complete tvc [] (noteVisited bindings []))
    as C1.
  cbn [app] in E1.
  destruct (literalAlternatives tvc ([], noteVisited bindings []))
    as [nb1 ex1]. cbn [fst snd] in *. subst nb1.
  destruct a1 as [|b1 a1].
  - (* no alternative is new: the supertypes *)
    unfold supertypeBindings.
    destruct (addUnexplored_spec false
                (checkedSupertypes (TypeVar tvc) bindings) [] ex1)
      as (a2 & E2 & B2 & N2 & C2 & X2).
    cbn [app] in E2. rewrite E2.
    assert (X1' : forall c, In c ex1 <->
                    In c (map (fun b => getCanonicalType (fst b)) bindings)).
    { intros c. rewrite X1, V. cbn. tauto. }
    split; [exact N2|]. split; [|split].
    + intros c. rewrite X2, X1'. tauto.
    + intros (t & (c & Hc & Hd & Ht) & Hn). exfalso. apply Hn.
      apply X1'. exact (C1 c t Hc Hd Ht).
    + intros _. split.
      * intros b Hb. destruct (B2 b Hb) as (H1 & H2 & H3).
        split; [exact H1|]. split.
        -- now apply checkedSupertypes_In.
        -- intros Hin. apply H3. now apply X1'.
      * intros t Ht Hn. apply C2.
        -- now apply checkedSupertypes_In.
        -- intros Hin. apply Hn. now apply X1'.
  - (* some alternative is new *)
    cbn [fst snd].
    split; [exact N1|]. split; [|split].
    + intros c. rewrite X1, V. tauto.
    + intros _. split; [discriminate|]. split.
      * intros b Hb. destruct (B1 b Hb) as (H1 & H2 & H3).
        split; [exact H1|]. split; [exact H3|].
        intros Hin. apply H2. now apply V.
      * intros t (c & Hc & Hd & Ht) Hn.
        pose proof (C1 c t Hc Hd Ht) as Hin. apply X1 in Hin.
        destruct Hin as [Hin|Hin]; [|exact Hin].
        exfalso. apply Hn. now apply V.
    + intros Hall. exfalso.
      destruct (B1 b1 (or_introl eq_refl)) as (_ & H2 & H3).
      apply H2. apply V. now apply Hall.
Qed.

Lemma tryRounds_disjoint (fuel : nat) (tvc : TypeVariableConstraints) :
  forall (tryCount : nat) (bindings : list (Ty * bool))
         (explored : list Ty) (rounds : list (list (Ty * bool) * list Ty))
         (st : St) res st' rounds',
    tryRounds St solveWithBinding fuel tvc tryCount bindings explored
              rounds st = Some (res, st', rounds') ->
    (1 <= tryCount ->
     forall b, In b bindings -> In (getCanonicalType (fst b)) explored) ->
    (tryCount = 0 -> rounds = []) ->
    (forall round x, In round rounds -> In x (fst round) ->
       In (getCanonicalType (fst x)) explored) ->
    (forall round x y, In round rounds -> In x (fst round) ->
       In y bindings ->
       getCanonicalType (fst x) <> getCanonicalType (fst y)) ->
    (forall i j ri rj, i < j ->
       nth_error rounds i = Some ri -> nth_error rounds j = Some rj ->
       forall x y, In x (fst ri) -> In y (fst rj) ->
       getCanonicalType (fst x) <> getCanonicalType (fst y)) ->
    forall i j ri rj, i < j ->
      nth_error rounds' i = Some ri -> nth_error rounds' j = Some rj ->
      forall x y, In x (fst ri) -> In y (fst rj) ->
      getCanonicalType (fst x) <> getCanonicalType (fst y).
Proof.
  induction fuel as [|fuel IH];
    intros tryCount bindings explored rounds st res st' rounds' H
           Hcur Hzero Hexp Hnew Hdis; [discriminate|].
  cbn [tryRounds] in H.
  destruct bindings as [|b0 bs] eqn:Eb.
  { inversion H; subst. exact Hdis. }
  rewrite <- Eb in *. clear Eb.
  assert (Hdis' : forall i j ri rj, i < j ->
            nth_error (rounds ++ [(bindings, explored)]) i = Some ri ->
            nth_error (rounds ++ [(bindings, explored)]) j = Some rj ->
            forall x y, In x (fst ri) -> In y (fst rj) ->
            getCanonicalType (fst x) <> getCanonicalType (fst y)).
  { intros i j ri rj Hij Hi Hj x y Hx Hy.
    assert (Hjl : j < length (rounds ++ [(bindings, explored)]))
      by (apply nth_error_Some; congruence).
    rewrite length_app in Hjl. cbn in Hjl.
    rewrite nth_error_app1 in Hi by lia.
    destruct (Nat.eq_dec j (length rounds)) as [->|Hn].
    - rewrite nth_error_app2, Nat.sub_diag in Hj by lia.
      cbn in Hj. inversion Hj; subst rj. cbn in Hy.
      exact (Hnew ri x y (nth_error_In _ _ Hi) Hx Hy).
    - rewrite nth_error_app1 in Hj by lia.
      exact (Hdis i j ri rj Hij Hi Hj x y Hx Hy). }
  destruct (tryBindings St solveWithBinding (TypeVar tvc) bindings
              false false st) as [anySolved st1].
  destruct anySolved.
  { inversion H; subst. exact Hdis'. }
  destruct (nextBindings_fresh tvc tryCount bindings explored)
    as (ND & F & X & _).
  destruct (nextBindings tvc tryCount bindings explored)
    as [newBindings explored'].
  cbn [fst snd] in *.
  destruct newBindings as [|n0 ns] eqn:En.
  { inversion H; subst. exact Hdis'. }
  rewrite <- En in *. clear En.
  assert (Hcover : forall x, In x bindings ->
                             In (getCanonicalType (fst x)) explored').
  { intros x Hx. apply X. destruct tryCount as [|k].
    - right. right. split; [reflexivity|].
      apply (in_map (fun b => getCanonicalType (fst b))); assumption.
    - left. apply Hcur; [lia | assumption]. }
  eapply (IH (S tryCount) newBindings explored'
             (rounds ++ [(bindings, explored)]));
    [exact H | | | | | exact Hdis'].
  - intros _ b Hb. apply X. right. left.
    apply (in_map (fun b => getCanonicalType (fst b))); assumption.
  - discriminate.
  - intros round x Hr Hx. apply in_app_or in Hr.
    destruct Hr as [Hr|[<-|[]]].
    + apply X. left. eapply Hexp; eauto.
    + now apply Hcover.
  - intros round x y Hr Hx Hy Heq. destruct (F y Hy) as (F1 & F2).
    apply in_app_or in Hr. destruct Hr as [Hr|[<-|[]]].
    + apply F1. rewrite <- Heq. eapply Hexp; eauto.
    + cbn in Hx. destruct tryCount as [|k].
      * apply F2; [reflexivity|]. rewrite <- Heq.
        apply (in_map (fun b => getCanonicalType (fst b))); assumption.
      * apply F1. rewrite <- Heq. apply Hcur; [lia | assumption].
Qed.

(** X20. The candidates of the rounds of [tryTypeVariableBindings] do
    not repeat: a binding stored for a round differs, by the canonical
    type of the stored type, from every binding stored for an earlier
    round. This is about the stored candidates, which the set of explored
    types keeps apart; the type that is bound is the r-value of the
    candidate when the variable cannot bind to an l-value, or its opened
    form for a literal default, and such types can be bound again in a
    later round. *)
Theorem tryTypeVariableBindings_rounds_disjoint
  (fuel : nat) (tvc : TypeVariableConstraints)
  (bindings : list (Ty * bool)) (st st' : St) (res : bool)
  (rounds : list (list (Ty * bool) * list Ty))
  (i j : nat) (ri rj : list (Ty * bool) * list Ty) (x y : Ty * bool) :
  tryTypeVariableBindings St solveWithBinding fuel tvc bindings st
    = Some (res, st', rounds) ->
  i < j ->
  nth_error rounds i = Some ri -> nth_error rounds j = Some rj ->
  In x (fst ri) -> In y (fst rj) ->
  getCanonicalType (fst x) <> getCanonicalType (fst y).
Proof.
  intros H Hij Hi Hj Hx Hy. unfold tryTypeVariableBindings in H.
  refine (tryRounds_disjoint fuel tvc 0 bindings [] [] st res st' rounds H
            _ _ _ _ _ i j ri rj Hij Hi Hj x y Hx Hy).
  - intros Hc. lia.
  - reflexivity.
  - intros round x0 [].
  - intros round x0 y0 [].
  - intros i0 j0 r1 r2 _ Hn. destruct i0; discriminate.
Qed.

End BindingSearchMore.

(** ** More on simplification *)

Lemma retireAll_fields (cs : ConstraintSystem) :
  failedConstraint (retireAll cs) = failedConstraint cs /\
  Worklist (retireAll cs) = Worklist cs.
Proof. unfold retireAll. destruct (solverState cs); split; reflexivity. Qed.

Lemma filter_memRef_nil (l : list ConstraintRef) :
  filter (fun c => negb (memRef c [])) l = l /\
  filter (fun c => memRef c []) l = [].
Proof.
  induction l as [|x l [IH1 IH2]]; [split; reflexivity|].
  split.
  - change (x :: filter (fun c => negb (memRef c [])) l = x :: l).
    now rewrite IH1.
  - change (filter (fun c => memRef c []) l = []). exact IH2.
Qed.

Section SimplifyMore.
Variable simplifyConstraint :
  ConstraintRef -> ConstraintSystem -> SolutionKind * ConstraintSystem.
Variable addConstraint :
  ConstraintRef -> ConstraintSystem -> bool * ConstraintSystem.

Lemma recordResult_failed c kind rs cs rs' cs' :
  recordResult c kind rs cs = Some (rs', cs') ->
  failedConstraint cs <> None -> failedConstraint cs' <> None.
Proof.
  unfold recordResult, updSolverState. destruct kind.
  - destruct (failedConstraint cs) eqn:E; intros H; inversion H; subst;
      cbn; congruence.
  - destruct (solverState cs); [|discriminate].
    intros H; inversion H; subst. unfold removeFromGraph. cbn.
    destruct (CG cs); cbn; auto.
  - destruct (solverState cs); [|discriminate].
    intros H; inversion H; subst. cbn. auto.
Qed.

(** Where the worklist loop ends. *)
Lemma simplifyWorklist_exit (fuel : nat) :
  forall rs cs e rs' cs',
    simplifyWorklist simplifyConstraint fuel rs cs = Returned (e, rs', cs') ->
    match e with
    | ExitFailed => failedConstraint cs' <> None /\ Worklist cs' = []
    | ExitPruned => worseThanBestSolution cs' = true /\
                    failedConstraint cs' = None
    | ExitDrained => Worklist cs' = []
    end.
Proof.
  induction fuel as [|fuel IH]; intros rs cs e rs' cs' H; [discriminate|].
  cbn [simplifyWorklist] in H.
  destruct (Worklist cs) as [|c rest] eqn:W.
  { inversion H; subst. exact W. }
  destruct (simplifyConstraint c (set_Worklist rest cs)) as [kind cs1].
  destruct (recordResult c kind rs cs1) as [[rs1 cs2]|]; [|discriminate].
  destruct (failedConstraint (setInactive c cs2)) as [f|] eqn:F.
  - injection H as <- <- <-.
    destruct (drainWorklist_fields (Worklist cs2)
                (setInactive c cs2)) as (D1 & _ & _ & D4 & _).
    destruct (retireAll_fields
                (drainWorklist (Worklist cs2)
                   (setInactive c cs2))) as [R1 R2].
    split; [rewrite R1, D4, F; discriminate | now rewrite R2, D1].
  - destruct (worseThanBestSolution (setInactive c cs2)) eqn:Wb.
    + inversion H; subst. split; assumption.
    + eapply IH; eauto.
Qed.

(** X21. [simplify] returns true only where a constraint has failed or, with a
    constraint graph, where the current score is worse than the best
    solution; it returns false in graph mode only with an empty
    worklist. *)
Theorem simplify_result_reason (fuel : nat) (cs cs' : ConstraintSystem)
  (result : bool) :
  simplify simplifyConstraint addConstraint fuel cs
    = Returned (result, cs') ->
  if result
  then failedConstraint cs' <> None \/
       (CG cs <> None /\ worseThanBestSolution cs' = true)
  else CG cs <> None -> Worklist cs' = [].
Proof.
  unfold simplify. destruct (CG cs) as [g|] eqn:G.
  - unfold simplifyGraph.
    destruct (simplifyWorklist simplifyConstraint fuel [] cs)
      as [[[e rs] cs1]| |] eqn:E; try discriminate.
    pose proof (simplifyWorklist_exit _ _ _ _ _ _ E) as X.
    destruct e.
    + intros H; inversion H; subst. left. apply X.
    + intros H; inversion H; subst. right. split; [discriminate | apply X].
    + destruct (solverState cs1) as [ss|].
      * destruct (transferRetired _ _ _) as [kept retired].
        intros H; inversion H; subst. intros _. exact X.
      * intros H; inversion H; subst. intros _. exact X.
  - intros H. destruct result; [|intros C; congruence]. left.
    clear G. revert cs H. induction fuel as [|fuel IH]; intros cs H;
      [discriminate|].
    cbn [simplifyFixpoint] in H.
    destruct (simplifyExisting addConstraint (Constraints cs) false
                (set_Constraints [] cs)) as [[cs1|[solvedAny cs1]]|] eqn:E;
      try discriminate.
    + inversion H; subst. clear - E.
      revert E. generalize (set_Constraints [] cs) as cs0.
      generalize false as solvedAny.
      induction (Constraints cs) as [|c rest IHl]; intros solvedAny cs0 E;
        [discriminate|].
      cbn [simplifyExisting] in E.
      destruct (addConstraint c cs0) as [solved cs1].
      match type of E with
      | match ?counted with _ => _ end = _ =>
          destruct counted as [[sa cs2]|]; [|discriminate]
      end.
      destruct (failedConstraint cs2) eqn:F.
      * destruct (solverState cs2); inversion E; subst; cbn; congruence.
      * eapply IHl; eauto.
    + destruct (updSolverState _ cs1) as [cs2|] eqn:U; [|discriminate].
      destruct solvedAny; [|discriminate].
      apply (IH cs2). exact H.
Qed.

(** X22. With a constraint graph and an empty worklist, [simplify] returns
    false and leaves the system as it is. *)
Theorem simplify_idle (fuel : nat) (cs : ConstraintSystem) :
  CG cs <> None -> Worklist cs = [] ->
  simplify simplifyConstraint addConstraint (S fuel) cs
    = Returned (false, cs).
Proof.
  intros G W. unfold simplify, simplifyGraph.
  destruct (CG cs) as [g|] eqn:Eg; [|congruence].
  cbn [simplifyWorklist]. rewrite W.
  destruct (solverState cs) as [ss|] eqn:Es.
  - rewrite transferRetired_spec.
    destruct (filter_memRef_nil (Constraints cs)) as [-> ->].
    cbn [rev app exitResult]. f_equal. f_equal.
    destruct cs, ss. cbn in *. inversion Es; subst. reflexivity.
  - destruct (filter_memRef_nil (Constraints cs)) as [-> _].
    cbn [exitResult]. f_equal. f_equal. destruct cs. reflexivity.
Qed.

(** X23. When the worklist loop runs to its end, [simplify] returns false and
    the constraints that the loop retired leave the active list, which
    keeps its order: with a solver state they go to the front of the
    retired list, the last one first, so that no constraint is lost;
    without one they are erased. Nothing else changes. *)
Theorem simplify_drained_transfers (fuel : nat)
  (cs cs1 : ConstraintSystem) (retiredSet : list ConstraintRef) :
  CG cs <> None ->
  simplifyWorklist simplifyConstraint fuel [] cs
    = Returned (ExitDrained, retiredSet, cs1) ->
  exists cs2,
    simplify simplifyConstraint addConstraint fuel cs
      = Returned (false, cs2) /\
    Constraints cs2 =
      filter (fun c => negb (memRef c retiredSet)) (Constraints cs1) /\
    match solverState cs1 with
    | Some ss =>
        exists ss2,
          solverState cs2 = Some ss2 /\
          retiredConstraints ss2 =
            rev (filter (fun c => memRef c retiredSet) (Constraints cs1)) ++
            retiredConstraints ss /\
          Permutation (Constraints cs2 ++ retiredConstraints ss2)
                      (Constraints cs1 ++ retiredConstraints ss) /\
          ss2 = set_retiredConstraints (retiredConstraints ss2) ss
    | None => solverState cs2 = None
    end /\
    cs2 = set_Constraints (Constraints cs2)
            (set_solverState (solverState cs2) cs1).
Proof.
  intros G H. unfold simplify, simplifyGraph.
  destruct (CG cs) as [g|]; [|congruence]. rewrite H.
  destruct (solverState cs1) as [ss|] eqn:Es.
  - rewrite transferRetired_spec. eexists. split; [reflexivity|].
    cbn. split; [reflexivity|]. split; [|reflexivity].
    eexists. split; [reflexivity|]. cbn. split; [reflexivity|].
    split; [|reflexivity].
    rewrite app_assoc. apply Permutation_app_tail.
    rewrite (Permutation_app_comm _ (rev _)). 
    rewrite <- Permutation_rev.
    clear. induction (Constraints cs1) as [|x l IH]; cbn; [constructor|].
    destruct (memRef x retiredSet); cbn.
    + now constructor.
    + rewrite <- Permutation_middle. now constructor.
  - eexists. split; [reflexivity|]. cbn. split; [reflexivity|].
    split; [assumption|]. destruct cs1. cbn in *. subst. reflexivity.
Qed.

End SimplifyMore.

Lemma simplify_result_reason_witness :
  exists final,
    simplify solveAtCost neverAdd 3 graphSystem = Returned (true, final) /\
    (failedConstraint final <> None \/
     CG graphSystem <> None /\ worseThanBestSolution final = true).
Proof.
  assert (E : exists final,
             simplify solveAtCost neverAdd 3 graphSystem
               = Returned (true, final)).
  { eexists. cbv. reflexivity. }
  destruct E as (final & E). exists final. split; [exact E|].
  exact (simplify_result_reason solveAtCost neverAdd 3 graphSystem final
           true E).
Defined.

Lemma simplify_idle_witness :
  simplify solveFirst neverAdd 1 (set_Worklist [] graphSystem)
    = Returned (false, set_Worklist [] graphSystem).
Proof.
  apply (simplify_idle solveFirst neverAdd 0 (set_Worklist [] graphSystem)).
  - discriminate.
  - reflexivity.
Defined.

Lemma simplify_drained_transfers_witness :
  exists final,
    simplify solveFirst neverAdd 4 graphSystem = Returned (false, final) /\
    Constraints final = [2; 3] /\
    retiredOf final = [1].
Proof.
  assert (E : exists cs1,
             simplifyWorklist solveFirst 4 [] graphSystem
               = Returned (ExitDrained, [1], cs1) /\
             Constraints cs1 = [1; 2; 3] /\
             exists ss, solverState cs1 = Some ss /\
                        retiredConstraints ss = []).
  { eexists. split; [cbv; reflexivity|]. split; [reflexivity|].
    eexists. split; reflexivity. }
  destruct E as (cs1 & E & Hc & ss & Hs & Hr).
  destruct (simplify_drained_transfers solveFirst neverAdd 4 graphSystem
              cs1 [1]) as (final & H1 & H2 & H3 & _);
    [discriminate | exact E |].
  exists final. split; [exact H1|].
  rewrite Hs in H3. destruct H3 as (ss2 & H3 & H4 & _).
  rewrite Hc in H2, H4. rewrite Hr in H4.
  split; [exact H2|]. unfold retiredOf. rewrite H3. exact H4.
Defined.

(** ** Instances of the further properties *)

(** In [[exampleLiteralTVC; examplePlainTVC]] the second summary is
    chosen, and it is strictly better than the first. *)
Lemma selectBestBindings_first_of_best_witness :
  PotentialBindings_lt
    (getPotentialBindings (env := exampleEnv) examplePlainTVC)
    (getPotentialBindings (env := exampleEnv) exampleLiteralTVC) = true.
Proof.
  apply (selectBestBindings_first_of_best (env := exampleEnv)
           [exampleLiteralTVC; examplePlainTVC] 1
           (getPotentialBindings (env := exampleEnv) examplePlainTVC)
           0 exampleLiteralTVC).
  - vm_compute. reflexivity.
  - lia.
  - reflexivity.
  - reflexivity.
Defined.

Lemma collectConstraints_applicable_function_witness :
  exists t,
    In t [mkTVC 0 true false [] [] []] /\ TypeVar t = 0 /\
    FullyBound t = true.
Proof.
  exact (collectConstraints_applicable_function (env := exampleEnv)
           [exampleApplicable] [] exampleApplicable 0
           (or_introl eq_refl) eq_refl (or_introl eq_refl)).
Defined.

Lemma collectConstraints_member_witness :
  exists t,
    In t [mkTVC 1 true false [] [] []] /\ TypeVar t = 1 /\
    FullyBound t = true.
Proof.
  exact (collectConstraints_member (env := exampleEnv)
           [exampleMember] [] exampleMember (TypeVariableType 1) 1
           (or_introl eq_refl) (or_introl eq_refl) eq_refl eq_refl
           (or_introl eq_refl)).
Defined.

Lemma collectConstraints_bounds_witness :
  exists t,
    In t [mkTVC 0 false false [] [(exampleSubtype, NominalType 7)] []] /\
    TypeVar t = 0 /\
    In (exampleSubtype, NominalType 7) (Below t).
Proof.
  exact (proj2 (collectConstraints_bounds (env := exampleEnv)
                  [exampleSubtype] [] exampleSubtype (TypeVariableType 0)
                  (or_introl eq_refl) eq_refl eq_refl)
               0 eq_refl).
Defined.

Lemma collectConstraints_conformance_witness :
  exists t,
    In t [mkTVC 0 false false [] [] [exampleConformsTo]] /\
    TypeVar t = 0 /\
    In exampleConformsTo (ConformsToConstraints t).
Proof.
  exact (collectConstraints_conformance (env := exampleEnv)
           [exampleConformsTo] [] exampleConformsTo 0
           (or_introl eq_refl) (or_introl eq_refl) eq_refl).
Defined.

Lemma getPotentialBindings_covers_witness :
  exists ty binding,
    candidateOfBound (env := exampleEnv) 0
      (exampleSubtype, NominalType 1) ty /\
    In (binding, false)
       [(NominalType 1, false); (NominalType 100, true)] /\
    binding = ty.
Proof.
  exact (getPotentialBindings_covers (env := exampleEnv) exampleLiteralTVC
           (exampleSubtype, NominalType 1) (NominalType 1)
           (or_introl eq_refl) eq_refl).
Defined.

Lemma tryBindings_stops_at_first_literal_witness :
  tryBindings (env := exampleEnv) (list Ty) succeedingSolve 0
    ([(NominalType 1, false)] ++ [(NominalType 100, true)]) false false []
  = (true, [NominalType 1]).
Proof.
  rewrite (tryBindings_stops_at_first_literal (env := exampleEnv)
             (list Ty) succeedingSolve 0 [(NominalType 1, false)] []
             (NominalType 100, true) []).
  - reflexivity.
  - repeat constructor.
  - reflexivity.
  - reflexivity.
Defined.

Lemma tryTypeVariableBindings_rounds_disjoint_witness :
  NominalType 1 <> NominalType 200.
Proof.
  apply (tryTypeVariableBindings_rounds_disjoint (env := exampleEnv)
           (list Ty) failingSolve 5 exampleLiteralTVC
           (Bindings (getPotentialBindings (env := exampleEnv)
                        exampleLiteralTVC))
           [] [NominalType 1; NominalType 100; NominalType 200] true
           [([(NominalType 1, false); (NominalType 100, true)], []);
            ([(NominalType 200, true)],
             [NominalType 200; NominalType 100; NominalType 1])]
           0 1
           ([(NominalType 1, false); (NominalType 100, true)], [])
           ([(NominalType 200, true)],
            [NominalType 200; NominalType 100; NominalType 1])
           (NominalType 1, false) (NominalType 200, true)).
  - reflexivity.
  - lia.
  - reflexivity.
  - reflexivity.
  - left. reflexivity.
  - left. reflexivity.
Defined.
